(** * PortfolioOS: window management, sticky notes and mood persistence

    A shallow embedding of the parts of [PortfolioOS] (the desktop shell
    class of the repository) that its specification makes statements
    about:

    - [Geometry]: the pointer-move handlers of [setupResizeHandle] and
      [setupRegularWindowDragging];
    - [WindowManager]: [openWindow], [closeWindow], [minimizeWindow],
      [focusWindow], [bringWindowToFront], [getWindowId] and
      [recalculateWindowLayers], over an explicit model of the window
      elements of the page and of the pending [setTimeout] callbacks;
    - [StickyNotes]: the grouping and sorting part of [loadStickyNotes]
      and the update branch of [autoSaveNote];
    - [MoodTracker]: [getMoodData] and [saveTodaysMood] over a model of
      [localStorage] and of the exceptions the built-ins can raise;
    - [Gestures], [WindowCommands], [Notebook] and [MoodReaders]: what
      the properties of the rest of those four parts need, among them
      [closeAllWindows], [removeStickyNote], [createNewNoteInStorage],
      [closeNoteWindow], [deleteNoteWindow], [loadMoodData] and
      [updateStreak];
    - [SvgCache] and [PerformanceLog]: the asset cache behind
      [loadSVGFile] and the bounded logs of [logError] and
      [collectMemoryMetrics];
    - [MusicPlayer]: the track navigation of the music player;
    - [FiveInARow]: the board, the win test and the move choice of
      [FiveInARowGame].

    Pixel coordinates and z-indices are JavaScript numbers that only ever
    go through addition, subtraction, multiplication by ten and
    [Math.max]; they are modelled as [Z]. *)

From Stdlib Require Import ZArith Lia Ascii.
From stdpp Require Import base decidable option list sorting gmap strings pretty.

(* ===================================================================== *)
(** * Drag and resize geometry                                            *)
(* ===================================================================== *)

Module Geometry.
Local Open Scope Z_scope.

(** What [getBoundingClientRect] reports at [mousedown] and what the
    handlers write back into [style.left/top/width/height]. *)
Record Rect : Type := mkRect
  { r_left : Z; r_top : Z; r_width : Z; r_height : Z }.

(** The eight classes [addResizeHandles] gives to the handles. *)
Inductive HandleClass : Type :=
  | resize_handle_n | resize_handle_s | resize_handle_e | resize_handle_w
  | resize_handle_ne | resize_handle_nw | resize_handle_se | resize_handle_sw.

Definition minWidth : Z := 300.
Definition minHeight : Z := 200.
Definition taskbarHeight : Z := 40.

(** The [switch (handleClass)] of [handleMouseMove] in
    [setupResizeHandle]: the candidate geometry before the taskbar
    adjustment.  [start] is the rectangle captured at [mousedown]. *)
Definition resizeSwitch (handleClass : HandleClass) (start : Rect)
    (deltaX deltaY : Z) : Rect :=
  let startLeft := r_left start in
  let startTop := r_top start in
  let startWidth := r_width start in
  let startHeight := r_height start in
  match handleClass with
  | resize_handle_e =>
      let newWidth := Z.max 300 (startWidth + deltaX) in
      mkRect startLeft startTop newWidth startHeight
  | resize_handle_w =>
      let newWidth := Z.max 300 (startWidth - deltaX) in
      mkRect (startLeft + (startWidth - newWidth)) startTop newWidth startHeight
  | resize_handle_s =>
      let newHeight := Z.max 200 (startHeight + deltaY) in
      mkRect startLeft startTop startWidth newHeight
  | resize_handle_n =>
      let newHeight := Z.max 200 (startHeight - deltaY) in
      mkRect startLeft (startTop + (startHeight - newHeight)) startWidth newHeight
  | resize_handle_se =>
      let newWidth := Z.max 300 (startWidth + deltaX) in
      let newHeight := Z.max 200 (startHeight + deltaY) in
      mkRect startLeft startTop newWidth newHeight
  | resize_handle_sw =>
      let newWidth := Z.max 300 (startWidth - deltaX) in
      let newHeight := Z.max 200 (startHeight + deltaY) in
      mkRect (startLeft + (startWidth - newWidth)) startTop newWidth newHeight
  | resize_handle_ne =>
      let newWidth := Z.max 300 (startWidth + deltaX) in
      let newHeight := Z.max 200 (startHeight - deltaY) in
      mkRect startLeft (startTop + (startHeight - newHeight)) newWidth newHeight
  | resize_handle_nw =>
      let newWidth := Z.max 300 (startWidth - deltaX) in
      let newHeight := Z.max 200 (startHeight - deltaY) in
      mkRect (startLeft + (startWidth - newWidth))
             (startTop + (startHeight - newHeight)) newWidth newHeight
  end.

(** "Ensure window doesn't go above taskbar when resizing from top". *)
Definition taskbarAdjust (g : Rect) : Rect :=
  if decide (r_top g < taskbarHeight) then
    let adjustment := taskbarHeight - r_top g in
    mkRect (r_left g) taskbarHeight (r_width g)
           (Z.max 200 (r_height g - adjustment))
  else g.

(** One [mousemove] of a resize session: the geometry written to the
    window's style.  [startX], [startY] are the pointer coordinates
    captured at [mousedown]. *)
Definition resizeMouseMove (handleClass : HandleClass) (start : Rect)
    (startX startY clientX clientY : Z) : Rect :=
  let deltaX := clientX - startX in
  let deltaY := clientY - startY in
  taskbarAdjust (resizeSwitch handleClass start deltaX deltaY).


(** ** Header dragging ([setupRegularWindowDragging]) *)

(** The closure state of one drag session.  [pendingFrame] holds the
    deltas captured by the callback handed to [requestAnimationFrame]
    that has neither run nor been cancelled. *)
Record DragSession : Type := mkDrag
  { isDragging : bool;
    hasMoved : bool;
    pendingFrame : option (Z * Z);
    geometry : Rect }.

Inductive DragEvent : Type :=
  | MouseMove (clientX clientY : Z)
  | AnimationFrame.

Definition dragStart (rect : Rect) : DragSession :=
  mkDrag false false None rect.

(** The body of the frame callback: only [left] and [top] are written. *)
Definition dragFrame (start : Rect) (deltaX deltaY : Z) (g : Rect) : Rect :=
  let newLeft := r_left start + deltaX in
  let newTop := Z.max 40 (r_top start + deltaY) in
  mkRect newLeft newTop (r_width g) (r_height g).

Definition dragStep (start : Rect) (startX startY : Z)
    (d : DragSession) (e : DragEvent) : DragSession :=
  match e with
  | MouseMove clientX clientY =>
      let deltaX := clientX - startX in
      let deltaY := clientY - startY in
      let began :=
        negb (isDragging d) &&
        (bool_decide (3 < Z.abs deltaX) || bool_decide (3 < Z.abs deltaY)) in
      let dragging := isDragging d || began in
      mkDrag dragging (hasMoved d || began)
             (if dragging then Some (deltaX, deltaY) else pendingFrame d)
             (geometry d)
  | AnimationFrame =>
      match pendingFrame d with
      | Some (deltaX, deltaY) =>
          mkDrag (isDragging d) (hasMoved d) None
                 (dragFrame start deltaX deltaY (geometry d))
      | None => d
      end
  end.

(** The geometries a drag session writes to the window's style, one for
    each frame callback that runs. *)
Fixpoint dragWrites (start : Rect) (startX startY : Z)
    (d : DragSession) (events : list DragEvent) : list Rect :=
  match events with
  | [] => []
  | e :: rest =>
      let d' := dragStep start startX startY d e in
      match e, pendingFrame d with
      | AnimationFrame, Some _ =>
          geometry d' :: dragWrites start startX startY d' rest
      | _, _ => dragWrites start startX startY d' rest
      end
  end.

(** A handle with an east or west part clamps the width it writes. *)
Definition changesWidth (handleClass : HandleClass) : bool :=
  match handleClass with
  | resize_handle_n | resize_handle_s => false
  | _ => true
  end.


(** The three bounds of the specification's drag clamp. *)
Definition withinBounds (g : Rect) : Prop :=
  minWidth ≤ r_width g ∧ minHeight ≤ r_height g ∧ taskbarHeight ≤ r_top g.

End Geometry.

(* ===================================================================== *)
(** * The window manager                                                  *)
(* ===================================================================== *)

Module WindowManager.

(** ** The page *)

(** A window element of the page, reduced to what the window manager
    reads and writes: the [id] attribute (empty when absent), the
    [data-window] attribute, the classes [active] and [focused], and the
    inline [z-index].  The elements modelled are the application windows
    (class [window], carrying a [data-window] attribute); sounds,
    animations, opacity and input focus are left out. *)
Record WindowEl : Type := mkEl
  { el_id : string;
    data_window : string;
    cls_active : bool;
    cls_focused : bool;
    style_zIndex : option Z }.

Definition addActive (w : WindowEl) : WindowEl :=
  mkEl (el_id w) (data_window w) true (cls_focused w) (style_zIndex w).
Definition removeActive (w : WindowEl) : WindowEl :=
  mkEl (el_id w) (data_window w) false (cls_focused w) (style_zIndex w).
Definition addFocused (w : WindowEl) : WindowEl :=
  mkEl (el_id w) (data_window w) (cls_active w) true (style_zIndex w).
Definition removeFocused (w : WindowEl) : WindowEl :=
  mkEl (el_id w) (data_window w) (cls_active w) false (style_zIndex w).
Definition setZIndex (z : Z) (w : WindowEl) : WindowEl :=
  mkEl (el_id w) (data_window w) (cls_active w) (cls_focused w) (Some z).

(** [getWindowId]: the [id] attribute when it is non-empty, else
    [dataset.window].  (The later branches of the source are for
    elements without a [data-window] attribute.) *)
Definition getWindowId (windowElement : WindowEl) : string :=
  if decide (el_id windowElement ≠ "") then el_id windowElement
  else data_window windowElement.

(** Elements other than windows that the layer code looks for: the three
    popup classes of the selector in [recalculateWindowLayers], and
    anything else that may float over the desktop. *)
Inductive OverlayClass : Type :=
  | rename_popup | delete_popup | remove_note_popup | other_overlay.

Definition isPopup (c : OverlayClass) : bool :=
  match c with
  | rename_popup | delete_popup | remove_note_popup => true
  | other_overlay => false
  end.

(** Callbacks handed to [setTimeout] and not run yet. *)
Inductive Timer : Type :=
  | RemoveRecentlyClosed (appName : string)   (* closeWindow, 200ms *)
  | FinishMinimize (window : nat).            (* minimizeWindow, 400ms *)

(** The fields of [PortfolioOS] the window manager uses, together with
    the page.  A window element is referred to by its position in
    [dom], which is document order and never changes. *)
Record OS : Type := mkOS
  { dom : list WindowEl;
    overlays : list OverlayClass;
    activeWindows : gset string;
    windowZIndex : Z;
    windowLayerOrder : list string;
    recentlyClosedWindows : gset string;
    timers : list Timer }.

Definition withDom (d : list WindowEl) (s : OS) : OS :=
  mkOS d (overlays s) (activeWindows s) (windowZIndex s)
       (windowLayerOrder s) (recentlyClosedWindows s) (timers s).

(** The constructor: nothing open, empty layer order. *)
Definition initial (page : list WindowEl) : OS :=
  mkOS page [] ∅ 1000 [] ∅ [].

(** ** Layers *)

Definition baseZIndex : Z := 100000.
Definition zStep : Z := 10.

(** [document.querySelector('.rename-popup, .delete-popup,
    .remove-note-popup')]. *)
Definition existingPopup (s : OS) : option OverlayClass :=
  find isPopup (overlays s).

(** [document.querySelectorAll('.window.active, ...')], in document
    order, each element with its position. *)
Definition allWindows (d : list WindowEl) : list (nat * WindowEl) :=
  filter (λ p, cls_active p.2 = true) (imap pair d).

(** [windowMap]: filled by [forEach] with [Map.set], so a later element
    with the same id replaces an earlier one. *)
Definition buildWindowMap (ws : list (nat * WindowEl)) : gmap string nat :=
  foldl (λ m p, <[getWindowId p.2 := p.1]> m) ∅ ws.

(** "Add any new windows that aren't in the layer order yet". *)
Definition addNewWindows (ws : list (nat * WindowEl))
    (order : list string) : list string :=
  foldl (λ ord p, if decide (getWindowId p.2 ∈ ord) then ord
                  else ord ++ [getWindowId p.2]) order ws.

(** "Apply z-indices based on layer order":
    [windowLayerOrder.forEach((windowId, index) => ...)]. *)
Fixpoint applyZIndices (windowMap : gmap string nat) (index : nat)
    (order : list string) (d : list WindowEl) : list WindowEl :=
  match order with
  | [] => d
  | windowId :: rest =>
      let d' :=
        match windowMap !! windowId with
        | Some w =>
            alter (setZIndex (baseZIndex + Z.of_nat index * 10)) w d
        | None => d
        end in
      applyZIndices windowMap (S index) rest d'
  end.

Definition recalculateWindowLayers (s : OS) : OS :=
  match existingPopup s with
  | Some _ => s
  | None =>
      let ws := allWindows (dom s) in
      let windowMap := buildWindowMap ws in
      let kept :=
        filter (λ windowId, is_Some (windowMap !! windowId))
               (windowLayerOrder s) in
      let order := addNewWindows ws kept in
      mkOS (applyZIndices windowMap 0 order (dom s))
           (overlays s) (activeWindows s)
           (baseZIndex + Z.of_nat (length order) * 10)
           order (recentlyClosedWindows s) (timers s)
  end.

(** [Array.prototype.indexOf] and [splice(index, 1)]. *)
Definition indexOf (windowId : string) (order : list string) : option nat :=
  fst <$> list_find (λ x, x = windowId) order.

Definition removeFromLayerOrder (windowId : string)
    (order : list string) : list string :=
  match indexOf windowId order with
  | Some layerIndex => delete layerIndex order
  | None => order
  end.

(** [bringWindowToFront(targetWindow, isDuringDrag)]; a position outside
    the page stands for a null [targetWindow].  [isDuringDrag] only
    decides whether the element receives input focus. *)
Definition bringWindowToFront (targetWindow : nat) (isDuringDrag : bool)
    (s : OS) : OS :=
  match dom s !! targetWindow with
  | None => s
  | Some el =>
      let windowId := getWindowId el in
      let s1 :=
        recalculateWindowLayers
          (mkOS (alter addActive targetWindow (dom s))
                (overlays s) (activeWindows s) (windowZIndex s)
                (removeFromLayerOrder windowId (windowLayerOrder s)
                   ++ [windowId])
                (recentlyClosedWindows s) (timers s)) in
      let others :=
        imap (λ i win, if cls_active win
                       then (if decide (i = targetWindow) then win
                             else removeFocused win)
                       else win) (dom s1) in
      withDom (alter addFocused targetWindow others) s1
  end.

(** [focusWindow(window)]. *)
Definition focusWindow (window : nat) (s : OS) : OS :=
  match dom s !! window with
  | None => s
  | Some el =>
      let appName := data_window el in
      if decide (appName ∈ recentlyClosedWindows s) then s
      else
        let s1 := bringWindowToFront window false s in
        let unfocused :=
          (λ w, if cls_active w then removeFocused w else w) <$> dom s1 in
        withDom (alter addFocused window unfocused) s1
  end.

(** [document.querySelector(`[data-window="${appName}"]`)]: the first
    element in document order. *)
Definition queryDataWindow (appName : string)
    (d : list WindowEl) : option nat :=
  fst <$> list_find (λ w, data_window w = appName) d.

(** [openWindow(appName)]. *)
Definition openWindow (appName : string) (s : OS) : OS :=
  match queryDataWindow appName (dom s) with
  | None => s
  | Some window =>
      if decide (appName ∈ recentlyClosedWindows s) then s
      else if decide (appName ∈ activeWindows s) then focusWindow window s
      else
        focusWindow window
          (mkOS (alter addActive window (dom s))
                (overlays s) ({[appName]} ∪ activeWindows s)
                (windowZIndex s) (windowLayerOrder s)
                (recentlyClosedWindows s) (timers s))
  end.

(** [closeWindow(window)]; the 200ms callback is left pending. *)
Definition closeWindow (window : nat) (s : OS) : OS :=
  match dom s !! window with
  | None => s
  | Some el =>
      let appName := data_window el in
      let windowId := getWindowId el in
      let s1 :=
        recalculateWindowLayers
          (mkOS (alter removeActive window (dom s))
                (overlays s) (activeWindows s ∖ {[appName]})
                (windowZIndex s)
                (removeFromLayerOrder windowId (windowLayerOrder s))
                (recentlyClosedWindows s) (timers s)) in
      mkOS (dom s1) (overlays s1) (activeWindows s1) (windowZIndex s1)
           (windowLayerOrder s1)
           ({[appName]} ∪ recentlyClosedWindows s1)
           (timers s1 ++ [RemoveRecentlyClosed appName])
  end.

(** [minimizeWindow(window)]: only starts the animation and leaves the
    400ms callback pending. *)
Definition minimizeWindow (window : nat) (s : OS) : OS :=
  match dom s !! window with
  | None => s
  | Some _ =>
      mkOS (dom s) (overlays s) (activeWindows s) (windowZIndex s)
           (windowLayerOrder s) (recentlyClosedWindows s)
           (timers s ++ [FinishMinimize window])
  end.

(** The bodies of the two callbacks. *)
Definition runTimer (t : Timer) (s : OS) : OS :=
  match t with
  | RemoveRecentlyClosed appName =>
      mkOS (dom s) (overlays s) (activeWindows s) (windowZIndex s)
           (windowLayerOrder s) (recentlyClosedWindows s ∖ {[appName]})
           (timers s)
  | FinishMinimize window =>
      match dom s !! window with
      | None => s
      | Some el =>
          mkOS (alter removeActive window (dom s)) (overlays s)
               (activeWindows s ∖ {[data_window el]}) (windowZIndex s)
               (windowLayerOrder s) (recentlyClosedWindows s) (timers s)
      end
  end.

(** The [n]-th pending callback runs and leaves the pending list. *)
Definition timerFires (n : nat) (s : OS) : OS :=
  match timers s !! n with
  | None => s
  | Some t =>
      runTimer t
        (mkOS (dom s) (overlays s) (activeWindows s) (windowZIndex s)
              (windowLayerOrder s) (recentlyClosedWindows s)
              (delete n (timers s)))
  end.

(** ** Events *)

(** What can happen between two states: the calls the handlers make, a
    pending callback running, an overlay appearing or going away, and
    the temporary z-index a header drag gives its window. *)
Inductive Event : Type :=
  | EOpen (appName : string)
  | EClose (window : nat)
  | EMinimize (window : nat)
  | EFocus (window : nat)
  | EBringToFront (window : nat) (isDuringDrag : bool)
  | ETimer (n : nat)
  | EShowOverlay (c : OverlayClass)
  | EHideOverlay (n : nat)
  | EDragZIndex (window : nat).

Definition step (s : OS) (e : Event) : OS :=
  match e with
  | EOpen appName => openWindow appName s
  | EClose window => closeWindow window s
  | EMinimize window => minimizeWindow window s
  | EFocus window => focusWindow window s
  | EBringToFront window isDuringDrag =>
      bringWindowToFront window isDuringDrag s
  | ETimer n => timerFires n s
  | EShowOverlay c =>
      mkOS (dom s) (overlays s ++ [c]) (activeWindows s) (windowZIndex s)
           (windowLayerOrder s) (recentlyClosedWindows s) (timers s)
  | EHideOverlay n =>
      mkOS (dom s) (delete n (overlays s)) (activeWindows s)
           (windowZIndex s) (windowLayerOrder s) (recentlyClosedWindows s)
           (timers s)
  | EDragZIndex window =>
      withDom (alter (setZIndex 10000) window (dom s)) s
  end.

Definition run (s : OS) (events : list Event) : OS := foldl step s events.

(** A page as it is loaded: window ids are pairwise distinct and no
    window carries the [active] class yet. *)
Definition wellFormedPage (page : list WindowEl) : Prop :=
  NoDup (getWindowId <$> page) ∧ Forall (λ w, cls_active w = false) page.

Definition reachable (s : OS) : Prop :=
  ∃ page events, wellFormedPage page ∧ s = run (initial page) events.

(** The z-index the [forEach] of [recalculateWindowLayers] leaves on the
    element at position [w]: the one of the last entry of the order whose
    id the window map sends to [w], if there is one. *)
Fixpoint assignedZ (windowMap : gmap string nat) (index : nat)
    (order : list string) (w : nat) : option Z :=
  match order with
  | [] => None
  | windowId :: rest =>
      match assignedZ windowMap (S index) rest w with
      | Some z => Some z
      | None =>
          if decide (windowMap !! windowId = Some w)
          then Some (baseZIndex + Z.of_nat index * 10)%Z
          else None
      end
  end.

(** [getWindowId] and the [active] class, read from [visibility]. *)
Definition idOfAttributes (a : string * string) : string :=
  if decide (a.1 ≠ "") then a.1 else a.2.

Definition shownAs (v : string * string * bool) : option string :=
  if v.2 then Some (idOfAttributes v.1) else None.

(** The focus classes after [bringWindowToFront(targetWindow)]: the
    target is focused, every other shown window is not. *)
Definition focusAt (targetWindow i : nat) (win : WindowEl) : WindowEl :=
  if decide (i = targetWindow) then addFocused win
  else if cls_active win then removeFocused win
  else win.

Definition withZ (z : option Z) : WindowEl → WindowEl :=
  match z with Some z => setZIndex z | None => id end.

(** What never changes about an element. *)
Definition attributes (w : WindowEl) : string * string :=
  (el_id w, data_window w).

(** What decides whether and under which id an element is shown. *)
Definition visibility (w : WindowEl) : string * string * bool :=
  (el_id w, data_window w, cls_active w).

(** Everything but the inline z-index. *)
Definition classes (w : WindowEl) : string * string * bool * bool :=
  (el_id w, data_window w, cls_active w, cls_focused w).

(** The states [bringWindowToFront] and [closeWindow] hand to
    [recalculateWindowLayers]. *)
Definition bringToFrontInput (targetWindow : nat) (el : WindowEl)
    (s : OS) : OS :=
  mkOS (alter addActive targetWindow (dom s))
       (overlays s) (activeWindows s) (windowZIndex s)
       (removeFromLayerOrder (getWindowId el) (windowLayerOrder s)
          ++ [getWindowId el])
       (recentlyClosedWindows s) (timers s).

Definition closeInput (window : nat) (el : WindowEl) (s : OS) : OS :=
  mkOS (alter removeActive window (dom s))
       (overlays s) (activeWindows s ∖ {[data_window el]})
       (windowZIndex s)
       (removeFromLayerOrder (getWindowId el) (windowLayerOrder s))
       (recentlyClosedWindows s) (timers s).

(** ** Observations *)

(** The ids of the windows currently shown, in document order. *)
Definition shownIds (d : list WindowEl) : list string :=
  (λ p, getWindowId p.2) <$> allWindows d.

Definition visibleIds (s : OS) : list string := shownIds (dom s).

(** The inline z-index of the window with a given id. *)
Definition zIndexIn (d : list WindowEl) (windowId : string) : option Z :=
  match list_find (λ w, getWindowId w = windowId) d with
  | Some (_, w) => style_zIndex w
  | None => None
  end.

Definition zIndexOf (s : OS) (windowId : string) : option Z :=
  zIndexIn (dom s) windowId.

Definition isFocused (s : OS) (window : nat) : bool :=
  from_option cls_focused false (dom s !! window).

Definition isActive (s : OS) (window : nat) : bool :=
  from_option cls_active false (dom s !! window).

(** The layer order has no id twice, the ids of the page are pairwise
    distinct, and every shown window is in the layer order. *)
Definition consistent (s : OS) : Prop :=
  NoDup (getWindowId <$> dom s)
  ∧ NoDup (windowLayerOrder s)
  ∧ ∀ windowId, windowId ∈ visibleIds s → windowId ∈ windowLayerOrder s.

(** The z-indices follow the layer order: the window at position [i]
    has z-index [baseZIndex + i * zStep], so a later position has the
    greater one; and no two shown windows have the same z-index. *)
Definition layersMonotoneIn (d : list WindowEl) (order : list string) : Prop :=
  (∀ i j a b,
     i < j → order !! i = Some a → order !! j = Some b →
     ∃ za zb,
       zIndexIn d a = Some za ∧ zIndexIn d b = Some zb
       ∧ za = (baseZIndex + Z.of_nat i * zStep)%Z
       ∧ zb = (baseZIndex + Z.of_nat j * zStep)%Z
       ∧ (za < zb)%Z)
  ∧ (∀ w1 w2 e1 e2,
       w1 ≠ w2 → d !! w1 = Some e1 → d !! w2 = Some e2 →
       cls_active e1 = true → cls_active e2 = true →
       ∃ z1 z2, style_zIndex e1 = Some z1 ∧ style_zIndex e2 = Some z2
                ∧ z1 ≠ z2).

Definition layersMonotone (s : OS) : Prop :=
  layersMonotoneIn (dom s) (windowLayerOrder s).

(** What the stacking of an element is read from. *)
Definition layer (w : WindowEl) : string * string * bool * option Z :=
  (el_id w, data_window w, cls_active w, style_zIndex w).

(** Whether handling [e] in [s] gets to [recalculateWindowLayers] and
    past its popup guard. *)
Definition recalculates (s : OS) (e : Event) : bool :=
  match existingPopup s with
  | Some _ => false
  | None =>
      match e with
      | EBringToFront window _ | EClose window =>
          bool_decide (is_Some (dom s !! window))
      | EFocus window =>
          match dom s !! window with
          | Some el => bool_decide (data_window el ∉ recentlyClosedWindows s)
          | None => false
          end
      | EOpen appName =>
          bool_decide (is_Some (queryDataWindow appName (dom s)))
          && bool_decide (appName ∉ recentlyClosedWindows s)
      | _ => false
      end
  end.


(** What a successful open or focus of [window] leaves: the window is
    shown, is the one focused window, and is the last entry of the
    layer order. *)
Definition raised (window : nat) (s : OS) : Prop :=
  isActive s window = true
  ∧ isFocused s window = true
  ∧ (∀ other, other ≠ window → isActive s other = true →
              isFocused s other = false)
  ∧ ∃ el, dom s !! window = Some el
          ∧ last (windowLayerOrder s) = Some (getWindowId el).

(** How often an id occurs in the layer order. *)
Definition occurrences (windowId : string) (order : list string) : nat :=
  length (filter (λ x, x = windowId) order).

(** A page with three application windows, one of which has an [id]
    attribute. *)
Definition samplePage : list WindowEl :=
  [ mkEl "" "about" false false None;
    mkEl "" "projects" false false None;
    mkEl "note-editor-window" "note-editor" false false None ].

End WindowManager.

(* ===================================================================== *)
(** * Sticky notes                                                        *)
(* ===================================================================== *)

Module StickyNotes.
Local Open Scope Z_scope.

(** One record of the array stored under ['sticky-notes'].  Properties a
    record may lack are options: [saveAsSticky] writes neither
    [lastUpdated] nor [pinned], and notes of older versions have no
    [timestamp]. *)
Record Note : Type := mkNote
  { note_id : Z;
    note_type : option string;
    content : string;
    textContent : string;
    date : string;
    lastUpdated : option string;
    timestamp : option Z;
    pinned : option bool }.

(** Truthiness of a number, and of the two optional properties. *)
Definition truthy (z : Z) : bool := negb (z =? 0).

Definition hasTimestamp (note : Note) : bool :=
  match timestamp note with Some t => truthy t | None => false end.

Definition isPinned (note : Note) : bool :=
  match pinned note with Some b => b | None => false end.

(** "Ensure all notes have timestamps": the [forEach] that assigns
    [note.timestamp = note.id || Date.now()] in place.  [now] is the
    reading of the clock. *)
Definition ensureTimestamp (now : Z) (note : Note) : Note :=
  if hasTimestamp note then note
  else
    mkNote (note_id note) (note_type note) (content note) (textContent note)
           (date note) (lastUpdated note)
           (Some (if truthy (note_id note) then note_id note else now))
           (pinned note).

(** [a.timestamp || a.id || 0]. *)
Definition timestampOf (a : Note) : Z :=
  if hasTimestamp a then default 0 (timestamp a)
  else if truthy (note_id a) then note_id a
  else 0.

(** The comparator handed to [sort]: [timestampB - timestampA]. *)
Definition compareNotes (a b : Note) : Z := timestampOf b - timestampOf a.

(** [Array.prototype.sort] is stable, so with a comparator induced by a
    key its result is the one of any stable sort; insertion from the
    right is one.  [a] goes in front of the first [b] it may stay in
    front of ([compare a b <= 0]). *)
Fixpoint insertSorted (compare : Note → Note → Z) (a : Note)
    (sorted : list Note) : list Note :=
  match sorted with
  | [] => [a]
  | b :: rest =>
      if decide (compare a b ≤ 0) then a :: b :: rest
      else b :: insertSorted compare a rest
  end.

Definition sort (compare : Note → Note → Z) (notes : list Note) : list Note :=
  foldr (insertSorted compare) [] notes.

(** What [loadStickyNotes] computes from the parsed array: the two
    groups it renders and the array it writes back. *)
Record Loaded : Type := mkLoaded
  { pinnedNotes : list Note;
    regularNotes : list Note;
    saved : list Note }.

Definition loadStickyNotes (now : Z) (stickyNotes : list Note) : Loaded :=
  let stamped := ensureTimestamp now <$> stickyNotes in
  let notes := filter (λ item, note_type item ≠ Some "folder") stamped in
  let pinnedNotes :=
    sort compareNotes (filter (λ note, isPinned note = true) notes) in
  let regularNotes :=
    sort compareNotes (filter (λ note, isPinned note = false) notes) in
  mkLoaded pinnedNotes regularNotes (pinnedNotes ++ regularNotes).

Section AutoSave.

(** [extractTextContent] turns markup into plain text with regular
    expressions; nothing here depends on what it returns. *)
Variable extractTextContent : string → string.

(** The record [autoSaveNote] leaves at [stickyNotes[noteIndex]]. *)
Definition updateNote (newContent today : string) (isPinnedNow : bool)
    (note : Note) : Note :=
  mkNote (note_id note) (note_type note) newContent
         (extractTextContent newContent) (date note) (Some today)
         (timestamp note) (Some isPinnedNow).

(** [autoSaveNote(noteWindow)], from the parsed array to the array it
    stores.  [noteData] is the id of the note the window edits, if any;
    [isPinnedNow] is [noteWindow.isPinned || false]; [idNow] and
    [stampNow] are the two readings of [Date.now()] for a new note.
    [None]: the early return, nothing is stored. *)
Definition autoSaveNote (noteData : option Z) (newContent today : string)
    (isPinnedNow : bool) (idNow stampNow : Z)
    (stickyNotes : list Note) : option (list Note) :=
  match noteData with
  | Some noteId =>
      match list_find (λ n, note_id n = noteId) stickyNotes with
      | Some (noteIndex, _) =>
          Some (alter (updateNote newContent today isPinnedNow)
                      noteIndex stickyNotes)
      | None => Some stickyNotes
      end
  | None =>
      if decide (newContent = "") then None
      else
        Some (stickyNotes ++
              [mkNote idNow (Some "note") newContent
                      (extractTextContent newContent) today (Some today)
                      (Some stampNow) (Some isPinnedNow)])
  end.

(** [togglePinNoteWindow] on the window of a stored note whose pin is
    being set: [autoSaveNote] stores the pin, and the refresh of the
    notebook view ([loadStickyNotes]) writes the regrouped array back.
    [newContent] is what the editor of the window holds; [now] is the
    clock at the refresh. *)
Definition pinNote (noteId : Z) (newContent today : string) (now : Z)
    (stickyNotes : list Note) : list Note :=
  match autoSaveNote (Some noteId) newContent today true 0 0 stickyNotes with
  | Some stored => saved (loadStickyNotes now stored)
  | None => stickyNotes
  end.

End AutoSave.

(** [x] stands somewhere in front of [y] in [l]. *)
Definition precedes (x y : Note) (l : list Note) : Prop :=
  ∃ l1 l2 l3, l = l1 ++ x :: l2 ++ y :: l3.

(** [a] may stay in front of [b]: its timestamp is not the smaller. *)
Definition notOlder (a b : Note) : Prop := timestampOf b ≤ timestampOf a.

(** What [loadStickyNotes] sorts and groups by, apart from the flag. *)
Definition identity (n : Note) : Z * option string * option Z :=
  (note_id n, note_type n, timestamp n).

(** The array holds a note, not a folder, with id [t] and timestamp
    [ts]; it is pinned if [mustBePinned]. *)
Definition holdsNote (t ts : Z) (mustBePinned : bool)
    (stickyNotes : list Note) : Prop :=
  ∃ m, m ∈ stickyNotes ∧ note_id m = t ∧ timestamp m = Some ts
       ∧ note_type m ≠ Some "folder"
       ∧ (mustBePinned = true → isPinned m = true).

(** Three stored notes: two pinned ones and one that is not. *)
Definition olderNote : Note :=
  mkNote 1700000000000 (Some "note") "<div>groceries</div>" "groceries"
         "11/14/2023" (Some "11/20/2023") (Some 1700000000000) (Some true).
Definition newerNote : Note :=
  mkNote 1700000005000 (Some "note") "<div>call mom</div>" "call mom"
         "11/14/2023" None (Some 1700000005000) (Some true).
Definition unpinnedNote : Note :=
  mkNote 1700000002000 (Some "note") "<div>draft</div>" "draft"
         "11/14/2023" None (Some 1700000002000) None.

End StickyNotes.

(* ===================================================================== *)
(** * Mood tracker persistence                                            *)
(* ===================================================================== *)

Module MoodTracker.

(** ** Values, exceptions, storage *)

#[warnings="-register-all"] Inductive JSValue : Type :=
  | JNull
  | JBool (b : bool)
  | JNumber (z : Z)
  | JString (s : string)
  | JArray (items : list JSValue)
  | JObject (properties : gmap string JSValue).

Inductive Exn : Type :=
  | SyntaxError          (* JSON.parse on malformed text *)
  | TypeError            (* property assignment on null *)
  | QuotaExceededError.  (* localStorage.setItem *)

(** How a call ends: with a value or with an exception. *)
Inductive Completion (A : Type) : Type :=
  | Returns (a : A)
  | Throws (e : Exn).
Arguments Returns {A} a.
Arguments Throws {A} e.

#[export] Instance Completion_ret : MRet Completion := λ A a, Returns a.
#[export] Instance Completion_bind : MBind Completion := λ A B k c,
  match c with
  | Returns a => k a
  | Throws e => Throws e
  end.

(** [try { body } catch (error) { handler }]. *)
Definition tryCatch {A : Type} (body : Completion A)
    (handler : Exn → Completion A) : Completion A :=
  match body with
  | Returns a => Returns a
  | Throws e => handler e
  end.

(** [localStorage]: its items, and how many characters it may hold. *)
Record Storage : Type := mkStorage
  { items : gmap string string;
    quota : nat }.

Definition usage (m : gmap string string) : nat :=
  map_fold (λ k v acc, String.length k + String.length v + acc)%nat 0%nat m.

Definition getItem (key : string) (st : Storage) : option string :=
  items st !! key.

Definition setItem (key value : string) (st : Storage) : Completion Storage :=
  let items' := <[key := value]> (items st) in
  if decide (usage items' ≤ quota st)%nat
  then Returns (mkStorage items' (quota st))
  else Throws QuotaExceededError.

(** [new Date()], as far as the date key reads it; [month] is
    [getMonth()], counted from zero. *)
Record Date : Type := mkDate
  { fullYear : Z;
    month : nat;
    dayOfMonth : nat }.

(** [`${today.getFullYear()}-${today.getMonth() + 1}-${today.getDate()}`] *)
Definition dateKey (today : Date) : string :=
  pretty (fullYear today) +:+ "-" +:+ pretty (month today + 1)%nat
    +:+ "-" +:+ pretty (dayOfMonth today).

(** [target[key] = value]: a [TypeError] on [null]; on an object the
    property is set; on an array the key is no index, so the elements,
    which are all [JSON.stringify] looks at, stay as they are; on a
    primitive the assignment is dropped in sloppy mode and a [TypeError]
    in strict mode. *)
Definition setProperty (strictMode : bool) (target : JSValue)
    (key : string) (value : JSValue) : Completion JSValue :=
  match target with
  | JNull => Throws TypeError
  | JObject properties => Returns (JObject (<[key := value]> properties))
  | JArray elems => Returns (JArray elems)
  | JBool _ | JNumber _ | JString _ =>
      if strictMode then Throws TypeError else Returns target
  end.

Section MoodData.

(** The two JSON built-ins.  [JSON_parse] is [None] where [JSON.parse]
    throws a [SyntaxError]. *)
Variable JSON_parse : string → option JSValue.
Variable JSON_stringify : JSValue → string.
Variable strictMode : bool.

Definition parse (text : string) : Completion JSValue :=
  match JSON_parse text with
  | Some v => Returns v
  | None => Throws SyntaxError
  end.

(** [PortfolioOS.prototype.getMoodData]. *)
Definition getMoodData (st : Storage) : Completion JSValue :=
  tryCatch
    (match getItem "moodTrackerData" st with
     | Some data =>
         if decide (data = "") then Returns (JObject ∅) else parse data
     | None => Returns (JObject ∅)
     end)
    (λ error, Returns (JObject ∅)).

(** [PortfolioOS.prototype.saveTodaysMood]: the storage it leaves. *)
Definition saveTodaysMood (today : Date) (moodIndex : Z)
    (st : Storage) : Completion Storage :=
  tryCatch
    (moodData ← getMoodData st;
     moodData' ← setProperty strictMode moodData (dateKey today)
                             (JNumber moodIndex);
     setItem "moodTrackerData" (JSON_stringify moodData') st)
    (λ error, Returns st).

End MoodData.

(** ** A codec for mood mappings

    The text [saveTodaysMood] persists is a flat object from date keys
    to mood indices.  This printer and parser cover that fragment of
    JSON; they serve as a concrete instance of the two built-ins. *)

Definition quoteChar : ascii := ascii_of_nat 34.

Definition stringifyEntry (entry : string * JSValue) : string :=
  String quoteChar entry.1 +:+ String quoteChar ":" +:+
  match entry.2 with JNumber z => pretty z | _ => "null" end.

Definition flatStringify (v : JSValue) : string :=
  match v with
  | JObject properties =>
      "{" +:+ String.concat "," (stringifyEntry <$> map_to_list properties) +:+ "}"
  | JNumber z => pretty z
  | _ => "null"
  end.

(** Characters up to the closing quote, and what follows it. *)
Fixpoint readKey (text : string) : option (string * string) :=
  match text with
  | EmptyString => None
  | String c rest =>
      if decide (c = quoteChar) then Some (EmptyString, rest)
      else '(key, rest') ← readKey rest; Some (String c key, rest')
  end.

Definition digitValue (c : ascii) : option Z :=
  let n := nat_of_ascii c in
  if decide (48 ≤ n ∧ n ≤ 57)%nat then Some (Z.of_nat (n - 48)) else None.

(** A non-empty run of decimal digits, and what follows it. *)
Fixpoint readDigits (acc : option Z) (text : string) : option (Z * string) :=
  match text with
  | String c rest =>
      match digitValue c with
      | Some d => readDigits (Some (default 0%Z acc * 10 + d)%Z) rest
      | None => z ← acc; Some (z, text)
      end
  | EmptyString => z ← acc; Some (z, text)
  end.

Definition readNumber (text : string) : option (Z * string) :=
  match text with
  | String "-" rest => '(z, rest') ← readDigits None rest; Some ((- z)%Z, rest')
  | _ => readDigits None text
  end.

(** The entries after the opening brace; [fuel] bounds their number. *)
Fixpoint readEntries (fuel : nat) (properties : gmap string JSValue)
    (text : string) : option JSValue :=
  match fuel with
  | O => None
  | S fuel' =>
      match text with
      | String c rest =>
          if decide (c = quoteChar) then
            '(key, afterKey) ← readKey rest;
            match afterKey with
            | String ":" afterColon =>
                '(z, afterNumber) ← readNumber afterColon;
                let properties' := <[key := JNumber z]> properties in
                match afterNumber with
                | "}" => Some (JObject properties')
                | String "," more => readEntries fuel' properties' more
                | _ => None
                end
            | _ => None
            end
          else None
      | EmptyString => None
      end
  end.

Definition flatParse (text : string) : option JSValue :=
  match text with
  | "{}" => Some (JObject ∅)
  | String "{" rest => readEntries (String.length text) ∅ rest
  | _ => None
  end.

(** The storage of a user who recorded one mood the day before. *)
Definition yesterdayOnly : gmap string JSValue := {["2025-1-4" := JNumber 2]}.

Definition sampleStorage : Storage :=
  mkStorage {["moodTrackerData" := flatStringify (JObject yesterdayOnly)]}
            4096.

(** The persisted value is a mapping. *)
Definition moodEntries (v : JSValue) : option (gmap string JSValue) :=
  match v with
  | JObject properties => Some properties
  | _ => None
  end.

End MoodTracker.

(* ===================================================================== *)
(** * Gestures: what moves and what stays                                 *)
(* ===================================================================== *)

Module Gestures.
Import Geometry.
Local Open Scope Z_scope.

(** The closure state a drag session ends a list of events with. *)
Definition dragSession (start : Rect) (startX startY : Z)
    (events : list DragEvent) : DragSession :=
  foldl (dragStep start startX startY) (dragStart start) events.

(** The pointer is within the three pixels of [startX], [startY] that
    do not start a drag. *)
Definition withinJitter (startX startY : Z) (e : DragEvent) : Prop :=
  match e with
  | MouseMove clientX clientY =>
      Z.abs (clientX - startX) ≤ 3 ∧ Z.abs (clientY - startY) ≤ 3
  | AnimationFrame => True
  end.

(** Handles on the west and on the north side. *)
Definition hasWest (handleClass : HandleClass) : bool :=
  match handleClass with
  | resize_handle_w | resize_handle_nw | resize_handle_sw => true
  | _ => false
  end.

Definition hasNorth (handleClass : HandleClass) : bool :=
  match handleClass with
  | resize_handle_n | resize_handle_ne | resize_handle_nw => true
  | _ => false
  end.

Definition right (g : Rect) : Z := r_left g + r_width g.
Definition bottom (g : Rect) : Z := r_top g + r_height g.

End Gestures.

(* ===================================================================== *)
(** * Closing every window, and what the layers hold                      *)
(* ===================================================================== *)

Module WindowCommands.
Import WindowManager.



(** At most one shown window carries the class [focused]. *)
Definition singleFocus (s : OS) : Prop :=
  ∀ w1 w2,
    isActive s w1 = true → isFocused s w1 = true →
    isActive s w2 = true → isFocused s w2 = true → w1 = w2.

(** The layer order lists the shown windows and nothing else, and the
    counter stands one step above the last of them. *)
Definition exact (s : OS) : Prop :=
  (∀ windowId, windowId ∈ windowLayerOrder s ↔ windowId ∈ visibleIds s)
  ∧ windowZIndex s
    = (baseZIndex + Z.of_nat (length (windowLayerOrder s)) * zStep)%Z.

End WindowCommands.

(* ===================================================================== *)
(** * The notebook's storage operations                                   *)
(* ===================================================================== *)

Module Notebook.
Import StickyNotes.
Local Open Scope Z_scope.

(** [removeStickyNote(noteId)], from the parsed array to the array in
    storage afterwards: when a note was removed the remaining ones are
    stored and the refresh ([loadStickyNotes], at clock reading [now])
    writes them back regrouped; otherwise nothing is written. *)
Definition removeStickyNote (noteId now : Z) (stickyNotes : list Note)
    : list Note :=
  let remaining := filter (λ note, note_id note ≠ noteId) stickyNotes in
  if decide (length remaining < length stickyNotes)%nat
  then saved (loadStickyNotes now remaining)
  else stickyNotes.

Section Windows.

Variable extractTextContent : string → string.



(** [closeNoteWindow(noteWindow)], as far as storage goes: the final
    [autoSaveNote], whose last step is the refresh at clock reading
    [now]. *)
Definition closeNoteWindow (noteData : option Z) (newContent today : string)
    (isPinnedNow : bool) (idNow stampNow now : Z)
    (stickyNotes : list Note) : list Note :=
  match autoSaveNote extractTextContent noteData newContent today
          isPinnedNow idNow stampNow stickyNotes with
  | Some stored => saved (loadStickyNotes now stored)
  | None => stickyNotes
  end.

(** [deleteNoteWindow(noteWindow)]: for a window that edits a stored
    note, [removeStickyNote] and then [closeNoteWindow]. *)
Definition deleteNoteWindow (noteData : option Z) (newContent today : string)
    (isPinnedNow : bool) (idNow stampNow removeNow closeNow : Z)
    (stickyNotes : list Note) : list Note :=
  match noteData with
  | Some noteId =>
      closeNoteWindow (Some noteId) newContent today isPinnedNow idNow
        stampNow closeNow (removeStickyNote noteId removeNow stickyNotes)
  | None =>
      closeNoteWindow None newContent today isPinnedNow idNow stampNow
        closeNow stickyNotes
  end.

End Windows.

(** [stickyNotes[noteIndex].pinned = value]. *)
Definition setPinned (value : bool) (n : Note) : Note :=
  mkNote (note_id n) (note_type n) (content n) (textContent n) (date n)
         (lastUpdated n) (timestamp n) (Some value).

(** [toggleStickyNotePin(note, stickyElement)]: [note] is the object of
    the list the click came from, whose [pinned] the function negates
    first.  The result is the new value of [note.pinned] and what the
    refresh, at clock reading [now], shows and stores. *)
Definition toggleStickyNotePin (note : Note) (now : Z)
    (stickyNotes : list Note) : bool * Loaded :=
  let notePinned := negb (isPinned note) in
  let stored :=
    match list_find (λ n, note_id n = note_id note) stickyNotes with
    | Some (noteIndex, n) =>
        <[noteIndex := setPinned notePinned n]> stickyNotes
    | None => stickyNotes
    end in
  (notePinned, loadStickyNotes now stored).

(** Everything a record holds but its timestamp. *)
Definition unstamped (n : Note)
    : Z * option string * string * string * string * option string
      * option bool :=
  (note_id n, note_type n, content n, textContent n, date n, lastUpdated n,
   pinned n).

Definition isFolder (n : Note) : Prop := note_type n = Some "folder".

(** A stored folder record, as older versions wrote them. *)
Definition folderItem : Note :=
  mkNote 1700000001000 (Some "folder") "" "" "11/14/2023" None None None.

End Notebook.

(* ===================================================================== *)
(** * The mood tracker's readers                                          *)
(* ===================================================================== *)

Module MoodReaders.
Import MoodTracker.

(** [moodData[dateKey]] for a date key, which is neither an array index
    nor the name of a built-in property: a [TypeError] on [null], the
    property of an object if it has it, [undefined] ([None]) in every
    other case. *)
Definition readDateKey (moodData : JSValue) (key : string)
    : Completion (option JSValue) :=
  match moodData with
  | JNull => Throws TypeError
  | JObject properties => Returns (properties !! key)
  | _ => Returns None
  end.

(** [index === todayMood]. *)
Definition isIndex (index : nat) (todayMood : JSValue) : bool :=
  match todayMood with
  | JNumber z => bool_decide (z = Z.of_nat index)
  | _ => false
  end.

(** [entry.date === dateStr], the callback [updateStreak] hands to
    [some]. *)
Definition entryHasDate (dateStr : string) (entry : JSValue)
    : Completion bool :=
  match entry with
  | JNull => Throws TypeError
  | JObject properties =>
      Returns match properties !! "date" with
              | Some (JString s) => bool_decide (s = dateStr)
              | _ => false
              end
  | _ => Returns false
  end.

(** [Array.prototype.some]. *)
Fixpoint some (callback : JSValue → Completion bool) (elements : list JSValue)
    : Completion bool :=
  match elements with
  | [] => Returns false
  | x :: rest =>
      found ← callback x;
      if found : bool then Returns true else some callback rest
  end.

(** [moodData.some(callback)]: only an array has the method; calling
    what any other value has under that name is a [TypeError]. *)
Definition callSome (moodData : JSValue)
    (callback : JSValue → Completion bool) : Completion bool :=
  match moodData with
  | JArray elements => some callback elements
  | _ => Throws TypeError
  end.

Section Readers.

Variable JSON_parse : string → option JSValue.

(** [loadMoodData()] on a page with [buttons] mood buttons: [None] when
    today has no entry and the buttons are left alone, else which
    buttons carry [selected] afterwards. *)
Definition loadMoodData (today : Date) (buttons : nat) (st : Storage)
    : Completion (option (list bool)) :=
  moodData ← getMoodData JSON_parse st;
  todayMood ← readDateKey moodData (dateKey today);
  Returns match todayMood with
          | Some mood => Some ((λ index, isIndex index mood) <$> seq 0 buttons)
          | None => None
          end.

(** The loop of [updateStreak]: [days] are the values of [i] still to
    come, [dateStr i] is the ISO date of the day [i] days before
    today. *)
Fixpoint countStreak (moodData : JSValue) (dateStr : nat → string)
    (days : list nat) (streak : nat) : Completion nat :=
  match days with
  | [] => Returns streak
  | i :: rest =>
      hasEntry ← callSome moodData (entryHasDate (dateStr i));
      if hasEntry : bool then countStreak moodData dateStr rest (S streak)
      else Returns streak
  end.

(** [updateStreak()]: [None] when the page has no streak counter, else
    the number it shows. *)
Definition updateStreak (streakCounter : bool) (dateStr : nat → string)
    (st : Storage) : Completion (option nat) :=
  if streakCounter then
    moodData ← getMoodData JSON_parse st;
    streak ← countStreak moodData dateStr (seq 0 30) 0;
    Returns (Some streak)
  else Returns None.

End Readers.

(** Whether a value is an array. *)
Definition isArray (v : JSValue) : bool :=
  match v with JArray _ => true | _ => false end.

End MoodReaders.

(* ===================================================================== *)
(** * The SVG asset cache                                                 *)
(* ===================================================================== *)

Module SvgCache.
Local Open Scope Z_scope.

(** A value of [svgCache]. *)
Record CacheEntry : Type := mkEntry
  { content : string;
    timestamp : Z;
    size : Z;
    accessCount : Z }.

Record CacheMetrics : Type := mkMetrics
  { hits : Z;
    misses : Z;
    errors : Z;
    totalSize : Z }.

(** [svgCache] is a [Map]: its entries are kept in insertion order,
    which is the order [Array.from(svgCache.entries())] and the
    [for ... of] of [cleanupResources] see. *)
Record Cache : Type := mkCache
  { svgCache : list (string * CacheEntry);
    cacheMetrics : CacheMetrics }.

Definition maxCacheSize : Z := 5 * 1024 * 1024.
Definition maxCacheAge : Z := 30 * 60 * 1000.

(** The constructor. *)
Definition empty : Cache := mkCache [] (mkMetrics 0 0 0 0).

(** [Map.prototype.get], [set] and [delete].  [set] on a key that is
    present replaces the value where it stands. *)
Fixpoint mapGet (key : string) (m : list (string * CacheEntry))
    : option CacheEntry :=
  match m with
  | [] => None
  | (k, v) :: rest => if decide (k = key) then Some v else mapGet key rest
  end.

Fixpoint mapSet (key : string) (value : CacheEntry)
    (m : list (string * CacheEntry)) : list (string * CacheEntry) :=
  match m with
  | [] => [(key, value)]
  | (k, v) :: rest =>
      if decide (k = key) then (k, value) :: rest
      else (k, v) :: mapSet key value rest
  end.

Definition mapDelete (key : string) (m : list (string * CacheEntry))
    : list (string * CacheEntry) :=
  filter (λ e, e.1 ≠ key) m.

(** [new Blob([content]).size]: the number of bytes of the text; a
    [string] holds the text as its bytes. *)
Definition blobSize (text : string) : Z := Z.of_nat (String.length text).

(** [entries.sort((a, b) => a[1].timestamp - b[1].timestamp)]: a stable
    sort, oldest first. *)
Fixpoint insertByAge (a : string * CacheEntry)
    (sorted : list (string * CacheEntry)) : list (string * CacheEntry) :=
  match sorted with
  | [] => [a]
  | b :: rest =>
      if decide (timestamp a.2 - timestamp b.2 ≤ 0) then a :: b :: rest
      else b :: insertByAge a rest
  end.

Definition sortByAge (entries : list (string * CacheEntry))
    : list (string * CacheEntry) :=
  foldr insertByAge [] entries.

(** [Math.ceil(entries.length * 0.25)]. *)
Definition toRemove (entries : nat) : nat := (entries + 3) / 4.

(** The entries the loop of [evictOldestCacheEntries] deletes. *)
Definition evicted (m : list (string * CacheEntry))
    : list (string * CacheEntry) :=
  take (toRemove (length m)) (sortByAge m).

(** [this.svgCache.delete(key); this.cacheMetrics.totalSize -= value.size],
    the body shared by the loops of [evictOldestCacheEntries] and
    [cleanupResources]. *)
Definition dropEntry (c : Cache) (e : string * CacheEntry) : Cache :=
  mkCache (mapDelete e.1 (svgCache c))
          (mkMetrics (hits (cacheMetrics c)) (misses (cacheMetrics c))
                     (errors (cacheMetrics c))
                     (totalSize (cacheMetrics c) - size e.2)).

(** [evictOldestCacheEntries()]. *)
Definition evictOldestCacheEntries (c : Cache) : Cache :=
  foldl dropEntry c (evicted (svgCache c)).

(** [cleanupResources()], its cache part: the loop over the entries
    drops each expired one. *)
Definition cleanupResources (now : Z) (c : Cache) : Cache :=
  foldl (λ c e, if decide (now - timestamp e.2 > maxCacheAge)
                then dropEntry c e else c)
        c (svgCache c).

(** [checkForMemoryLeaks()], its cache part.  [maxCacheSize * 0.9] is
    the number 4718592. *)
Definition checkForMemoryLeaks (c : Cache) : Cache :=
  if decide (totalSize (cacheMetrics c) > 4718592)
  then evictOldestCacheEntries c else c.

(** [cleanup()], its cache part: [svgCache.clear()]. *)
Definition cleanup (c : Cache) : Cache := mkCache [] (cacheMetrics c).

(** What happens to the cache.  ([logError] and [loadSVGFile] add to
    [cacheMetrics.errors], which none of these reads or writes.) *)
Inductive CacheEvent : Type :=
  | Lookup (now : Z) (assetPath : string)
  | Store (now : Z) (assetPath text : string)
  | LeakCheck
  | CleanupResources (now : Z)
  | Cleanup.

Definition isLookup (e : CacheEvent) : bool :=
  match e with Lookup _ _ => true | _ => false end.

Section Keys.

(** [String.prototype.toLowerCase]. *)
Variable toLowerCase : string → string.

(** [getCachedSVG(assetPath)] at clock reading [now]: what it returns
    ([None] for [null]) and the cache it leaves. *)
Definition getCachedSVG (now : Z) (assetPath : string) (c : Cache)
    : option string * Cache :=
  let cacheKey := toLowerCase assetPath in
  let m := cacheMetrics c in
  match mapGet cacheKey (svgCache c) with
  | None =>
      (None, mkCache (svgCache c)
                     (mkMetrics (hits m) (misses m + 1) (errors m) (totalSize m)))
  | Some cached =>
      if decide (now - timestamp cached > maxCacheAge) then
        (None, mkCache (mapDelete cacheKey (svgCache c))
                       (mkMetrics (hits m) (misses m + 1) (errors m)
                                  (totalSize m)))
      else
        (Some (content cached),
         mkCache (svgCache c)
                 (mkMetrics (hits m + 1) (misses m) (errors m) (totalSize m)))
  end.

(** [setCachedSVG(assetPath, content)] at clock reading [now]. *)
Definition setCachedSVG (now : Z) (assetPath text : string) (c : Cache)
    : Cache :=
  let cacheKey := toLowerCase assetPath in
  let size := blobSize text in
  let c1 :=
    if decide (totalSize (cacheMetrics c) + size > maxCacheSize)
    then evictOldestCacheEntries c else c in
  let m := cacheMetrics c1 in
  mkCache (mapSet cacheKey (mkEntry text now size 1) (svgCache c1))
          (mkMetrics (hits m) (misses m) (errors m) (totalSize m + size)).

Definition cacheStep (c : Cache) (e : CacheEvent) : Cache :=
  match e with
  | Lookup now assetPath => (getCachedSVG now assetPath c).2
  | Store now assetPath text => setCachedSVG now assetPath text c
  | LeakCheck => checkForMemoryLeaks c
  | CleanupResources now => cleanupResources now c
  | Cleanup => cleanup c
  end.

Definition cacheRun (c : Cache) (events : list CacheEvent) : Cache :=
  foldl cacheStep c events.

End Keys.

(** How many of the events are lookups. *)
Definition lookups (events : list CacheEvent) : nat :=
  length (filter (λ e, isLookup e = true) events).

(** Two asset paths and a small document, for the examples. *)
Definition hairPath : string := "Head/Hair1.SVG".
Definition hairPathLower : string := "head/hair1.svg".
Definition hairSvg : string := "<svg><circle r='4'/></svg>".

(** The bytes the cache holds. *)
Definition cachedBytes (m : list (string * CacheEntry)) : Z :=
  foldr (λ e acc, size e.2 + acc) 0 m.

Definition sizesOk (m : list (string * CacheEntry)) : Prop :=
  Forall (λ e, 0 ≤ size e.2) m.

(** What the operations keep: keys are not repeated, every entry
    carries the byte size of its content, and the total of the metrics
    is not below the bytes held. *)
Definition accounted (c : Cache) : Prop :=
  NoDup (svgCache c).*1
  ∧ Forall (λ e, size e.2 = blobSize (content e.2)) (svgCache c)
  ∧ cachedBytes (svgCache c) ≤ totalSize (cacheMetrics c).

(** [a] is not younger than [b]. *)
Definition notYounger (a b : string * CacheEntry) : Prop :=
  timestamp a.2 ≤ timestamp b.2.

(** Lower-casing of the letters A to Z, the other bytes unchanged. *)
Definition lowerAscii (c : ascii) : ascii :=
  let n := nat_of_ascii c in
  if decide (65 ≤ n ∧ n ≤ 90)%nat then ascii_of_nat (n + 32) else c.

Fixpoint lowerCaseAscii (s : string) : string :=
  match s with
  | EmptyString => EmptyString
  | String c rest => String (lowerAscii c) (lowerCaseAscii rest)
  end.

End SvgCache.

(* ===================================================================== *)
(** * Performance monitoring                                              *)
(* ===================================================================== *)

Module PerformanceLog.
Local Open Scope Z_scope.

(** An element of [performanceMetrics.errors]. *)
Record ErrorEntry : Type := mkErrorEntry
  { e_timestamp : Z;
    e_type : string;
    e_message : string;
    e_source : string;
    e_line : Z;
    e_stack : string }.

(** An element of [performanceMetrics.memoryUsage]. *)
Record MemorySample : Type := mkSample
  { m_timestamp : Z;
    m_used : Z;
    m_total : Z;
    m_limit : Z }.

(** The part of [PortfolioOS] the monitoring code works on.  The error
    counter lives in [cacheMetrics], next to the cache's own numbers. *)
Record Monitor : Type := mkMonitor
  { cache : SvgCache.Cache;
    errorLog : list ErrorEntry;
    memoryUsage : list MemorySample }.

Definition freshMonitor : Monitor := mkMonitor SvgCache.empty [] [].

(** What a caller hands to [logError] as [error]: [null], [undefined],
    or a value with the text its [toString()] gives and its [stack]
    property, if it has one. *)
Inductive Thrown : Type :=
  | ThrownNull
  | ThrownUndefined
  | ThrownValue (text : string) (stack : option string).

(** [error.stack || 'No stack trace']. *)
Definition stackOf (stack : option string) : string :=
  match stack with
  | Some s => if decide (s = "") then "No stack trace" else s
  | None => "No stack trace"
  end.

(** [Array.prototype.shift], as a statement. *)
Definition shift {A : Type} (l : list A) : list A := drop 1 l.

(** [logError(type, error, source, line)] at clock reading [now].
    [None]: [error.toString()] raised a [TypeError], before anything was
    changed. *)
Definition logError (now : Z) (type : string) (error : Thrown)
    (source : string) (line : Z) (m : Monitor) : option Monitor :=
  match error with
  | ThrownNull | ThrownUndefined => None
  | ThrownValue text stack =>
      let errorEntry := mkErrorEntry now type text source line (stackOf stack) in
      let errors := errorLog m ++ [errorEntry] in
      let metrics := SvgCache.cacheMetrics (cache m) in
      Some
        (mkMonitor
           (SvgCache.mkCache
              (SvgCache.svgCache (cache m))
              (SvgCache.mkMetrics (SvgCache.hits metrics)
                 (SvgCache.misses metrics) (SvgCache.errors metrics + 1)
                 (SvgCache.totalSize metrics)))
           (if decide (100 < length errors)%nat then shift errors else errors)
           (memoryUsage m))
  end.

(** [collectMemoryMetrics()].  [memory] is [performance.memory], absent
    in browsers that do not have it; [now] is the clock at the sample;
    [highUsage] is the outcome of [memory.used / memory.limit > 0.8];
    [cleanupNow] is the clock [cleanupResources] reads. *)
Definition collectMemoryMetrics (now : Z) (memory : option (Z * Z * Z))
    (highUsage : bool) (cleanupNow : Z) (m : Monitor) : Monitor :=
  match memory with
  | None => m
  | Some (used, total, limit) =>
      let sample := mkSample now used total limit in
      let samples := memoryUsage m ++ [sample] in
      let kept :=
        if decide (50 < length samples)%nat then shift samples else samples in
      mkMonitor
        (if highUsage then SvgCache.cleanupResources cleanupNow (cache m)
         else cache m)
        (errorLog m) kept
  end.

(** The calls the monitoring receives. *)
Inductive MonitorCall : Type :=
  | LogError (now : Z) (type : string) (error : Thrown)
             (source : string) (line : Z)
  | CollectMemory (now : Z) (memory : option (Z * Z * Z))
                  (highUsage : bool) (cleanupNow : Z).

(** The state a call leaves; a call that raises leaves the state it
    found. *)
Definition monitorStep (m : Monitor) (call : MonitorCall) : Monitor :=
  match call with
  | LogError now type error source line =>
      default m (logError now type error source line m)
  | CollectMemory now memory highUsage cleanupNow =>
      collectMemoryMetrics now memory highUsage cleanupNow m
  end.

Definition monitorRun (calls : list MonitorCall) : Monitor :=
  foldl monitorStep freshMonitor calls.

(** The entry a call appends to the error log, if it appends one. *)
Definition loggedBy (call : MonitorCall) : option ErrorEntry :=
  match call with
  | LogError now type (ThrownValue text stack) source line =>
      Some (mkErrorEntry now type text source line (stackOf stack))
  | _ => None
  end.

(** The sample a call appends, if it appends one. *)
Definition sampledBy (call : MonitorCall) : option MemorySample :=
  match call with
  | CollectMemory now (Some (used, total, limit)) _ _ =>
      Some (mkSample now used total limit)
  | _ => None
  end.

(** The last [n] elements of a list. *)
Definition lastN {A : Type} (n : nat) (l : list A) : list A :=
  drop (length l - n) l.

End PerformanceLog.

(* ===================================================================== *)
(** * The music player's track navigation                                 *)
(* ===================================================================== *)

Module MusicPlayer.
Local Open Scope Z_scope.

Section Seconds.

(** Times are numbers of seconds that need not be whole; the player
    only stores them, sets them to zero and compares them. *)
Context {Seconds : Type}.
Variable zero : Seconds.
Variable geq : Seconds → Seconds → bool.

(** The fields of [MusicPlayer] that track navigation reads and writes;
    [durations] holds [track.duration] for the tracks of the playlist. *)
Record Player : Type := mkPlayer
  { isPlaying : bool;
    currentTrackIndex : Z;
    currentTime : Seconds;
    durations : list Seconds }.

(** [this.playlist.length]: the playlist of the constructor has nine
    entries and is never changed. *)
Definition playlistLength : Z := 9.

(** The constructor: paused on the first track; every [duration] is 0
    until the metadata of the track has been loaded. *)
Definition initial : Player := mkPlayer false 0 zero (replicate 9 zero).

(** [nextTrack()] and [previousTrack()]; [%] is the remainder of
    JavaScript, which has the sign of the dividend. *)
Definition nextTrack (p : Player) : Player :=
  mkPlayer (isPlaying p)
           (Z.rem (currentTrackIndex p + 1) playlistLength)
           zero (durations p).

Definition previousTrack (p : Player) : Player :=
  mkPlayer (isPlaying p)
           (Z.rem (currentTrackIndex p - 1 + playlistLength) playlistLength)
           zero (durations p).

(** [togglePlayPause()]. *)
Definition togglePlayPause (p : Player) : Player :=
  mkPlayer (negb (isPlaying p)) (currentTrackIndex p) (currentTime p)
           (durations p).

(** [track.duration] of the current track; [None] stands for reading
    [duration] from [undefined]. *)
Definition currentDuration (p : Player) : option Seconds :=
  durations p !! Z.to_nat (currentTrackIndex p).

(** The callback of [startProgressUpdate], with [audioTime] the reading
    of [this.audio.currentTime]. *)
Definition progressTick (audioTime : Seconds) (p : Player) : Player :=
  if isPlaying p then
    match currentDuration p with
    | Some duration =>
        let p' := mkPlayer (isPlaying p) (currentTrackIndex p) audioTime
                           (durations p) in
        if geq audioTime duration then nextTrack p' else p'
    | None => p
    end
  else p.

(** [audio.onloadedmetadata] and [audio.onended], for the track that
    was current when [startAudio] installed them. *)
Definition metadataLoaded (track : nat) (duration : Seconds) (p : Player) : Player :=
  mkPlayer (isPlaying p) (currentTrackIndex p) (currentTime p)
           (<[track := duration]> (durations p)).

(** [seekTo(e)]: [newTime] is the number it computes from the click. *)
Definition seekTo (newTime : Seconds) (p : Player) : Player :=
  mkPlayer (isPlaying p) (currentTrackIndex p) newTime (durations p).

(** The rejection handler of [this.audio.play()], for an error that is
    not an [AbortError]. *)
Definition playFailed (p : Player) : Player :=
  mkPlayer false (currentTrackIndex p) (currentTime p) (durations p).

Inductive PlayerEvent : Type :=
  | Next
  | Previous
  | TogglePlayPause
  | ProgressTick (audioTime : Seconds)
  | MetadataLoaded (track : nat) (duration : Seconds)
  | Ended
  | SeekTo (newTime : Seconds)
  | PlayFailed.

Definition playerStep (p : Player) (e : PlayerEvent) : Player :=
  match e with
  | Next | Ended => nextTrack p
  | Previous => previousTrack p
  | TogglePlayPause => togglePlayPause p
  | ProgressTick audioTime => progressTick audioTime p
  | MetadataLoaded track duration => metadataLoaded track duration p
  | SeekTo newTime => seekTo newTime p
  | PlayFailed => playFailed p
  end.

Definition playerRun (events : list PlayerEvent) : Player :=
  foldl playerStep initial events.

(** The index names a track of the playlist. *)
Definition inPlaylist (p : Player) : Prop :=
  0 ≤ currentTrackIndex p < playlistLength ∧ length (durations p) = 9%nat.

End Seconds.

Arguments Player : clear implicits.

End MusicPlayer.

(* ===================================================================== *)
(** * Five in a row                                                       *)
(* ===================================================================== *)

Module FiveInARow.
Local Open Scope Z_scope.

(** [this.board]: an array of rows, each an array of cells holding 0
    (empty), 1 (the player, X) or 2 (the AI, O). *)
Abbreviation Board := (list (list Z)).

Definition boardSize : Z := 8.

(** [Array(8).fill().map(() => Array(8).fill(0))]. *)
Definition emptyBoard : Board := replicate 8 (replicate 8 0).

(** [nr >= 0 && nr < this.boardSize && nc >= 0 && nc < this.boardSize]. *)
Definition inBoard (r c : Z) : bool :=
  (0 <=? r) && (r <? boardSize) && (0 <=? c) && (c <? boardSize).

(** [this.board[r][c]], read at a position of the board. *)
Definition cell (b : Board) (r c : Z) : Z :=
  default 0 (b !! Z.to_nat r ≫= λ cells, cells !! Z.to_nat c).

(** [this.board[r][c] = v]. *)
Definition setCell (b : Board) (r c v : Z) : Board :=
  alter (λ cells, <[Z.to_nat c := v]> cells) (Z.to_nat r) b.

(** The guarded test of the scanning loops:
    [inside the board && this.board[nr][nc] === player]. *)
Definition holds (b : Board) (player r c : Z) : bool :=
  inBoard r c && (cell b r c =? player).

(** The positions the double loops [for row ... for col ...] visit, in
    the order they visit them. *)
Definition indices : list Z := [0; 1; 2; 3; 4; 5; 6; 7].

Definition allCells : list (Z * Z) :=
  r ← indices; c ← indices; [(r, c)].

Definition directions : list (Z * Z) := [(0, 1); (1, 0); (1, 1); (1, -1)].

(** [for (let i = 1; i < 5; i++) { if (...) count++ else break }]: the
    steps [i] taken before the first one whose cell does not hold
    [player]. *)
Fixpoint scan (test : Z → bool) (steps : list Z) : list Z :=
  match steps with
  | [] => []
  | i :: rest => if test i then i :: scan test rest else []
  end.

Definition ahead (b : Board) (player row col dx dy : Z) : list Z :=
  scan (λ i, holds b player (row + dx * i) (col + dy * i)) [1; 2; 3; 4].

Definition behind (b : Board) (player row col dx dy : Z) : list Z :=
  scan (λ i, holds b player (row - dx * i) (col - dy * i)) [1; 2; 3; 4].

(** The [winningCells] one direction collects: the cell itself, the
    cells ahead, the cells behind. *)
Definition lineCells (b : Board) (player row col : Z) (d : Z * Z)
    : list (Z * Z) :=
  (row, col)
  :: ((λ i, (row + d.1 * i, col + d.2 * i)) <$> ahead b player row col d.1 d.2)
  ++ ((λ i, (row - d.1 * i, col - d.2 * i)) <$> behind b player row col d.1 d.2).

(** [checkWin(row, col, player)]: the [winningCells] it stores when it
    returns [true], [None] when it returns [false]. *)
Definition checkWin (b : Board) (row col player : Z) : option (list (Z * Z)) :=
  list_find (λ cells, (5 ≤ length cells)%nat)
            (lineCells b player row col <$> directions) ≫= λ found,
  Some found.2.

(** [checkDraw()]. *)
Definition checkDraw (b : Board) : bool :=
  forallb (λ p, negb (cell b p.1 p.2 =? 0)) allCells.

(** [findWinningMove(player)]: the board is changed for the test and
    restored before the function goes on or returns. *)
Definition findWinningMove (b : Board) (player : Z) : option (Z * Z) :=
  snd <$> list_find
    (λ p, cell b p.1 p.2 = 0
          ∧ is_Some (checkWin (setCell b p.1 p.2 player) p.1 p.2 player))
    allCells.

(** One of the two scanning loops of [evaluateLine]: how many cells of
    [player] follow, and whether the loop ended on an empty cell at its
    first step ([openEnds++]).  [sign] is 1 or -1. *)
Fixpoint lineScan (b : Board) (player row col dx dy : Z)
    (steps : list Z) : nat * bool :=
  match steps with
  | [] => (0%nat, false)
  | i :: rest =>
      let nr := row + dx * i in
      let nc := col + dy * i in
      if negb (inBoard nr nc) then (0%nat, false)
      else if cell b nr nc =? player then
        let '(n, open) := lineScan b player row col dx dy rest in
        (S n, open)
      else if cell b nr nc =? 0 then (0%nat, i =? 1)
      else (0%nat, false)
  end.

(** [evaluateLine(row, col, dx, dy, player)]. *)
Definition evaluateLine (b : Board) (row col dx dy player : Z) : Z :=
  let '(n1, open1) := lineScan b player row col dx dy [1; 2; 3; 4] in
  let '(n2, open2) := lineScan b player row col (- dx) (- dy) [1; 2; 3; 4] in
  let consecutive := Z.of_nat (1 + n1 + n2) in
  let openEnds := (if open1 then 1 else 0) + (if open2 then 1 else 0) in
  let score :=
    if 5 <=? consecutive then 10000
    else if 4 <=? consecutive then (if 1 <=? openEnds then 1000 else 200)
    else if 3 <=? consecutive then (if 1 <=? openEnds then 300 else 80)
    else if consecutive =? 2 then
      (if 2 <=? openEnds then 50 else if openEnds =? 1 then 15 else 0)
    else 0 in
  if (openEnds =? 2) && (2 <=? consecutive) then score + 100 else score.

(** [evaluatePosition(row, col, player)]. *)
Definition evaluatePosition (b : Board) (row col player : Z) : Z :=
  let center := 4 in
  let distanceFromCenter := Z.abs (row - center) + Z.abs (col - center) in
  foldl (λ score d, score + evaluateLine b row col d.1 d.2 player)
        (Z.max 0 (5 - distanceFromCenter)) directions.

(** [findThreatMove(player)]: the class body defines this method twice;
    the later definition, the one modelled here, is the one in effect. *)
Definition findThreatMove (b : Board) (player : Z) : option (Z * Z) :=
  let '(bestMove, bestScore) :=
    foldl (λ best p,
             if cell b p.1 p.2 =? 0 then
               let score := evaluatePosition b p.1 p.2 player in
               if best.2 <? score then (Some p, score) else best
             else best)
          (None, 0) allCells in
  if 10 <? bestScore then bestMove else None.

(** [hasNeighbor(row, col)]. *)
Definition hasNeighbor (b : Board) (row col : Z) : bool :=
  existsb (λ d, inBoard (row + d.1) (col + d.2)
                && negb (cell b (row + d.1) (col + d.2) =? 0))
          (dr ← [-1; 0; 1]; dc ← [-1; 0; 1]; [(dr, dc)]).

(** [findStrategicMove()]. *)
Definition findStrategicMove (b : Board) : option (Z * Z) :=
  find (λ p, (cell b p.1 p.2 =? 0) && hasNeighbor b p.1 p.2) allCells.

(** [findRandomMove()]; [choice] stands for the reading of
    [Math.random()]: the index [Math.floor(Math.random() * moves.length)]
    is any position of [moves]. *)
Definition findRandomMove (b : Board) (choice : nat) : option (Z * Z) :=
  let moves := filter (λ p, cell b p.1 p.2 = 0) allCells in
  moves !! (choice `mod` length moves)%nat.

(** [findCenterMove()]. *)
Definition findCenterMove (b : Board) (choice : nat) : option (Z * Z) :=
  let center := 4 in
  if cell b center center =? 0 then Some (center, center)
  else
    match find (λ p, inBoard p.1 p.2 && (cell b p.1 p.2 =? 0))
               (r ← [center - 1; center; center + 1];
                c ← [center - 1; center; center + 1]; [(r, c)]) with
    | Some p => Some p
    | None => findRandomMove b choice
    end.

(** [getBestMove()]. *)
Definition getBestMove (b : Board) (choice : nat) : option (Z * Z) :=
  match findWinningMove b 2 with
  | Some winMove => Some winMove
  | None =>
  match findWinningMove b 1 with
  | Some blockMove => Some blockMove
  | None =>
  match findThreatMove b 1 with
  | Some blockThreatMove => Some blockThreatMove
  | None =>
  match findThreatMove b 2 with
  | Some threatMove => Some threatMove
  | None =>
  match findStrategicMove b with
  | Some strategicMove => Some strategicMove
  | None => findCenterMove b choice
  end end end end end.

(** What the trials of [getBestMove] leave in [this.winningCells]: a
    trial of [findWinningMove] that succeeds has [checkWin] store the
    line it found; nothing else in [getBestMove] calls [checkWin]. *)
Definition trialCells (b : Board) : option (list (Z * Z)) :=
  match findWinningMove b 2 with
  | Some p => checkWin (setCell b p.1 p.2 2) p.1 p.2 2
  | None =>
      match findWinningMove b 1 with
      | Some p => checkWin (setCell b p.1 p.2 1) p.1 p.2 1
      | None => None
      end
  end.

(** ** The course of a game *)

(** Callbacks handed to [setTimeout] and not run yet. *)
Inductive GameTimer : Type :=
  | AIMove       (* makeAIMove, 500ms *)
  | Restart.     (* handleWin and handleDraw, 2000ms *)

Record Game : Type := mkGame
  { board : Board;
    isPlayerTurn : bool;
    gameOver : bool;
    isThinking : bool;
    winningCells : list (Z * Z);
    pending : list GameTimer }.

(** The constructor, on a page that has the board; [winningCells] has
    no value before the first [checkWin] that succeeds, and [[]] stands
    for that. *)
Definition newGame : Game := mkGame emptyBoard true false false [] [].

(** [handleWin(winner)], entered with the line [checkWin] has just
    stored in [winningCells], and [handleDraw()]. *)
Definition handleWin (cells : list (Z * Z)) (g : Game) : Game :=
  mkGame (board g) (isPlayerTurn g) true false cells (pending g ++ [Restart]).

Definition handleDraw (g : Game) : Game :=
  mkGame (board g) (isPlayerTurn g) true false (winningCells g)
         (pending g ++ [Restart]).

(** [resetGame()]. *)
Definition resetGame (g : Game) : Game :=
  mkGame emptyBoard true false false [] (pending g).

(** [handlePlayerMove(row, col)] for the cell at [row], [col]. *)
Definition handlePlayerMove (row col : Z) (g : Game) : Game :=
  if gameOver g || negb (isPlayerTurn g) || negb (cell (board g) row col =? 0)
     || isThinking g
  then g
  else
    let b := setCell (board g) row col 1 in
    let g1 := mkGame b (isPlayerTurn g) (gameOver g) (isThinking g)
                     (winningCells g) (pending g) in
    match checkWin b row col 1 with
    | Some cells => handleWin cells g1
    | None =>
        if checkDraw b then handleDraw g1
        else mkGame b false (gameOver g) true (winningCells g)
                    (pending g ++ [AIMove])
    end.

(** The callback of [makeAIMove]. *)
Definition aiMoves (choice : nat) (g : Game) : Game :=
  match getBestMove (board g) choice with
  | None => g
  | Some (row, col) =>
      let b := setCell (board g) row col 2 in
      let stored := default (winningCells g) (trialCells (board g)) in
      let g1 := mkGame b (isPlayerTurn g) (gameOver g) (isThinking g)
                       stored (pending g) in
      match checkWin b row col 2 with
      | Some cells => handleWin cells g1
      | None =>
          if checkDraw b then handleDraw g1
          else mkGame b true (gameOver g) false stored (pending g)
      end
  end.

(** What can happen: a click on the cell at a position of the board,
    a click on the reset button, and the [n]-th pending callback
    running ([choice] is what [Math.random] gives it). *)
Inductive GameEvent : Type :=
  | Click (row col : Z)
  | ResetButton
  | TimerFires (n : nat) (choice : nat).

Definition gameStep (g : Game) (e : GameEvent) : Game :=
  match e with
  | Click row col => if inBoard row col then handlePlayerMove row col g else g
  | ResetButton => resetGame g
  | TimerFires n choice =>
      match pending g !! n with
      | None => g
      | Some t =>
          let g' := mkGame (board g) (isPlayerTurn g) (gameOver g)
                           (isThinking g) (winningCells g)
                           (delete n (pending g)) in
          match t with
          | AIMove => aiMoves choice g'
          | Restart => resetGame g'
          end
      end
  end.

Definition play (events : list GameEvent) : Game := foldl gameStep newGame events.

(** ** What the statements below speak of *)

(** Eight rows of eight cells, each 0, 1 or 2. *)
Definition wellFormed (b : Board) : Prop :=
  length b = 8%nat
  ∧ Forall (λ cells, length cells = 8%nat
                     ∧ Forall (λ v, v = 0 ∨ v = 1 ∨ v = 2) cells) b.

(** Five cells in a line through ([row], [col]), all of [player]: the
    run starts [k] steps behind the cell, in direction [d]. *)
Definition fiveThrough (b : Board) (player row col : Z) : Prop :=
  ∃ d k, d ∈ directions ∧ 0 ≤ k ≤ 4 ∧
    ∀ j, 0 ≤ j ≤ 4 →
      holds b player (row + d.1 * (j - k)) (col + d.2 * (j - k)) = true.

(** A board on which X has the cells (3,1) to (3,5), and a board on
    which X has (3,1) to (3,4) and O has (3,0). *)
Definition fiveBoard : Board :=
  foldl (λ b c, setCell b 3 c 1) emptyBoard [1; 2; 3; 4; 5].

Definition fourBoard : Board :=
  setCell (foldl (λ b c, setCell b 3 c 1) emptyBoard [1; 2; 3; 4]) 3 0 2.

(** Whether [e] runs [resetGame] in [g]. *)
Definition restarts (g : Game) (e : GameEvent) : bool :=
  match e with
  | ResetButton => true
  | TimerFires n _ =>
      match pending g !! n with Some Restart => true | _ => false end
  | Click _ _ => false
  end.

(** The cell [i] steps from ([row], [col]) in direction [d]. *)
Definition stepFrom (row col : Z) (d : Z * Z) (i : Z) : Z * Z :=
  (row + d.1 * i, col + d.2 * i).

(** The cells lie on one line through ([row], [col]) in direction [d]. *)
Definition onLine (row col : Z) (d : Z * Z) (cells : list (Z * Z)) : Prop :=
  Forall (λ p, ∃ i, -4 ≤ i ≤ 4 ∧ p = (row + d.1 * i, col + d.2 * i)) cells.

End FiveInARow.

(* ===================================================================== *)
(** * Properties of the drag and resize handlers                          *)
(* ===================================================================== *)

Module GeometryFacts.
Import Geometry.
Local Open Scope Z_scope.

Ltac unfold_geometry :=
  unfold resizeMouseMove, taskbarAdjust, resizeSwitch, dragFrame,
    withinBounds, minWidth, minHeight, taskbarHeight in *.


Lemma resizeMouseMove_width handleClass start startX startY clientX clientY :
  r_width (resizeMouseMove handleClass start startX startY clientX clientY) =
    if changesWidth handleClass
    then Z.max 300 (r_width start +
                    match handleClass with
                    | resize_handle_e | resize_handle_ne | resize_handle_se =>
                        clientX - startX
                    | _ => - (clientX - startX)
                    end)
    else r_width start.
Proof.
  unfold_geometry. case_decide; destruct handleClass; simpl; f_equal; lia.
Qed.









(** C6.  Dragging the south-east handle by (+40, +30) from
    {x:100, y:100, w:300, h:200} gives {x:100, y:100, w:340, h:230},
    wherever the pointer started; and any pointer position that would
    take the width below 300 leaves the width at exactly 300. *)
Theorem south_east_resize :
  (∀ startX startY,
     resizeMouseMove resize_handle_se (mkRect 100 100 300 200)
       startX startY (startX + 40) (startY + 30)
     = mkRect 100 100 340 230)
  ∧ (∀ start startX startY clientX clientY,
       r_width start + (clientX - startX) < 300 →
       r_width (resizeMouseMove resize_handle_se start
                  startX startY clientX clientY) = 300).
Proof.
  split.
  - intros startX startY. unfold_geometry. simpl.
    replace (startX + 40 - startX) with 40 by lia.
    replace (startY + 30 - startY) with 30 by lia.
    reflexivity.
  - intros start startX startY clientX clientY H.
    rewrite resizeMouseMove_width. simpl. lia.
Qed.

Lemma south_east_resize_witness :
  resizeMouseMove resize_handle_se (mkRect 100 100 300 200) 500 400 540 430
    = mkRect 100 100 340 230
  ∧ r_width (resizeMouseMove resize_handle_se (mkRect 100 100 300 200)
               500 400 470 430) = 300.
Proof.
  destruct south_east_resize as [H1 H2]. split.
  - apply (H1 500 400).
  - apply H2. simpl. lia.
Defined.

End GeometryFacts.

(* ===================================================================== *)
(** * Properties of the sticky-note list                                  *)
(* ===================================================================== *)

Module StickyFacts.
Import StickyNotes.
Local Open Scope Z_scope.

Lemma compareNotes_le a b : compareNotes a b ≤ 0 ↔ notOlder a b.
Proof. unfold compareNotes, notOlder. lia. Qed.

(** *** The sort *)

Lemma insertSorted_perm a l : insertSorted compareNotes a l ≡ₚ a :: l.
Proof.
  induction l as [|b l IH]; simpl; [done|].
  case_decide; [done|]. rewrite IH. apply Permutation_swap.
Qed.

Lemma sort_perm l : sort compareNotes l ≡ₚ l.
Proof.
  induction l as [|a l IH]; simpl; [done|].
  fold (sort compareNotes l). by rewrite insertSorted_perm, IH.
Qed.

Lemma insertSorted_sorted a l :
  StronglySorted notOlder l →
  StronglySorted notOlder (insertSorted compareNotes a l).
Proof.
  induction 1 as [|b l Hl IH Hb]; simpl.
  - repeat constructor.
  - case_decide as Hc.
    + apply compareNotes_le in Hc. constructor; [by constructor|].
      constructor; [done|].
      eapply Forall_impl; [exact Hb|]. unfold notOlder in *. intros c ?. lia.
    + constructor; [done|].
      rewrite insertSorted_perm. constructor; [|done].
      rewrite compareNotes_le in Hc. unfold notOlder in *. lia.
Qed.

Lemma sort_sorted l : StronglySorted notOlder (sort compareNotes l).
Proof.
  induction l as [|a l IH]; simpl; [constructor|].
  by apply insertSorted_sorted.
Qed.

(** In a list sorted by falling timestamp, a note with the strictly
    greater timestamp stands in front. *)
Lemma sorted_precedes l x y :
  StronglySorted notOlder l → x ∈ l → y ∈ l →
  timestampOf y < timestampOf x → precedes x y l.
Proof.
  intros Hs Hx Hy Hlt.
  apply list_elem_of_split in Hx as (l1 & l2 & ->).
  apply elem_of_app in Hy as [Hy|Hy].
  - exfalso.
    assert (notOlder y x) as Hyx.
    { eapply StronglySorted_app_1_elem_of; [exact Hs|exact Hy|]. left. }
    unfold notOlder in Hyx. lia.
  - apply elem_of_cons in Hy as [->|Hy]; [lia|].
    apply list_elem_of_split in Hy as (l3 & l4 & ->).
    by exists l1, l3, l4.
Qed.

(** *** Stamping *)

Lemma ensureTimestamp_type now n :
  note_type (ensureTimestamp now n) = note_type n.
Proof. unfold ensureTimestamp. by destruct (hasTimestamp n). Qed.

Lemma ensureTimestamp_pinned now n :
  isPinned (ensureTimestamp now n) = isPinned n.
Proof. unfold ensureTimestamp. by destruct (hasTimestamp n). Qed.

Lemma ensureTimestamp_id now n :
  note_id (ensureTimestamp now n) = note_id n.
Proof. unfold ensureTimestamp. by destruct (hasTimestamp n). Qed.

(** A note that already carries a timestamp keeps it; one that does not
    is sorted by its id. *)
Lemma timestampOf_stamped now n :
  hasTimestamp n = true →
  timestampOf (ensureTimestamp now n) = default 0 (timestamp n).
Proof.
  intros H. unfold ensureTimestamp. rewrite H.
  unfold timestampOf. by rewrite H.
Qed.

Lemma timestampOf_fallback now n :
  hasTimestamp n = false → truthy (note_id n) = true →
  timestampOf (ensureTimestamp now n) = note_id n.
Proof.
  intros Hn Hid. unfold ensureTimestamp. rewrite Hn.
  unfold timestampOf, hasTimestamp. simpl. rewrite !Hid. simpl.
  by rewrite ?Hid.
Qed.

(** *** The groups *)

Lemma pinned_group now stickyNotes n :
  n ∈ stickyNotes → note_type n ≠ Some "folder" → isPinned n = true →
  ensureTimestamp now n ∈ pinnedNotes (loadStickyNotes now stickyNotes).
Proof.
  intros Hin Hty Hp. simpl. rewrite sort_perm.
  apply list_elem_of_filter. split; [by rewrite ensureTimestamp_pinned|].
  apply list_elem_of_filter. split; [by rewrite ensureTimestamp_type|].
  by apply list_elem_of_fmap_2.
Qed.

Lemma regular_group_unpinned now stickyNotes n :
  n ∈ regularNotes (loadStickyNotes now stickyNotes) → isPinned n = false.
Proof.
  simpl. rewrite sort_perm. intros Hin.
  by apply list_elem_of_filter in Hin as [? _].
Qed.

(** *** Pinning *)

Section Pinning.

Variable extractTextContent : string → string.

Lemma updateNote_identity newContent today p n :
  identity (updateNote extractTextContent newContent today p n) = identity n.
Proof. done. Qed.

(** Saving an open note, pinned or not, leaves every record at its
    place in the array with its id, type and timestamp. *)
Lemma autoSaveNote_identity noteId newContent today p idNow stampNow
    stickyNotes stored :
  autoSaveNote extractTextContent (Some noteId) newContent today p
    idNow stampNow stickyNotes = Some stored →
  (identity <$> stored) = (identity <$> stickyNotes).
Proof.
  unfold autoSaveNote.
  destruct (list_find _ stickyNotes) as [[i n]|] eqn:Hf; intros [= <-];
    [|done].
  rewrite (list_fmap_alter identity _ id).
  - by apply list_alter_id.
  - apply Forall_forall. intros x _. apply updateNote_identity.
Qed.

End Pinning.

(** *** Pinning from a note window *)

Lemma ensureTimestamp_stamped now n :
  hasTimestamp n = true → ensureTimestamp now n = n.
Proof. unfold ensureTimestamp. by intros ->. Qed.

Lemma saved_perm now stickyNotes :
  saved (loadStickyNotes now stickyNotes)
  ≡ₚ filter (λ item, note_type item ≠ Some "folder")
            (ensureTimestamp now <$> stickyNotes).
Proof.
  simpl. rewrite !sort_perm.
  rewrite (list_filter_iff (λ note, isPinned note = false)
                           (λ note, ¬ isPinned note = true)).
  - apply filter_app_complement.
  - intros x. by destruct (isPinned x).
Qed.

Lemma saved_elem_of now stickyNotes m :
  m ∈ stickyNotes → note_type m ≠ Some "folder" →
  ensureTimestamp now m ∈ saved (loadStickyNotes now stickyNotes).
Proof.
  intros Hin Hty. rewrite saved_perm.
  apply list_elem_of_filter. split; [by rewrite ensureTimestamp_type|].
  by apply list_elem_of_fmap_2.
Qed.

Lemma NoDup_fmap_filter {A B} (f : A → B) (P : A → Prop)
    `{!∀ x, Decision (P x)} (l : list A) :
  NoDup (f <$> l) → NoDup (f <$> filter P l).
Proof.
  induction l as [|x l IH]; [done|]. rewrite fmap_cons, NoDup_cons.
  intros [Hx Hl]. rewrite filter_cons. case_decide; [|by apply IH].
  rewrite fmap_cons. apply NoDup_cons. split; [|by apply IH].
  intros (y & Hy & Hin)%list_elem_of_fmap.
  apply Hx. apply list_elem_of_fmap. exists y. split; [done|].
  by apply list_elem_of_filter in Hin as [_ ?].
Qed.

Lemma saved_ids_NoDup now stickyNotes :
  NoDup (note_id <$> stickyNotes) →
  NoDup (note_id <$> saved (loadStickyNotes now stickyNotes)).
Proof.
  intros Hnd. rewrite saved_perm. apply NoDup_fmap_filter.
  rewrite <- list_fmap_compose.
  by rewrite (list_fmap_ext (note_id ∘ ensureTimestamp now) note_id)
    by (intros; apply ensureTimestamp_id).
Qed.

Section PinFromWindow.

Variable extractTextContent : string → string.

Lemma autoSaveNote_ids noteId newContent today p idNow stampNow
    stickyNotes stored :
  autoSaveNote extractTextContent (Some noteId) newContent today p
    idNow stampNow stickyNotes = Some stored →
  (note_id <$> stored) = (note_id <$> stickyNotes).
Proof.
  intros H%autoSaveNote_identity.
  change ((fst ∘ fst ∘ identity) <$> stored
          = (fst ∘ fst ∘ identity) <$> stickyNotes).
  by rewrite !(list_fmap_compose identity), H.
Qed.

(** Saving the note with id [noteId] leaves every other note as it is. *)
Lemma autoSaveNote_other noteId newContent today p idNow stampNow
    stickyNotes stored m :
  autoSaveNote extractTextContent (Some noteId) newContent today p
    idNow stampNow stickyNotes = Some stored →
  m ∈ stickyNotes → note_id m ≠ noteId → m ∈ stored.
Proof.
  unfold autoSaveNote.
  destruct (list_find _ stickyNotes) as [[i n]|] eqn:Hf; intros [= <-];
    [|done].
  intros [k Hk]%list_elem_of_lookup_1 Hne.
  apply list_find_Some in Hf as (Hi & Hid & _).
  apply list_elem_of_lookup. exists k.
  rewrite list_lookup_alter_ne; [done|]. intros ->. congruence.
Qed.

(** With pairwise distinct ids it is the note itself that is updated. *)
Lemma autoSaveNote_target newContent today p idNow stampNow
    stickyNotes n :
  NoDup (note_id <$> stickyNotes) → n ∈ stickyNotes →
  ∃ stored,
    autoSaveNote extractTextContent (Some (note_id n)) newContent today p
      idNow stampNow stickyNotes = Some stored
    ∧ updateNote extractTextContent newContent today p n ∈ stored.
Proof.
  intros Hnd [k Hk]%list_elem_of_lookup_1. unfold autoSaveNote.
  destruct (list_find _ stickyNotes) as [[i n']|] eqn:Hf.
  - apply list_find_Some in Hf as (Hi & Hid & _).
    assert (i = k) as ->.
    { eapply NoDup_lookup; [exact Hnd| |].
      - by rewrite list_lookup_fmap, Hi.
      - rewrite list_lookup_fmap, Hk. simpl. by rewrite Hid. }
    assert (n' = n) as -> by congruence.
    eexists. split; [done|]. apply list_elem_of_lookup. exists k.
    by rewrite list_lookup_alter_eq, Hk.
  - apply list_find_None in Hf. rewrite Forall_forall in Hf.
    exfalso. eapply Hf; [|done]. by eapply list_elem_of_lookup_2.
Qed.

Lemma pinNote_ids_NoDup noteId newContent today now stickyNotes :
  NoDup (note_id <$> stickyNotes) →
  NoDup (note_id <$> pinNote extractTextContent noteId newContent today now
                       stickyNotes).
Proof.
  intros Hnd. unfold pinNote.
  destruct (autoSaveNote _ _ _ _ _ _ _ _) as [stored|] eqn:Hs; [|done].
  apply saved_ids_NoDup. by rewrite (autoSaveNote_ids _ _ _ _ _ _ _ _ Hs).
Qed.

(** Pinning a note pins it and keeps its id and timestamp. *)
Lemma pinNote_target t ts p newContent today now stickyNotes :
  NoDup (note_id <$> stickyNotes) → truthy ts = true →
  holdsNote t ts p stickyNotes →
  holdsNote t ts true
    (pinNote extractTextContent t newContent today now stickyNotes).
Proof.
  intros Hnd Hts (m & Hin & <- & Hstamp & Hty & _). unfold pinNote.
  destruct (autoSaveNote_target newContent today true 0 0 stickyNotes m
              Hnd Hin) as (stored & -> & Hup).
  set (m' := updateNote extractTextContent newContent today true m) in *.
  assert (hasTimestamp m' = true) as Hhas
    by (unfold hasTimestamp; simpl; by rewrite Hstamp).
  exists m'. split; [|done].
  rewrite <- (ensureTimestamp_stamped now m' Hhas).
  by apply saved_elem_of.
Qed.

(** Pinning one note leaves every other note as it is. *)
Lemma pinNote_other t t' ts' p' newContent today now stickyNotes :
  t' ≠ t → truthy ts' = true →
  holdsNote t' ts' p' stickyNotes →
  holdsNote t' ts' p'
    (pinNote extractTextContent t newContent today now stickyNotes).
Proof.
  intros Hne Hts (m & Hin & Hid & Hstamp & Hty & Hpin). unfold pinNote.
  destruct (autoSaveNote _ _ _ _ _ _ _ _) as [stored|] eqn:Hs.
  2:{ by exists m. }
  assert (hasTimestamp m = true) as Hhas
    by (unfold hasTimestamp; by rewrite Hstamp).
  exists m. split; [|done].
  rewrite <- (ensureTimestamp_stamped now m Hhas).
  apply saved_elem_of; [|done].
  eapply autoSaveNote_other; [exact Hs|done|congruence].
Qed.

End PinFromWindow.

(** Two pinned notes of the array are shown pinned, the one with the
    greater timestamp in front. *)
Lemma holdsNote_precedes now stickyNotes t1 ts1 t2 ts2 :
  truthy ts1 = true → truthy ts2 = true → ts1 < ts2 →
  holdsNote t1 ts1 true stickyNotes → holdsNote t2 ts2 true stickyNotes →
  ∃ m1 m2,
    note_id m1 = t1 ∧ note_id m2 = t2
    ∧ precedes m2 m1 (pinnedNotes (loadStickyNotes now stickyNotes)).
Proof.
  intros Hts1 Hts2 Hlt (m1 & Hin1 & Hid1 & Hst1 & Hty1 & Hp1)
         (m2 & Hin2 & Hid2 & Hst2 & Hty2 & Hp2).
  assert (∀ m ts, timestamp m = Some ts → truthy ts = true →
                  ensureTimestamp now m = m ∧ timestampOf m = ts) as Hstamped.
  { intros m ts Hst Hts.
    assert (hasTimestamp m = true) as Hhas
      by (unfold hasTimestamp; by rewrite Hst).
    split; [by apply ensureTimestamp_stamped|].
    unfold timestampOf. by rewrite Hhas, Hst. }
  destruct (Hstamped m1 ts1 Hst1 Hts1) as [He1 Hk1].
  destruct (Hstamped m2 ts2 Hst2 Hts2) as [He2 Hk2].
  exists m1, m2. split; [done|]. split; [done|].
  apply sorted_precedes; [apply sort_sorted| | |lia].
  - rewrite <- He2. apply pinned_group; auto.
  - rewrite <- He1. apply pinned_group; auto.
Qed.

(** C8.  Take any stored array and any two notes in it with ids
    [t1 < t2] that are both pinned.  [loadStickyNotes] puts both (with
    their timestamps filled in) into the pinned group and neither into
    the regular one, and the one with the greater timestamp stands in
    front; for notes whose timestamp is their id, that is the note
    [t2].  The array is arbitrary, so the order in which the two were
    pinned plays no part.  The second half says so for the pin button
    of the note windows: from an array with pairwise distinct ids that
    holds the two notes, pinning [t1] then [t2] and pinning [t2] then
    [t1] (each pin is an [autoSaveNote] followed by the refresh that
    writes the regrouped array back) both end with the two notes in the
    pinned group, the one with the greater timestamp in front. *)
Theorem pinned_notes_grouped_and_ordered :
  (∀ (now : Z) (stickyNotes : list Note) (n1 n2 : Note),
     n1 ∈ stickyNotes → n2 ∈ stickyNotes →
     note_type n1 ≠ Some "folder" → note_type n2 ≠ Some "folder" →
     isPinned n1 = true → isPinned n2 = true →
     note_id n1 < note_id n2 →
     let loaded := loadStickyNotes now stickyNotes in
     let n1' := ensureTimestamp now n1 in
     let n2' := ensureTimestamp now n2 in
     n1' ∈ pinnedNotes loaded ∧ n2' ∈ pinnedNotes loaded
     ∧ (n1' ∉ regularNotes loaded) ∧ (n2' ∉ regularNotes loaded)
     ∧ (timestampOf n1' < timestampOf n2' →
        precedes n2' n1' (pinnedNotes loaded))
     ∧ (timestampOf n2' < timestampOf n1' →
        precedes n1' n2' (pinnedNotes loaded))
     ∧ (timestampOf n1' = note_id n1 → timestampOf n2' = note_id n2 →
        precedes n2' n1' (pinnedNotes loaded)))
  ∧ (∀ extractTextContent (stickyNotes : list Note)
       (t1 ts1 t2 ts2 : Z) (pinned1 pinned2 : bool)
       (content1 content2 today1 today2 : string) (nowA nowB now : Z),
       NoDup (note_id <$> stickyNotes) →
       holdsNote t1 ts1 pinned1 stickyNotes →
       holdsNote t2 ts2 pinned2 stickyNotes →
       t1 < t2 → truthy ts1 = true → truthy ts2 = true → ts1 < ts2 →
       let first1 :=
         pinNote extractTextContent t2 content2 today2 nowB
           (pinNote extractTextContent t1 content1 today1 nowA stickyNotes) in
       let first2 :=
         pinNote extractTextContent t1 content1 today1 nowB
           (pinNote extractTextContent t2 content2 today2 nowA stickyNotes) in
       (∃ m1 m2, note_id m1 = t1 ∧ note_id m2 = t2
                 ∧ precedes m2 m1 (pinnedNotes (loadStickyNotes now first1)))
       ∧ (∃ m1 m2, note_id m1 = t1 ∧ note_id m2 = t2
                   ∧ precedes m2 m1
                       (pinnedNotes (loadStickyNotes now first2)))).
Proof.
  split.
  - intros now stickyNotes n1 n2 H1 H2 Ht1 Ht2 Hp1 Hp2 Hid loaded n1' n2'.
    assert (n1' ∈ pinnedNotes loaded) as Hin1 by by apply pinned_group.
    assert (n2' ∈ pinnedNotes loaded) as Hin2 by by apply pinned_group.
    assert (StronglySorted notOlder (pinnedNotes loaded)) as Hs
      by apply sort_sorted.
    split; [done|]. split; [done|].
    split.
    { intros Hr. apply regular_group_unpinned in Hr.
      subst n1'. rewrite ensureTimestamp_pinned in Hr. congruence. }
    split.
    { intros Hr. apply regular_group_unpinned in Hr.
      subst n2'. rewrite ensureTimestamp_pinned in Hr. congruence. }
    split; [intros; by apply sorted_precedes|].
    split; [intros; by apply sorted_precedes|].
    intros E1 E2. apply sorted_precedes; [done..|lia].
  - intros ex stickyNotes t1 ts1 t2 ts2 pinned1 pinned2
           content1 content2 today1 today2 nowA nowB now
           Hnd H1 H2 Hlt Hts1 Hts2 Hts first1 first2.
    assert (t1 ≠ t2) as Hne by lia.
    split; apply (holdsNote_precedes _ _ t1 ts1 t2 ts2); try done.
    + apply pinNote_other; [done..|]. by eapply pinNote_target.
    + apply (pinNote_target ex t2 ts2 pinned2);
        [by apply pinNote_ids_NoDup|done|].
      apply pinNote_other; [congruence|done..].
    + apply (pinNote_target ex t1 ts1 pinned1);
        [by apply pinNote_ids_NoDup|done|].
      by apply pinNote_other.
    + apply pinNote_other; [congruence|done|]. by eapply pinNote_target.
Qed.

Lemma pinned_notes_grouped_and_ordered_witness :
  precedes newerNote olderNote
    (pinnedNotes (loadStickyNotes 1700000009000
                    [olderNote; unpinnedNote; newerNote]))
  ∧ ∃ m1 m2,
      note_id m1 = 1700000002000 ∧ note_id m2 = 1700000005000
      ∧ precedes m2 m1
          (pinnedNotes
             (loadStickyNotes 1700000009000
                (pinNote (λ markup, markup) 1700000002000
                   "<div>draft</div>" "11/21/2023" 1700000008000
                   (pinNote (λ markup, markup) 1700000005000
                      "<div>call mom</div>" "11/21/2023" 1700000007000
                      [olderNote; unpinnedNote; newerNote])))).
Proof.
  destruct pinned_notes_grouped_and_ordered as [Hload Hpin]. split.
  - pose proof (Hload 1700000009000 [olderNote; unpinnedNote; newerNote]
                  olderNote newerNote) as H.
    simpl in H. apply H; try done.
    + apply list_elem_of_here.
    + do 2 apply list_elem_of_further. apply list_elem_of_here.
  - refine (proj2 (Hpin (λ markup, markup)
             [olderNote; unpinnedNote; newerNote]
             1700000002000 1700000002000 1700000005000 1700000005000
             false true "<div>draft</div>" "<div>call mom</div>"
             "11/21/2023" "11/21/2023" 1700000007000 1700000008000
             1700000009000 _ _ _ _ _ _ _)); try done.
    + apply (bool_decide_unpack _). by vm_compute.
    + exists unpinnedNote. repeat split; try done.
      apply list_elem_of_further, list_elem_of_here.
    + exists newerNote. repeat split; try done.
      do 2 apply list_elem_of_further. apply list_elem_of_here.
Defined.

End StickyFacts.

(* ===================================================================== *)
(** * Properties of the mood tracker persistence                          *)
(* ===================================================================== *)

Module MoodFacts.
Import MoodTracker.

Section WithBuiltins.

Variable JSON_parse : string → option JSValue.
Variable JSON_stringify : JSValue → string.
Variable strictMode : bool.

Local Abbreviation getMoodData := (MoodTracker.getMoodData JSON_parse).
Local Abbreviation saveTodaysMood :=
  (MoodTracker.saveTodaysMood JSON_parse JSON_stringify strictMode).

(** [getMoodData] has no way to end with an exception. *)
Lemma getMoodData_returns st : ∃ v, getMoodData st = Returns v.
Proof.
  unfold MoodTracker.getMoodData, parse, tryCatch.
  destruct (getItem _ st) as [data|]; [|by eexists].
  case_decide; [by eexists|].
  destruct (JSON_parse data); by eexists.
Qed.

Lemma getMoodData_absent st :
  getItem "moodTrackerData" st = None → getMoodData st = Returns (JObject ∅).
Proof. unfold MoodTracker.getMoodData. by intros ->. Qed.

Lemma getMoodData_malformed st data :
  getItem "moodTrackerData" st = Some data → JSON_parse data = None →
  getMoodData st = Returns (JObject ∅).
Proof.
  unfold MoodTracker.getMoodData, parse. intros -> Hp.
  case_decide; [done|]. by rewrite Hp.
Qed.

Lemma getMoodData_parsed st data v :
  getItem "moodTrackerData" st = Some data → data ≠ "" →
  JSON_parse data = Some v → getMoodData st = Returns v.
Proof.
  unfold MoodTracker.getMoodData, parse. intros -> Hne Hp.
  case_decide; [done|]. by rewrite Hp.
Qed.


(** What [saveTodaysMood] stores when [getMoodData] hands it the mapping
    [m] and the storage has room. *)
Lemma saveTodaysMood_object today moodIndex st m :
  getMoodData st = Returns (JObject m) →
  let m' := <[dateKey today := JNumber moodIndex]> m in
  let text := JSON_stringify (JObject m') in
  (usage (<["moodTrackerData" := text]> (items st)) ≤ quota st)%nat →
  saveTodaysMood today moodIndex st
  = Returns (mkStorage (<["moodTrackerData" := text]> (items st)) (quota st)).
Proof.
  intros Hget m' text Hroom.
  unfold MoodTracker.saveTodaysMood. rewrite Hget. simpl.
  unfold setItem. fold m' text. by rewrite decide_True.
Qed.


End WithBuiltins.


End MoodFacts.

(* ===================================================================== *)
(** * Properties of the window manager                                    *)
(* ===================================================================== *)

Module WindowManagerFacts.
Import WindowManager.

(** ** Removing an id from the layer order *)

Lemma removeFromLayerOrder_nil x : removeFromLayerOrder x [] = [].
Proof. done. Qed.

Lemma removeFromLayerOrder_cons x y l :
  removeFromLayerOrder x (y :: l) =
    if decide (y = x) then l else y :: removeFromLayerOrder x l.
Proof.
  unfold removeFromLayerOrder, indexOf. simpl.
  case_decide; [done|].
  destruct (list_find _ l) as [[i z]|]; done.
Qed.

Lemma removeFromLayerOrder_notin x l :
  x ∉ l → removeFromLayerOrder x l = l.
Proof.
  induction l as [|y l IH]; [done|]. intros Hx.
  rewrite removeFromLayerOrder_cons.
  apply not_elem_of_cons in Hx as [Hne Hx].
  rewrite decide_False by done. by rewrite IH.
Qed.

Lemma removeFromLayerOrder_sublist x l :
  removeFromLayerOrder x l `sublist_of` l.
Proof.
  unfold removeFromLayerOrder. destruct (indexOf x l); [|done].
  apply sublist_delete.
Qed.

Lemma removeFromLayerOrder_elem_of x y l :
  y ∈ removeFromLayerOrder x l → y ∈ l.
Proof.
  intros H. eapply elem_of_sublist; [exact H|].
  apply removeFromLayerOrder_sublist.
Qed.

Lemma removeFromLayerOrder_NoDup x l :
  NoDup l → NoDup (removeFromLayerOrder x l).
Proof.
  intros H. eapply sublist_NoDup; [exact H|].
  apply removeFromLayerOrder_sublist.
Qed.

Lemma removeFromLayerOrder_other x y l :
  y ≠ x → y ∈ l → y ∈ removeFromLayerOrder x l.
Proof.
  intros Hne. induction l as [|z l IH]; [done|].
  rewrite removeFromLayerOrder_cons. intros [->|Hy]%elem_of_cons.
  - rewrite decide_False by done. left.
  - case_decide; [done|]. right. by apply IH.
Qed.

Lemma removeFromLayerOrder_gone x l :
  NoDup l → x ∉ removeFromLayerOrder x l.
Proof.
  induction 1 as [|y l Hy Hl IH]; [by rewrite removeFromLayerOrder_nil; apply not_elem_of_nil|].
  rewrite removeFromLayerOrder_cons. case_decide as Hd.
  - by subst.
  - apply not_elem_of_cons. split; [congruence|done].
Qed.

Lemma removeFromLayerOrder_snoc x l :
  x ∉ l → removeFromLayerOrder x (l ++ [x]) = l.
Proof.
  induction l as [|y l IH]; intros Hx; simpl.
  - rewrite removeFromLayerOrder_cons. by rewrite decide_True.
  - apply not_elem_of_cons in Hx as [Hne Hx].
    rewrite removeFromLayerOrder_cons, decide_False by done.
    by rewrite IH.
Qed.

(** ** The windows that are shown *)

Lemma elem_of_allWindows d i w :
  (i, w) ∈ allWindows d ↔ d !! i = Some w ∧ cls_active w = true.
Proof.
  unfold allWindows. rewrite list_elem_of_filter, elem_of_lookup_imap.
  simpl. split.
  - intros (Ha & j & y & [= -> ->] & Hl). done.
  - intros [Hl Ha]. split; [done|]. by exists i, w.
Qed.

Lemma elem_of_shownIds d windowId :
  windowId ∈ shownIds d ↔
    ∃ i w, d !! i = Some w ∧ cls_active w = true
           ∧ getWindowId w = windowId.
Proof.
  unfold shownIds. rewrite list_elem_of_fmap. split.
  - intros ([i w] & -> & H). apply elem_of_allWindows in H as [? ?].
    by exists i, w.
  - intros (i & w & Hl & Ha & <-). exists (i, w). split; [done|].
    by apply elem_of_allWindows.
Qed.

Lemma elem_of_visibleIds s windowId :
  windowId ∈ visibleIds s ↔
    ∃ i w, dom s !! i = Some w ∧ cls_active w = true
           ∧ getWindowId w = windowId.
Proof. apply elem_of_shownIds. Qed.

Lemma allWindows_shift (g : nat → nat) d :
  (λ p, getWindowId p.2)
    <$> filter (λ p, cls_active p.2 = true) (imap (λ i w, (g i, w)) d)
  = omap (shownAs ∘ visibility) d.
Proof.
  revert g. induction d as [|w d IH]; intros g; [done|].
  rewrite imap_cons, filter_cons.
  destruct (decide _) as [Ha|Ha]; simpl in Ha.
  - rewrite fmap_cons. simpl. unfold shownAs at 1, visibility at 1. simpl.
    rewrite Ha. f_equal. apply (IH (g ∘ S)).
  - simpl. unfold shownAs at 1, visibility at 1. simpl.
    destruct (cls_active w); [done|]. apply (IH (g ∘ S)).
Qed.

Lemma omap_fmap {A B C} (f : A → B) (g : B → option C) (l : list A) :
  omap g (f <$> l) = omap (g ∘ f) l.
Proof.
  induction l as [|x l IH]; [done|]. csimpl.
  destruct (g (f x)); by rewrite IH.
Qed.

Lemma shownIds_omap d : shownIds d = omap (shownAs ∘ visibility) d.
Proof. apply (allWindows_shift id). Qed.

(** The ids shown are decided by ids and [active] classes alone. *)
Lemma shownIds_visibility (d1 d2 : list WindowEl) :
  visibility <$> d1 = visibility <$> d2 → shownIds d1 = shownIds d2.
Proof.
  intros H. rewrite !shownIds_omap, <- !omap_fmap. by rewrite H.
Qed.

(** ** The window map *)

Lemma windowMap_fold_Some ws : ∀ (m : gmap string nat) windowId i,
  foldl (λ m p, <[getWindowId p.2 := p.1]> m) m ws !! windowId = Some i →
  m !! windowId = Some i
  ∨ ∃ w, (i, w) ∈ ws ∧ getWindowId w = windowId.
Proof.
  induction ws as [|[j w] ws IH]; intros m windowId i; simpl; [by left|].
  intros H. apply IH in H as [H|(w' & Hin & Hid)].
  - destruct (decide (getWindowId w = windowId)) as [<-|Hne].
    + rewrite lookup_insert_eq in H. injection H as ->.
      right. exists w. split; [left|done].
    + rewrite lookup_insert_ne in H by done. by left.
  - right. exists w'. split; [by right|done].
Qed.

Lemma windowMap_fold_is_Some ws : ∀ (m : gmap string nat) windowId,
  is_Some (m !! windowId)
  ∨ (∃ i w, (i, w) ∈ ws ∧ getWindowId w = windowId) →
  is_Some (foldl (λ m p, <[getWindowId p.2 := p.1]> m) m ws !! windowId).
Proof.
  induction ws as [|[j w] ws IH]; intros m windowId; simpl.
  - intros [H|(i & w & Hin & _)]; [done|]. by apply elem_of_nil in Hin.
  - intros H. apply IH.
    destruct (decide (getWindowId w = windowId)) as [<-|Hne].
    + left. rewrite lookup_insert_eq. by eexists.
    + destruct H as [H|(i & w' & Hin & Hid)].
      * left. by rewrite lookup_insert_ne.
      * apply elem_of_cons in Hin as [[= -> ->]|Hin]; [done|].
        right. by exists i, w'.
Qed.

(** An id is in the window map exactly when a shown window has it, and
    the map then points at such a window. *)
Lemma buildWindowMap_Some d windowId i :
  buildWindowMap (allWindows d) !! windowId = Some i →
  ∃ w, d !! i = Some w ∧ cls_active w = true ∧ getWindowId w = windowId.
Proof.
  intros H. apply windowMap_fold_Some in H as [H|(w & Hin & Hid)].
  - by rewrite lookup_empty in H.
  - apply elem_of_allWindows in Hin as [? ?]. by exists w.
Qed.

Lemma buildWindowMap_is_Some d i w :
  d !! i = Some w → cls_active w = true →
  is_Some (buildWindowMap (allWindows d) !! getWindowId w).
Proof.
  intros Hl Ha. apply windowMap_fold_is_Some. right.
  exists i, w. split; [|done]. by apply elem_of_allWindows.
Qed.

Lemma buildWindowMap_inj d a b i :
  buildWindowMap (allWindows d) !! a = Some i →
  buildWindowMap (allWindows d) !! b = Some i → a = b.
Proof.
  intros (w1 & H1 & _ & <-)%buildWindowMap_Some
         (w2 & H2 & _ & <-)%buildWindowMap_Some.
  congruence.
Qed.

(** With pairwise distinct ids the map points at the window itself. *)
Lemma buildWindowMap_lookup d i w :
  NoDup (getWindowId <$> d) → d !! i = Some w → cls_active w = true →
  buildWindowMap (allWindows d) !! getWindowId w = Some i.
Proof.
  intros Hnd Hl Ha.
  destruct (buildWindowMap_is_Some d i w Hl Ha) as [j Hj].
  rewrite Hj. f_equal.
  apply buildWindowMap_Some in Hj as (w' & Hl' & _ & Hid).
  eapply NoDup_lookup; [exact Hnd| |].
  - rewrite list_lookup_fmap, Hl'. simpl. by rewrite Hid.
  - by rewrite list_lookup_fmap, Hl.
Qed.

Lemma buildWindowMap_visible s windowId :
  is_Some (buildWindowMap (allWindows (dom s)) !! windowId)
  ↔ windowId ∈ visibleIds s.
Proof.
  rewrite elem_of_visibleIds. split.
  - intros [i H]. apply buildWindowMap_Some in H as (w & ? & ? & ?).
    by exists i, w.
  - intros (i & w & Hl & Ha & <-). by eapply buildWindowMap_is_Some.
Qed.

(** ** Appending the windows that are new *)

Lemma addNewWindows_NoDup ws : ∀ order,
  NoDup order → NoDup (addNewWindows ws order).
Proof.
  unfold addNewWindows.
  induction ws as [|p ws IH]; intros order Hnd; simpl; [done|].
  apply IH. case_decide; [done|].
  apply NoDup_app. split; [done|]. split; [|apply NoDup_singleton].
  intros x Hx ->%list_elem_of_singleton. done.
Qed.

Lemma addNewWindows_elem_of ws : ∀ order windowId,
  windowId ∈ addNewWindows ws order ↔
    windowId ∈ order ∨ ∃ p, p ∈ ws ∧ getWindowId p.2 = windowId.
Proof.
  unfold addNewWindows.
  induction ws as [|p ws IH]; intros order windowId; simpl.
  - split; [by left|]. intros [H|(p & Hp & _)]; [done|].
    by apply elem_of_nil in Hp.
  - rewrite IH. split.
    + intros [H|(q & Hq & Hid)].
      * case_decide; [by left|].
        apply elem_of_app in H as [H|H%list_elem_of_singleton]; [by left|].
        right. exists p. split; [left|done].
      * right. exists q. split; [by right|done].
    + intros [H|(q & Hq & Hid)].
      * left. case_decide; [done|]. apply elem_of_app. by left.
      * apply elem_of_cons in Hq as [->|Hq].
        -- left. case_decide; [by subst|].
           apply elem_of_app. right. subst. apply list_elem_of_here.
        -- right. by exists q.
Qed.

Lemma addNewWindows_id ws : ∀ order,
  (∀ p, p ∈ ws → getWindowId p.2 ∈ order) → addNewWindows ws order = order.
Proof.
  unfold addNewWindows.
  induction ws as [|p ws IH]; intros order H; simpl; [done|].
  rewrite decide_True by (apply H; left).
  apply IH. intros q Hq. apply H. by right.
Qed.

(** ** Assigning the z-indices *)

Lemma withZ_classes z w : classes (withZ z w) = classes w.
Proof. by destruct z. Qed.

Lemma applyZIndices_lookup windowMap order : ∀ index d k,
  applyZIndices windowMap index order d !! k
  = withZ (assignedZ windowMap index order k) <$> d !! k.
Proof.
  induction order as [|windowId order IH]; intros index d k; simpl.
  { by destruct (d !! k). }
  rewrite IH. destruct (windowMap !! windowId) as [w0|] eqn:Hw0.
  - rewrite list_lookup_alter. destruct (decide (w0 = k)) as [->|Hne].
    + rewrite decide_True by done.
      destruct (assignedZ _ _ order k), (d !! k); done.
    + rewrite decide_False by congruence.
      by destruct (assignedZ _ _ order k).
  - rewrite decide_False by done. by destruct (assignedZ _ _ order k).
Qed.

Lemma applyZIndices_classes windowMap index order d :
  classes <$> applyZIndices windowMap index order d = classes <$> d.
Proof.
  apply list_eq. intros k.
  rewrite !list_lookup_fmap, applyZIndices_lookup.
  destruct (d !! k); simpl; [|done]. by rewrite withZ_classes.
Qed.

Lemma assignedZ_None windowMap order : ∀ index k,
  (∀ windowId, windowId ∈ order → windowMap !! windowId ≠ Some k) →
  assignedZ windowMap index order k = None.
Proof.
  induction order as [|x order IH]; intros index k H; simpl; [done|].
  rewrite IH by (intros y Hy; apply H; by right).
  rewrite decide_False; [done|]. apply H. left.
Qed.

Lemma assignedZ_Some windowMap order : ∀ index k p windowId,
  NoDup order →
  (∀ a b, windowMap !! a = Some k → windowMap !! b = Some k → a = b) →
  order !! p = Some windowId → windowMap !! windowId = Some k →
  assignedZ windowMap index order k
  = Some (baseZIndex + Z.of_nat (index + p) * 10)%Z.
Proof.
  induction order as [|x order IH]; intros index k p windowId Hnd Hinj Hp Hk;
    [done|].
  apply NoDup_cons in Hnd as [Hx Hnd]. simpl. destruct p as [|p].
  - injection Hp as ->. rewrite assignedZ_None.
    + rewrite decide_True by done. do 3 f_equal. lia.
    + intros y Hy Hyk. apply Hx. by rewrite (Hinj windowId y).
  - rewrite (IH (S index) k p windowId) by done. do 3 f_equal. lia.
Qed.

(** ** The recalculation *)

Lemma recalculate_popup s c :
  existingPopup s = Some c → recalculateWindowLayers s = s.
Proof. unfold recalculateWindowLayers. by intros ->. Qed.

Lemma recalculate_fields s :
  overlays (recalculateWindowLayers s) = overlays s
  ∧ activeWindows (recalculateWindowLayers s) = activeWindows s
  ∧ recentlyClosedWindows (recalculateWindowLayers s)
    = recentlyClosedWindows s
  ∧ timers (recalculateWindowLayers s) = timers s.
Proof. unfold recalculateWindowLayers. by destruct (existingPopup s). Qed.

Lemma recalculate_classes s :
  classes <$> dom (recalculateWindowLayers s) = classes <$> dom s.
Proof.
  unfold recalculateWindowLayers. destruct (existingPopup s); [done|].
  apply applyZIndices_classes.
Qed.

Lemma recalculate_NoDup s :
  NoDup (windowLayerOrder s) →
  NoDup (windowLayerOrder (recalculateWindowLayers s)).
Proof.
  intros H. unfold recalculateWindowLayers.
  destruct (existingPopup s); [done|]. simpl.
  by apply addNewWindows_NoDup, NoDup_filter.
Qed.

(** After a recalculation that is not skipped the layer order holds
    exactly the ids of the windows shown. *)
Lemma recalculate_order_elem_of s windowId :
  existingPopup s = None →
  windowId ∈ windowLayerOrder (recalculateWindowLayers s)
  ↔ windowId ∈ visibleIds s.
Proof.
  intros Hp. unfold recalculateWindowLayers. rewrite Hp. simpl.
  rewrite addNewWindows_elem_of, list_elem_of_filter, buildWindowMap_visible.
  split.
  - intros [[? _]|([i w] & Hin & <-)]; [done|].
    apply elem_of_allWindows in Hin as [? ?].
    apply elem_of_visibleIds. by exists i, w.
  - intros (i & w & Hl & Ha & <-)%elem_of_visibleIds. right.
    exists (i, w). split; [|done]. by apply elem_of_allWindows.
Qed.

(** When every shown window is in the order already, nothing is
    appended. *)
Lemma recalculate_order_filter s :
  existingPopup s = None →
  (∀ windowId, windowId ∈ visibleIds s → windowId ∈ windowLayerOrder s) →
  windowLayerOrder (recalculateWindowLayers s)
  = filter (λ windowId, windowId ∈ visibleIds s) (windowLayerOrder s).
Proof.
  intros Hp Hin. unfold recalculateWindowLayers. rewrite Hp. simpl.
  rewrite addNewWindows_id.
  - apply list_filter_iff. intros x. apply buildWindowMap_visible.
  - intros [i w] Hiw. simpl.
    apply elem_of_allWindows in Hiw as [Hl Ha].
    apply list_elem_of_filter. split.
    + by eapply buildWindowMap_is_Some.
    + apply Hin. apply elem_of_visibleIds. by exists i, w.
Qed.

(** The z-index a recalculation leaves on an element. *)
Lemma recalculate_dom_lookup s k :
  existingPopup s = None →
  dom (recalculateWindowLayers s) !! k
  = withZ (assignedZ (buildWindowMap (allWindows (dom s))) 0
             (windowLayerOrder (recalculateWindowLayers s)) k)
      <$> dom s !! k.
Proof.
  intros Hp. unfold recalculateWindowLayers. rewrite Hp. simpl.
  apply applyZIndices_lookup.
Qed.

(** ** Projections of the page *)

Lemma getWindowId_visibility w :
  getWindowId w = idOfAttributes (visibility w).1.
Proof. done. Qed.

Lemma ids_visibility (d1 d2 : list WindowEl) :
  visibility <$> d1 = visibility <$> d2 →
  getWindowId <$> d1 = getWindowId <$> d2.
Proof.
  intros H.
  change (((idOfAttributes ∘ fst) ∘ visibility) <$> d1
          = ((idOfAttributes ∘ fst) ∘ visibility) <$> d2).
  by rewrite !(list_fmap_compose visibility), H.
Qed.

Lemma visibility_classes (d1 d2 : list WindowEl) :
  classes <$> d1 = classes <$> d2 → visibility <$> d1 = visibility <$> d2.
Proof.
  intros H.
  change ((fst ∘ classes) <$> d1 = (fst ∘ classes) <$> d2).
  by rewrite !(list_fmap_compose classes), H.
Qed.

Lemma visibility_alter f w (d : list WindowEl) :
  (∀ x, visibility (f x) = visibility x) →
  visibility <$> alter f w d = visibility <$> d.
Proof.
  intros Hf. rewrite (list_fmap_alter visibility f id).
  - by apply list_alter_id.
  - apply Forall_forall. intros x _. apply Hf.
Qed.

Lemma visibility_focusAt w i win :
  visibility (focusAt w i win) = visibility win.
Proof.
  unfold focusAt. case_decide; [done|]. by destruct (cls_active win).
Qed.

Lemma visibility_imap_focusAt w (d : list WindowEl) :
  visibility <$> imap (focusAt w) d = visibility <$> d.
Proof.
  apply list_eq. intros k.
  rewrite !list_lookup_fmap, list_lookup_imap.
  destruct (d !! k); simpl; [|done]. by rewrite visibility_focusAt.
Qed.

Lemma visibility_recalculate s :
  visibility <$> dom (recalculateWindowLayers s) = visibility <$> dom s.
Proof. apply visibility_classes, recalculate_classes. Qed.

(** The [active] class after [alter addActive] and [alter removeActive]. *)
Lemma shownIds_addActive w d el windowId :
  d !! w = Some el →
  windowId ∈ shownIds (alter addActive w d) ↔
    windowId = getWindowId el ∨ windowId ∈ shownIds d.
Proof.
  intros Hw. rewrite !elem_of_shownIds. split.
  - intros (i & x & Hl & Ha & <-). rewrite list_lookup_alter in Hl.
    destruct (decide (w = i)) as [<-|Hne].
    + rewrite Hw in Hl. injection Hl as <-. by left.
    + right. by exists i, x.
  - intros [->|(i & x & Hl & Ha & <-)].
    + exists w, (addActive el). by rewrite list_lookup_alter_eq, Hw.
    + destruct (decide (w = i)) as [<-|Hne].
      * exists w, (addActive x). by rewrite list_lookup_alter_eq, Hl.
      * exists i, x. by rewrite list_lookup_alter_ne.
Qed.

Lemma shownIds_removeActive w d windowId :
  windowId ∈ shownIds (alter removeActive w d) ↔
    ∃ i x, i ≠ w ∧ d !! i = Some x ∧ cls_active x = true
           ∧ getWindowId x = windowId.
Proof.
  rewrite elem_of_shownIds. split.
  - intros (i & x & Hl & Ha & <-). rewrite list_lookup_alter in Hl.
    destruct (decide (w = i)) as [<-|Hne].
    + destruct (d !! w); simplify_eq/=.
    + by exists i, x.
  - intros (i & x & Hne & Hl & Ha & <-).
    exists i, x. by rewrite list_lookup_alter_ne.
Qed.

(** ** Bringing to front and focusing *)

Lemma bringWindowToFront_eq w b s el :
  dom s !! w = Some el →
  bringWindowToFront w b s
  = let s1 := recalculateWindowLayers (bringToFrontInput w el s) in
    withDom (imap (focusAt w) (dom s1)) s1.
Proof.
  intros Hw. unfold bringWindowToFront. rewrite Hw.
  fold (bringToFrontInput w el s). simpl. f_equal.
  apply list_eq. intros k.
  rewrite list_lookup_alter, !list_lookup_imap. unfold focusAt.
  destruct (decide (w = k)) as [<-|Hne].
  - destruct (dom (recalculateWindowLayers _) !! w) as [win|]; simpl; [|done].
    rewrite !decide_True by done. by destruct (cls_active win).
  - destruct (dom (recalculateWindowLayers _) !! k) as [win|]; simpl; [|done].
    by rewrite !decide_False by done.
Qed.

Lemma bringWindowToFront_outside w b s :
  dom s !! w = None → bringWindowToFront w b s = s.
Proof. unfold bringWindowToFront. by intros ->. Qed.

(** Apart from the flag for input focus, [focusWindow] on a window that
    is not suppressed is [bringWindowToFront]: what it does to the
    [focused] classes afterwards has been done already. *)
Lemma focusWindow_eq w s el :
  dom s !! w = Some el → data_window el ∉ recentlyClosedWindows s →
  focusWindow w s = bringWindowToFront w false s.
Proof.
  intros Hw Hs. unfold focusWindow. rewrite Hw, decide_False by done.
  rewrite (bringWindowToFront_eq w false s el Hw). simpl.
  unfold withDom. simpl. f_equal.
  apply list_eq. intros k.
  rewrite list_lookup_alter, !list_lookup_fmap, !list_lookup_imap.
  unfold focusAt. destruct (decide (w = k)) as [<-|Hne].
  - destruct (dom (recalculateWindowLayers _) !! w) as [win|]; simpl; [|done].
    rewrite !decide_True by done. by destruct win as [? ? [] ? ?].
  - destruct (dom (recalculateWindowLayers _) !! k) as [win|]; simpl; [|done].
    rewrite !decide_False by done. by destruct win as [? ? [] ? ?].
Qed.

Lemma focusWindow_suppressed w s el :
  dom s !! w = Some el → data_window el ∈ recentlyClosedWindows s →
  focusWindow w s = s.
Proof. intros Hw Hs. unfold focusWindow. by rewrite Hw, decide_True. Qed.

Lemma focusWindow_outside w s : dom s !! w = None → focusWindow w s = s.
Proof. unfold focusWindow. by intros ->. Qed.

Lemma bringWindowToFront_visibility w b s el :
  dom s !! w = Some el →
  visibility <$> dom (bringWindowToFront w b s)
  = visibility <$> alter addActive w (dom s).
Proof.
  intros Hw. rewrite (bringWindowToFront_eq w b s el Hw). simpl.
  by rewrite visibility_imap_focusAt, visibility_recalculate.
Qed.

Lemma bringWindowToFront_order w b s el :
  dom s !! w = Some el →
  windowLayerOrder (bringWindowToFront w b s)
  = windowLayerOrder (recalculateWindowLayers (bringToFrontInput w el s)).
Proof. intros Hw. by rewrite (bringWindowToFront_eq w b s el Hw). Qed.

(** ** The layer order stays consistent *)

Lemma ids_alter f w (d : list WindowEl) :
  (∀ x, getWindowId (f x) = getWindowId x) →
  getWindowId <$> alter f w d = getWindowId <$> d.
Proof.
  intros Hf. rewrite (list_fmap_alter getWindowId f id).
  - by apply list_alter_id.
  - apply Forall_forall. intros x _. apply Hf.
Qed.

Lemma ids_distinct (d : list WindowEl) i j x y :
  NoDup (getWindowId <$> d) → d !! i = Some x → d !! j = Some y →
  getWindowId x = getWindowId y → i = j.
Proof.
  intros Hnd Hi Hj Hid. eapply NoDup_lookup; [exact Hnd| |].
  - by rewrite list_lookup_fmap, Hi.
  - rewrite list_lookup_fmap, Hj. simpl. by rewrite Hid.
Qed.

Lemma consistent_initial page :
  wellFormedPage page → consistent (initial page).
Proof.
  intros [Hnd Hhidden]. split; [done|]. split; [apply NoDup_nil_2|].
  intros windowId (i & w & Hl & Ha & _)%elem_of_visibleIds. simpl in Hl.
  rewrite Forall_forall in Hhidden.
  rewrite Hhidden in Ha; [done|]. by eapply list_elem_of_lookup_2.
Qed.

Lemma raised_order_NoDup windowId order :
  NoDup order → NoDup (removeFromLayerOrder windowId order ++ [windowId]).
Proof.
  intros H. apply NoDup_app. split; [by apply removeFromLayerOrder_NoDup|].
  split; [|apply NoDup_singleton].
  intros x Hx ->%list_elem_of_singleton.
  by apply (removeFromLayerOrder_gone windowId order).
Qed.

Lemma bringWindowToFront_ids w b s :
  getWindowId <$> dom (bringWindowToFront w b s) = getWindowId <$> dom s.
Proof.
  destruct (dom s !! w) as [el|] eqn:Hw.
  - rewrite (ids_visibility _ _ (bringWindowToFront_visibility w b s el Hw)).
    by apply ids_alter.
  - by rewrite bringWindowToFront_outside.
Qed.

(** [bringWindowToFront] makes the state consistent even when the
    window it raises was shown without being in the order. *)
Lemma bringWindowToFront_consistent w b s :
  NoDup (getWindowId <$> dom s) → NoDup (windowLayerOrder s) →
  (∀ windowId, windowId ∈ visibleIds s →
     (∃ el, dom s !! w = Some el ∧ windowId = getWindowId el)
     ∨ windowId ∈ windowLayerOrder s) →
  consistent (bringWindowToFront w b s).
Proof.
  intros Hids Hnd Hvis. destruct (dom s !! w) as [el|] eqn:Hw.
  2:{ rewrite bringWindowToFront_outside by done.
      split; [done|]. split; [done|].
      intros x Hx. by destruct (Hvis x Hx) as [(? & ? & _)|]. }
  split; [by rewrite bringWindowToFront_ids|]. split.
  - rewrite (bringWindowToFront_order w b s el Hw).
    by apply recalculate_NoDup, raised_order_NoDup.
  - intros windowId. unfold visibleIds.
    rewrite (shownIds_visibility _ _
               (bringWindowToFront_visibility w b s el Hw)).
    rewrite (bringWindowToFront_order w b s el Hw).
    destruct (existingPopup (bringToFrontInput w el s)) as [c|] eqn:Hp.
    + rewrite (recalculate_popup _ c Hp). simpl.
      intros Hx.
      apply (shownIds_addActive w (dom s) el _ Hw) in Hx as [->|Hx].
      * apply elem_of_app. right. apply list_elem_of_here.
      * destruct (decide (windowId = getWindowId el)) as [->|Hne].
        { apply elem_of_app. right. apply list_elem_of_here. }
        apply elem_of_app. left. apply removeFromLayerOrder_other; [done|].
        destruct (Hvis windowId Hx) as [(el' & Hel' & ->)|]; [|done].
        congruence.
    + intros Hx. by apply recalculate_order_elem_of.
Qed.

Lemma closeWindow_eq w s el :
  dom s !! w = Some el →
  closeWindow w s
  = let s1 := recalculateWindowLayers (closeInput w el s) in
    mkOS (dom s1) (overlays s1) (activeWindows s1) (windowZIndex s1)
         (windowLayerOrder s1)
         ({[data_window el]} ∪ recentlyClosedWindows s1)
         (timers s1 ++ [RemoveRecentlyClosed (data_window el)]).
Proof. intros Hw. unfold closeWindow. by rewrite Hw. Qed.

Lemma closeWindow_outside w s : dom s !! w = None → closeWindow w s = s.
Proof. unfold closeWindow. by intros ->. Qed.

Lemma closeWindow_consistent w s :
  consistent s → consistent (closeWindow w s).
Proof.
  intros (Hids & Hnd & Hvis). destruct (dom s !! w) as [el|] eqn:Hw.
  2:{ by rewrite closeWindow_outside. }
  rewrite (closeWindow_eq w s el Hw). unfold consistent, visibleIds. simpl.
  rewrite (ids_visibility _ _ (visibility_recalculate _)).
  rewrite (shownIds_visibility _ _ (visibility_recalculate _)). simpl.
  split; [by rewrite ids_alter|]. split.
  - by apply recalculate_NoDup, removeFromLayerOrder_NoDup.
  - intros windowId Hx.
    destruct (existingPopup (closeInput w el s)) as [c|] eqn:Hp.
    + rewrite (recalculate_popup _ c Hp). simpl.
      apply shownIds_removeActive in Hx as (i & x & Hne & Hl & Ha & <-).
      apply removeFromLayerOrder_other.
      * intros Heq. apply Hne. by eapply ids_distinct.
      * apply Hvis, elem_of_visibleIds. by exists i, x.
    + by apply recalculate_order_elem_of.
Qed.

Lemma focusWindow_consistent w s :
  NoDup (getWindowId <$> dom s) → NoDup (windowLayerOrder s) →
  (∀ windowId, windowId ∈ visibleIds s →
     (∃ el, dom s !! w = Some el ∧ windowId = getWindowId el
            ∧ data_window el ∉ recentlyClosedWindows s)
     ∨ windowId ∈ windowLayerOrder s) →
  consistent (focusWindow w s).
Proof.
  intros Hids Hnd Hvis. destruct (dom s !! w) as [el|] eqn:Hw.
  2:{ rewrite focusWindow_outside by done. split; [done|]. split; [done|].
      intros x Hx. by destruct (Hvis x Hx) as [(? & ? & _)|]. }
  destruct (decide (data_window el ∈ recentlyClosedWindows s)) as [Hs|Hs].
  - rewrite (focusWindow_suppressed w s el) by done.
    split; [done|]. split; [done|].
    intros x Hx. destruct (Hvis x Hx) as [(el' & Hel' & _ & Hns)|]; [|done].
    by simplify_eq.
  - rewrite (focusWindow_eq w s el) by done.
    apply bringWindowToFront_consistent; [done..|].
    intros x Hx. destruct (Hvis x Hx) as [(el' & Hel' & -> & _)|]; [|by right].
    left. exists el'. split; [congruence|done].
Qed.

Lemma openWindow_consistent appName s :
  consistent s → consistent (openWindow appName s).
Proof.
  intros (Hids & Hnd & Hvis). unfold openWindow.
  destruct (queryDataWindow appName (dom s)) as [w|] eqn:Hq; [|done].
  case_decide as Hs; [done|]. case_decide as Ha.
  - apply focusWindow_consistent; [done..|]. intros x Hx. right. by apply Hvis.
  - unfold queryDataWindow in Hq.
    destruct (list_find _ (dom s)) as [[w' el]|] eqn:Hf; [|done].
    injection Hq as ->. apply list_find_Some in Hf as (Hl & Hdw & _).
    apply focusWindow_consistent; simpl.
    + by rewrite ids_alter.
    + done.
    + intros x Hx.
      apply (shownIds_addActive w (dom s) el _ Hl) in Hx as [->|Hx];
        [|by right; apply Hvis].
      left. exists (addActive el).
      rewrite list_lookup_alter_eq, Hl. simpl. by rewrite Hdw.
Qed.

Lemma timerFires_consistent n s :
  consistent s → consistent (timerFires n s).
Proof.
  intros (Hids & Hnd & Hvis). unfold timerFires.
  destruct (timers s !! n) as [[appName|w]|]; [done| |done]. simpl.
  destruct (dom s !! w) as [el|] eqn:Hw; [|done].
  split; [simpl; by rewrite ids_alter|]. split; [done|].
  intros x (i & y & _ & Hl & Ha & <-)%shownIds_removeActive. simpl.
  apply Hvis, elem_of_visibleIds. by exists i, y.
Qed.

Lemma step_consistent s e : consistent s → consistent (step s e).
Proof.
  intros Hc. destruct e; simpl.
  - by apply openWindow_consistent.
  - by apply closeWindow_consistent.
  - unfold minimizeWindow. by destruct (dom s !! window).
  - destruct Hc as (? & ? & Hvis).
    apply focusWindow_consistent; [done..|]. intros x Hx. right. by apply Hvis.
  - destruct Hc as (? & ? & Hvis).
    apply bringWindowToFront_consistent; [done..|].
    intros x Hx. right. by apply Hvis.
  - by apply timerFires_consistent.
  - done.
  - done.
  - destruct Hc as (Hids & Hnd & Hvis). unfold consistent, visibleIds. simpl.
    rewrite ids_alter by done.
    rewrite (shownIds_visibility _ (dom s))
      by (by apply visibility_alter).
    done.
Qed.

Lemma run_consistent events : ∀ s, consistent s → consistent (run s events).
Proof.
  induction events as [|e events IH]; intros s Hc; [done|].
  apply IH. by apply step_consistent.
Qed.

Lemma reachable_consistent s : reachable s → consistent s.
Proof.
  intros (page & events & Hpage & ->).
  by apply run_consistent, consistent_initial.
Qed.

Lemma reachable_initial page : wellFormedPage page → reachable (initial page).
Proof. intros H. by exists page, []. Qed.

Lemma reachable_step s e : reachable s → reachable (step s e).
Proof.
  intros (page & events & Hpage & ->). exists page, (events ++ [e]).
  split; [done|]. unfold run. by rewrite foldl_snoc.
Qed.

Lemma reachable_run s events : reachable s → reachable (run s events).
Proof.
  revert s. induction events as [|e events IH]; intros s H; [done|].
  apply IH. by apply reachable_step.
Qed.

Lemma samplePage_wellFormed : wellFormedPage samplePage.
Proof.
  split.
  - apply (bool_decide_unpack _). by vm_compute.
  - repeat constructor.
Qed.

(** ** The popup guard *)

Lemma existingPopup_Some s c :
  c ∈ overlays s → isPopup c = true → is_Some (existingPopup s).
Proof.
  unfold existingPopup. induction (overlays s) as [|c' l IH]; simpl.
  - by intros ?%elem_of_nil.
  - intros [->|Hin]%elem_of_cons Hc.
    + rewrite Hc. by eexists.
    + destruct (isPopup c'); [by eexists|]. by apply IH.
Qed.

(** C7.  While a rename, delete or remove-note popup is in the page,
    [recalculateWindowLayers] returns the state it was given: layer
    order, z-indices and everything else are untouched, however often
    it is called.  The guard is the first statement of the function. *)
Theorem popup_freezes_layers (s : OS) (c : OverlayClass) :
  c ∈ overlays s →
  c = rename_popup ∨ c = delete_popup ∨ c = remove_note_popup →
  recalculateWindowLayers s = s
  ∧ ∀ n, Nat.iter n recalculateWindowLayers s = s.
Proof.
  intros Hin Hc.
  assert (recalculateWindowLayers s = s) as Hs.
  { destruct (existingPopup_Some s c Hin) as [c' Hc'].
    - by destruct Hc as [->|[->| ->]].
    - by eapply recalculate_popup. }
  split; [done|]. induction n as [|n IH]; simpl; [done|]. by rewrite IH.
Qed.

Lemma popup_freezes_layers_witness :
  let s := run (initial samplePage)
             [EOpen "about"; EOpen "projects"; EShowOverlay other_overlay;
              EShowOverlay delete_popup; EDragZIndex 0] in
  zIndexOf s "about" = Some 10000%Z
  ∧ recalculateWindowLayers s = s.
Proof.
  intros s. split; [by vm_compute|].
  apply (popup_freezes_layers s delete_popup).
  - subst s. vm_compute. do 1 apply list_elem_of_further. apply list_elem_of_here.
  - right. by left.
Defined.

(** ** Minimizing and the layer order *)

(** C1 at its failing input.  After "about" has been opened and then
    minimized (the 400ms callback has run), no window is shown but the
    layer order still holds "about": [minimizeWindow] neither removes
    the id from [windowLayerOrder] nor recalculates, as [closeWindow]
    does. *)
Theorem minimize_leaves_layer_entry :
  let s := run (initial samplePage) [EOpen "about"; EMinimize 0; ETimer 0] in
  visibleIds s = [] ∧ windowLayerOrder s = ["about"].
Proof. by vm_compute. Qed.

(** The same sequence with [closeWindow] in place of [minimizeWindow]
    leaves the order empty. *)
Lemma close_prunes_layer_entry :
  let s := run (initial samplePage) [EOpen "about"; EClose 0] in
  visibleIds s = [] ∧ windowLayerOrder s = [].
Proof. by vm_compute. Qed.

(** ** Z-indices after a recalculation *)

Lemma list_find_unique (d : list WindowEl) k x :
  NoDup (getWindowId <$> d) → d !! k = Some x →
  list_find (λ w, getWindowId w = getWindowId x) d = Some (k, x).
Proof.
  intros Hnd Hk. apply list_find_Some. split; [done|]. split; [done|].
  intros j y Hj Hlt Hid.
  assert (j = k) by (by eapply ids_distinct). lia.
Qed.

Lemma zIndexIn_lookup (d : list WindowEl) k x :
  NoDup (getWindowId <$> d) → d !! k = Some x →
  zIndexIn d (getWindowId x) = style_zIndex x.
Proof.
  intros Hnd Hk. unfold zIndexIn. by rewrite (list_find_unique d k x).
Qed.

(** A shown window whose id stands at position [p] of the recalculated
    order gets the z-index of that position. *)
Lemma recalculate_z_at s k w p :
  NoDup (getWindowId <$> dom s) → NoDup (windowLayerOrder s) →
  existingPopup s = None →
  dom s !! k = Some w → cls_active w = true →
  windowLayerOrder (recalculateWindowLayers s) !! p = Some (getWindowId w) →
  dom (recalculateWindowLayers s) !! k
  = Some (setZIndex (baseZIndex + Z.of_nat p * 10) w).
Proof.
  intros Hids Hnd Hp Hk Ha Hpos.
  rewrite recalculate_dom_lookup, Hk by done. simpl. f_equal.
  rewrite (assignedZ_Some _ _ 0 k p (getWindowId w)); [done| | |done|].
  - by apply recalculate_NoDup.
  - intros a b. apply buildWindowMap_inj.
  - by apply buildWindowMap_lookup.
Qed.

Lemma recalculate_ids s :
  getWindowId <$> dom (recalculateWindowLayers s) = getWindowId <$> dom s.
Proof. apply ids_visibility, visibility_recalculate. Qed.

(** Every id of the recalculated order belongs to a shown window. *)
Lemma recalculate_order_shown s p windowId :
  existingPopup s = None →
  windowLayerOrder (recalculateWindowLayers s) !! p = Some windowId →
  ∃ k w, dom s !! k = Some w ∧ cls_active w = true
         ∧ getWindowId w = windowId.
Proof.
  intros Hp Hpos. apply elem_of_visibleIds.
  apply recalculate_order_elem_of; [done|]. by eapply list_elem_of_lookup_2.
Qed.

Lemma recalculate_zIndexOf s p windowId :
  NoDup (getWindowId <$> dom s) → NoDup (windowLayerOrder s) →
  existingPopup s = None →
  windowLayerOrder (recalculateWindowLayers s) !! p = Some windowId →
  zIndexOf (recalculateWindowLayers s) windowId
  = Some (baseZIndex + Z.of_nat p * zStep)%Z.
Proof.
  intros Hids Hnd Hp Hpos.
  destruct (recalculate_order_shown s p windowId Hp Hpos)
    as (k & w & Hk & Ha & <-).
  pose proof (recalculate_z_at s k w p Hids Hnd Hp Hk Ha Hpos) as Hz.
  unfold zIndexOf.
  change (getWindowId w) with (getWindowId (setZIndex (baseZIndex + Z.of_nat p * 10) w)).
  rewrite (zIndexIn_lookup _ k _); [done| |done].
  by rewrite recalculate_ids.
Qed.

Lemma recalculate_monotone s :
  NoDup (getWindowId <$> dom s) → NoDup (windowLayerOrder s) →
  existingPopup s = None →
  layersMonotone (recalculateWindowLayers s).
Proof.
  intros Hids Hnd Hp. split.
  - intros i j a b Hij Hi Hj.
    exists (baseZIndex + Z.of_nat i * zStep)%Z,
           (baseZIndex + Z.of_nat j * zStep)%Z.
    split; [by apply recalculate_zIndexOf|].
    split; [by apply recalculate_zIndexOf|].
    unfold zStep. repeat split; lia.
  - intros w1 w2 e1 e2 Hne H1 H2 Ha1 Ha2.
    assert (∀ k e, dom (recalculateWindowLayers s) !! k = Some e →
                   cls_active e = true →
                   ∃ x p, dom s !! k = Some x ∧ cls_active x = true
                          ∧ windowLayerOrder (recalculateWindowLayers s) !! p
                            = Some (getWindowId x)
                          ∧ style_zIndex e
                            = Some (baseZIndex + Z.of_nat p * 10)%Z)
      as Hz.
    { intros k e Hk Ha.
      pose proof (recalculate_dom_lookup s k Hp) as Hl. rewrite Hk in Hl.
      destruct (dom s !! k) as [x|] eqn:Hx; [|done].
      injection Hl as ->.
      assert (cls_active x = true) as Hax.
      { pose proof (withZ_classes (assignedZ (buildWindowMap (allWindows (dom s))) 0 (windowLayerOrder (recalculateWindowLayers s)) k) x) as Hc.
        unfold classes in Hc. injection Hc as _ _ Hc _. congruence. }
      assert (getWindowId x ∈ windowLayerOrder (recalculateWindowLayers s))
        as Hin.
      { apply recalculate_order_elem_of; [done|].
        apply elem_of_visibleIds. by exists k, x. }
      apply list_elem_of_lookup_1 in Hin as [p Hpos].
      exists x, p. split; [done|]. split; [done|]. split; [done|].
      pose proof (recalculate_z_at s k x p Hids Hnd Hp Hx Hax Hpos) as Hz.
      rewrite Hk in Hz. by injection Hz as ->. }
    destruct (Hz w1 e1 H1 Ha1) as (x1 & p1 & Hx1 & _ & Hp1 & Hz1).
    destruct (Hz w2 e2 H2 Ha2) as (x2 & p2 & Hx2 & _ & Hp2 & Hz2).
    eexists _, _. split; [exact Hz1|]. split; [exact Hz2|].
    intros Heq. assert (p1 = p2) as -> by lia.
    apply Hne. eapply ids_distinct; [exact Hids|exact Hx1|exact Hx2|].
    congruence.
Qed.

(** The stacking is read from ids, [active] classes and z-indices. *)
Lemma zIndexIn_layer (d1 d2 : list WindowEl) windowId :
  layer <$> d1 = layer <$> d2 → zIndexIn d1 windowId = zIndexIn d2 windowId.
Proof.
  intros H.
  assert (∀ d : list WindowEl,
            zIndexIn d windowId
            = match list_find (λ l : string * string * bool * option Z,
                                 idOfAttributes l.1.1 = windowId)
                              (layer <$> d) with
              | Some (_, l) => l.2
              | None => None
              end) as Halt.
  { intros d. rewrite list_find_fmap. unfold zIndexIn.
    change (λ w, getWindowId w = windowId)
      with ((λ l : string * string * bool * option Z,
               idOfAttributes l.1.1 = windowId) ∘ layer).
    by destruct (list_find _ d) as [[? ?]|]. }
  by rewrite !Halt, H.
Qed.

Lemma layersMonotoneIn_layer (d1 d2 : list WindowEl) order :
  layer <$> d1 = layer <$> d2 →
  layersMonotoneIn d1 order → layersMonotoneIn d2 order.
Proof.
  intros H [Hz Hd]. split.
  - intros i j a b Hij Hi Hj.
    destruct (Hz i j a b Hij Hi Hj) as (za & zb & Ha & Hb & Hrest).
    exists za, zb. by rewrite <- !(zIndexIn_layer d1 d2).
  - intros w1 w2 e1 e2 Hne H1 H2 Ha1 Ha2.
    assert (∀ k e, d2 !! k = Some e →
                   ∃ x, d1 !! k = Some x ∧ layer x = layer e) as Hx.
    { intros k e Hk.
      assert ((layer <$> d1) !! k = Some (layer e)) as Hl
        by (by rewrite H, list_lookup_fmap, Hk).
      rewrite list_lookup_fmap in Hl.
      destruct (d1 !! k) as [x|]; [|done]. exists x. split; [done|].
      simpl in Hl. congruence. }
    destruct (Hx w1 e1 H1) as (x1 & Hx1 & Hl1).
    destruct (Hx w2 e2 H2) as (x2 & Hx2 & Hl2).
    injection Hl1 as _ _ Hact1 Hzi1. injection Hl2 as _ _ Hact2 Hzi2.
    rewrite <- Hzi1, <- Hzi2.
    apply (Hd w1 w2 x1 x2); congruence.
Qed.

Lemma layer_imap_focusAt w (d : list WindowEl) :
  layer <$> imap (focusAt w) d = layer <$> d.
Proof.
  apply list_eq. intros k.
  rewrite !list_lookup_fmap, list_lookup_imap.
  destruct (d !! k) as [win|]; simpl; [|done]. f_equal.
  unfold focusAt. case_decide; [done|]. by destruct (cls_active win).
Qed.

Lemma bringWindowToFront_monotone w b s el :
  NoDup (getWindowId <$> dom s) → NoDup (windowLayerOrder s) →
  existingPopup s = None → dom s !! w = Some el →
  layersMonotone (bringWindowToFront w b s).
Proof.
  intros Hids Hnd Hp Hw.
  rewrite (bringWindowToFront_eq w b s el Hw). unfold layersMonotone. simpl.
  eapply layersMonotoneIn_layer; [symmetry; apply layer_imap_focusAt|].
  apply recalculate_monotone; simpl.
  - by rewrite ids_alter.
  - by apply raised_order_NoDup.
  - done.
Qed.

Lemma closeWindow_monotone w s el :
  NoDup (getWindowId <$> dom s) → NoDup (windowLayerOrder s) →
  existingPopup s = None → dom s !! w = Some el →
  layersMonotone (closeWindow w s).
Proof.
  intros Hids Hnd Hp Hw.
  rewrite (closeWindow_eq w s el Hw). unfold layersMonotone. simpl.
  apply recalculate_monotone; simpl.
  - by rewrite ids_alter.
  - by apply removeFromLayerOrder_NoDup.
  - done.
Qed.

(** C2.  A recalculation that is not skipped, on a state whose layer
    order has no duplicates and whose window ids are pairwise distinct,
    leaves the window at position [i] of the layer order with z-index
    [baseZIndex + i * 10]: for [i < j] the z-index at [i] is strictly
    less than the one at [j], and no two shown windows share a z-index.
    Every reachable state is such a state, and so is every state the
    handlers pass to the recalculation: after each event that
    recalculates, the resulting state has the property. *)
Theorem z_index_monotonic :
  (∀ s, NoDup (getWindowId <$> dom s) → NoDup (windowLayerOrder s) →
        existingPopup s = None →
        layersMonotone (recalculateWindowLayers s))
  ∧ (∀ s e, reachable s → recalculates s e = true →
            layersMonotone (step s e)).
Proof.
  split; [exact recalculate_monotone|].
  intros s e (Hids & Hnd & Hvis)%reachable_consistent Hr.
  unfold recalculates in Hr.
  destruct (existingPopup s) eqn:Hp; [done|].
  destruct e; simpl in *; try done.
  - apply andb_true_iff in Hr as [[w Hq]%bool_decide_eq_true
                                  Hs%bool_decide_eq_true].
    unfold openWindow. rewrite Hq, decide_False by done.
    unfold queryDataWindow in Hq.
    destruct (list_find _ (dom s)) as [[w' el]|] eqn:Hf; [|done].
    injection Hq as ->. apply list_find_Some in Hf as (Hl & Hdw & _).
    case_decide.
    + rewrite (focusWindow_eq w s el) by (done || congruence).
      by eapply bringWindowToFront_monotone.
    + rewrite (focusWindow_eq w _ (addActive el)); simpl.
      * eapply bringWindowToFront_monotone; simpl; [|done|done|].
        -- by rewrite ids_alter.
        -- by rewrite list_lookup_alter_eq, Hl.
      * by rewrite list_lookup_alter_eq, Hl.
      * congruence.
  - apply bool_decide_eq_true in Hr as [el Hw].
    by eapply closeWindow_monotone.
  - destruct (dom s !! window) as [el|] eqn:Hw; [|done].
    apply bool_decide_eq_true in Hr.
    rewrite (focusWindow_eq window s el) by done.
    by eapply bringWindowToFront_monotone.
  - apply bool_decide_eq_true in Hr as [el Hw].
    by eapply bringWindowToFront_monotone.
Qed.

Lemma z_index_monotonic_witness :
  layersMonotone
    (step (run (initial samplePage) [EOpen "about"; EOpen "projects"])
          (EFocus 0)).
Proof.
  apply z_index_monotonic.
  - apply reachable_run, reachable_initial, samplePage_wellFormed.
  - by vm_compute.
Defined.

(** ** What the operations leave alone *)

Lemma attributes_visibility (d1 d2 : list WindowEl) :
  visibility <$> d1 = visibility <$> d2 →
  attributes <$> d1 = attributes <$> d2.
Proof.
  intros H. change ((fst ∘ visibility) <$> d1 = (fst ∘ visibility) <$> d2).
  by rewrite !(list_fmap_compose visibility), H.
Qed.

Lemma attributes_alter f w (d : list WindowEl) :
  (∀ x, attributes (f x) = attributes x) →
  attributes <$> alter f w d = attributes <$> d.
Proof.
  intros Hf. rewrite (list_fmap_alter attributes f id).
  - by apply list_alter_id.
  - apply Forall_forall. intros x _. apply Hf.
Qed.

Lemma bringWindowToFront_fields w b s :
  attributes <$> dom (bringWindowToFront w b s) = attributes <$> dom s
  ∧ overlays (bringWindowToFront w b s) = overlays s
  ∧ activeWindows (bringWindowToFront w b s) = activeWindows s
  ∧ recentlyClosedWindows (bringWindowToFront w b s)
    = recentlyClosedWindows s
  ∧ timers (bringWindowToFront w b s) = timers s.
Proof.
  destruct (dom s !! w) as [el|] eqn:Hw.
  2:{ by rewrite bringWindowToFront_outside. }
  split.
  { rewrite (attributes_visibility _ _
               (bringWindowToFront_visibility w b s el Hw)).
    by apply attributes_alter. }
  rewrite (bringWindowToFront_eq w b s el Hw). simpl.
  apply (recalculate_fields (bringToFrontInput w el s)).
Qed.

Lemma focusWindow_fields w s :
  attributes <$> dom (focusWindow w s) = attributes <$> dom s
  ∧ overlays (focusWindow w s) = overlays s
  ∧ activeWindows (focusWindow w s) = activeWindows s
  ∧ recentlyClosedWindows (focusWindow w s) = recentlyClosedWindows s
  ∧ timers (focusWindow w s) = timers s.
Proof.
  destruct (dom s !! w) as [el|] eqn:Hw.
  2:{ by rewrite focusWindow_outside. }
  destruct (decide (data_window el ∈ recentlyClosedWindows s)).
  - by rewrite (focusWindow_suppressed w s el).
  - rewrite (focusWindow_eq w s el) by done. apply bringWindowToFront_fields.
Qed.

Lemma openWindow_fields appName s :
  attributes <$> dom (openWindow appName s) = attributes <$> dom s
  ∧ overlays (openWindow appName s) = overlays s
  ∧ recentlyClosedWindows (openWindow appName s) = recentlyClosedWindows s
  ∧ timers (openWindow appName s) = timers s.
Proof.
  unfold openWindow.
  destruct (queryDataWindow appName (dom s)) as [w|]; [|done].
  case_decide; [done|]. case_decide.
  - destruct (focusWindow_fields w s) as (? & ? & _ & ? & ?). done.
  - match goal with |- context [focusWindow w ?s1] =>
      destruct (focusWindow_fields w s1) as (Ha & ? & _ & ? & ?) end.
    simpl in *. rewrite Ha. split; [|done]. by apply attributes_alter.
Qed.






(** An element keeps its place and its [data-window] attribute. *)
Lemma attributes_lookup (d1 d2 : list WindowEl) w el :
  attributes <$> d1 = attributes <$> d2 → d2 !! w = Some el →
  ∃ el', d1 !! w = Some el' ∧ attributes el' = attributes el.
Proof.
  intros H Hw.
  assert ((attributes <$> d1) !! w = Some (attributes el)) as Hl
    by (by rewrite H, list_lookup_fmap, Hw).
  rewrite list_lookup_fmap in Hl.
  destruct (d1 !! w) as [el'|]; [|done]. exists el'. split; [done|].
  simpl in Hl. congruence.
Qed.

Lemma queryDataWindow_attributes (d1 d2 : list WindowEl) appName :
  attributes <$> d1 = attributes <$> d2 →
  queryDataWindow appName d1 = queryDataWindow appName d2.
Proof.
  intros H.
  assert (∀ d : list WindowEl,
            queryDataWindow appName d
            = fst <$> list_find (λ a : string * string, a.2 = appName)
                                (attributes <$> d)) as Halt.
  { intros d. rewrite list_find_fmap. unfold queryDataWindow.
    change (λ w, data_window w = appName)
      with ((λ a : string * string, a.2 = appName) ∘ attributes).
    by destruct (list_find _ d) as [[? ?]|]. }
  by rewrite !Halt, H.
Qed.

Lemma queryDataWindow_Some appName (d : list WindowEl) w :
  queryDataWindow appName d = Some w →
  ∃ el, d !! w = Some el ∧ data_window el = appName.
Proof.
  unfold queryDataWindow.
  destruct (list_find _ d) as [[w' el]|] eqn:Hf; [|done].
  intros [= ->]. apply list_find_Some in Hf as (? & ? & _). by exists el.
Qed.


(** ** What a successful raise leaves *)

Lemma bringToFrontInput_covers w el s windowId :
  dom s !! w = Some el →
  (∀ x, x ∈ visibleIds s → x = getWindowId el ∨ x ∈ windowLayerOrder s) →
  windowId ∈ visibleIds (bringToFrontInput w el s) →
  windowId ∈ windowLayerOrder (bringToFrontInput w el s).
Proof.
  intros Hw Hvis Hx. unfold visibleIds in Hx. simpl in *.
  destruct (decide (windowId = getWindowId el)) as [->|Hne].
  { apply elem_of_app. right. apply list_elem_of_here. }
  apply (shownIds_addActive w (dom s) el _ Hw) in Hx as [->|Hx]; [done|].
  apply elem_of_app. left. apply removeFromLayerOrder_other; [done|].
  by destruct (Hvis windowId Hx).
Qed.

Lemma bringToFrontInput_shown w el s :
  dom s !! w = Some el →
  getWindowId el ∈ visibleIds (bringToFrontInput w el s).
Proof.
  intros Hw. unfold visibleIds. simpl.
  apply (shownIds_addActive w (dom s) el _ Hw). by left.
Qed.

(** The raised window's id ends the order. *)
Lemma bringWindowToFront_order_snoc w b s el :
  dom s !! w = Some el →
  (∀ x, x ∈ visibleIds s → x = getWindowId el ∨ x ∈ windowLayerOrder s) →
  ∃ front, windowLayerOrder (bringWindowToFront w b s)
           = front ++ [getWindowId el].
Proof.
  intros Hw Hvis. rewrite (bringWindowToFront_order w b s el Hw).
  destruct (existingPopup (bringToFrontInput w el s)) as [c|] eqn:Hp.
  - rewrite (recalculate_popup _ c Hp). simpl. by eexists.
  - rewrite recalculate_order_filter;
      [|done|intros x; by apply bringToFrontInput_covers].
    simpl. rewrite filter_app, filter_cons_True, filter_nil.
    + by eexists.
    + by apply bringToFrontInput_shown.
Qed.

Lemma bringWindowToFront_lookup w b s el k :
  dom s !! w = Some el →
  ∃ z,
    dom (bringWindowToFront w b s) !! k
    = (focusAt w k ∘ withZ z) <$> alter addActive w (dom s) !! k.
Proof.
  intros Hw. rewrite (bringWindowToFront_eq w b s el Hw). simpl.
  rewrite list_lookup_imap.
  destruct (existingPopup (bringToFrontInput w el s)) as [c|] eqn:Hp.
  - rewrite (recalculate_popup _ c Hp). simpl. exists None.
    by destruct (alter addActive w (dom s) !! k).
  - rewrite recalculate_dom_lookup by done. simpl.
    eexists. by rewrite <- option_fmap_compose.
Qed.

Lemma bringWindowToFront_raised w b s el :
  dom s !! w = Some el →
  (∀ x, x ∈ visibleIds s → x = getWindowId el ∨ x ∈ windowLayerOrder s) →
  raised w (bringWindowToFront w b s).
Proof.
  intros Hw Hvis. unfold raised, isActive, isFocused.
  destruct (bringWindowToFront_lookup w b s el w Hw) as [z Hz].
  rewrite list_lookup_alter_eq, Hw in Hz. simpl in Hz.
  rewrite Hz. simpl. unfold focusAt at 1 2. rewrite !decide_True by done.
  split; [by destruct z|]. split; [by destruct z|]. split.
  - intros other Hne.
    destruct (bringWindowToFront_lookup w b s el other Hw) as [z' Hz'].
    rewrite Hz'. rewrite list_lookup_alter_ne by done.
    destruct (dom s !! other) as [y|]; simpl; [|done].
    unfold focusAt. rewrite decide_False by done.
    by destruct z', y as [? ? [] ? ?].
  - eexists. split; [done|].
    destruct (bringWindowToFront_order_snoc w b s el Hw Hvis) as [front ->].
    rewrite last_snoc. unfold focusAt. rewrite decide_True by done.
    by destruct z.
Qed.

(** ** Suppression *)

Lemma openWindow_suppressed appName s :
  appName ∈ recentlyClosedWindows s → openWindow appName s = s.
Proof.
  intros H. unfold openWindow.
  destruct (queryDataWindow appName (dom s)); [|done].
  by rewrite decide_True.
Qed.





(** ** Opening and focusing with success *)

Lemma focusWindow_raises w s el :
  consistent s → dom s !! w = Some el →
  data_window el ∉ recentlyClosedWindows s →
  raised w (focusWindow w s).
Proof.
  intros (_ & _ & Hvis) Hw Hs. rewrite (focusWindow_eq w s el Hw Hs).
  apply (bringWindowToFront_raised w false s el Hw).
  intros x Hx. right. by apply Hvis.
Qed.

Lemma openWindow_raises appName s w :
  consistent s → queryDataWindow appName (dom s) = Some w →
  appName ∉ recentlyClosedWindows s →
  raised w (openWindow appName s)
  ∧ appName ∈ activeWindows (openWindow appName s).
Proof.
  intros Hc Hq Hs. unfold openWindow. rewrite Hq, decide_False by done.
  apply queryDataWindow_Some in Hq as (el & Hw & <-).
  case_decide as Ha.
  - split; [by eapply focusWindow_raises|].
    by destruct (focusWindow_fields w s) as (_ & _ & -> & _).
  - match goal with |- context [focusWindow w ?s1] => set (opened := s1) end.
    assert (dom opened !! w = Some (addActive el)) as Hw'
      by (subst opened; simpl; by rewrite list_lookup_alter_eq, Hw).
    split.
    + rewrite (focusWindow_eq w opened (addActive el) Hw' Hs).
      apply (bringWindowToFront_raised w false opened _ Hw').
      intros x Hx. unfold visibleIds in Hx. subst opened. simpl in *.
      apply (shownIds_addActive w (dom s) el _ Hw) in Hx as [->|Hx];
        [by left|].
      right. by apply Hc.
    + destruct (focusWindow_fields w opened) as (_ & _ & -> & _).
      subst opened. simpl. apply elem_of_union. left.
      by apply elem_of_singleton.
Qed.



(** ** Minimizing *)






(** ** Raising a window twice *)

Lemma visibility_lookup (d1 d2 : list WindowEl) k x :
  visibility <$> d1 = visibility <$> d2 → d1 !! k = Some x →
  ∃ y, d2 !! k = Some y ∧ visibility y = visibility x.
Proof.
  intros H Hk.
  assert ((visibility <$> d2) !! k = Some (visibility x)) as Hl
    by (by rewrite <- H, list_lookup_fmap, Hk).
  rewrite list_lookup_fmap in Hl.
  destruct (d2 !! k) as [y|]; [|done]. exists y. split; [done|].
  simpl in Hl. congruence.
Qed.

Lemma buildWindowMap_visibility (d1 d2 : list WindowEl) :
  NoDup (getWindowId <$> d1) →
  visibility <$> d1 = visibility <$> d2 →
  buildWindowMap (allWindows d1) = buildWindowMap (allWindows d2).
Proof.
  intros Hnd H.
  assert (NoDup (getWindowId <$> d2)) as Hnd2
    by (by rewrite <- (ids_visibility _ _ H)).
  assert (∀ (da db : list WindowEl) windowId i,
            NoDup (getWindowId <$> db) →
            visibility <$> da = visibility <$> db →
            buildWindowMap (allWindows da) !! windowId = Some i →
            buildWindowMap (allWindows db) !! windowId = Some i) as Hdir.
  { intros da db windowId i Hndb Hv (x & Hx & Ha & <-)%buildWindowMap_Some.
    destruct (visibility_lookup da db i x Hv Hx) as (y & Hy & Hvy).
    rewrite (getWindowId_visibility x), <- Hvy, <- getWindowId_visibility.
    apply buildWindowMap_lookup; [done..|].
    injection Hvy as _ _ ->. done. }
  apply map_eq. intros windowId. apply option_eq. intros i. split.
  - by apply Hdir.
  - by apply Hdir.
Qed.

Lemma filter_Forall_id {A} (P : A → Prop) `{!∀ x, Decision (P x)}
    (l : list A) :
  Forall P l → filter P l = l.
Proof.
  induction 1 as [|x l Hx _ IH]; [done|].
  by rewrite filter_cons_True, IH.
Qed.

Lemma recalculate_unfold s :
  existingPopup s = None →
  recalculateWindowLayers s
  = mkOS (applyZIndices (buildWindowMap (allWindows (dom s))) 0
            (windowLayerOrder (recalculateWindowLayers s)) (dom s))
         (overlays s) (activeWindows s)
         (baseZIndex
          + Z.of_nat (length (windowLayerOrder (recalculateWindowLayers s)))
            * 10)
         (windowLayerOrder (recalculateWindowLayers s))
         (recentlyClosedWindows s) (timers s).
Proof. intros Hp. unfold recalculateWindowLayers. by rewrite Hp. Qed.

Lemma recalculate_windowZIndex s :
  existingPopup s = None →
  windowZIndex (recalculateWindowLayers s)
  = (baseZIndex
     + Z.of_nat (length (windowLayerOrder (recalculateWindowLayers s))) * 10)%Z.
Proof. intros Hp. unfold recalculateWindowLayers. by rewrite Hp. Qed.

Lemma OS_eq s1 s2 :
  dom s1 = dom s2 → overlays s1 = overlays s2 →
  activeWindows s1 = activeWindows s2 → windowZIndex s1 = windowZIndex s2 →
  windowLayerOrder s1 = windowLayerOrder s2 →
  recentlyClosedWindows s1 = recentlyClosedWindows s2 →
  timers s1 = timers s2 → s1 = s2.
Proof. destruct s1, s2. simpl. by intros -> -> -> -> -> -> ->. Qed.

(** A recalculation right after a recalculation changes nothing, also
    when the [focused] classes were set in between. *)
Lemma recalculate_again s w :
  NoDup (getWindowId <$> dom s) → NoDup (windowLayerOrder s) →
  recalculateWindowLayers
    (withDom (imap (focusAt w) (dom (recalculateWindowLayers s)))
             (recalculateWindowLayers s))
  = withDom (imap (focusAt w) (dom (recalculateWindowLayers s)))
            (recalculateWindowLayers s).
Proof.
  intros Hids Hnd.
  destruct (existingPopup s) as [c|] eqn:Hp.
  { rewrite !(recalculate_popup s c Hp). by eapply recalculate_popup. }
  remember (recalculateWindowLayers s) as r eqn:Hr.
  remember (withDom (imap (focusAt w) (dom r)) r) as s1 eqn:Hs1.
  assert (existingPopup s1 = None) as Hp1.
  { unfold existingPopup. rewrite Hs1, Hr. simpl.
    destruct (recalculate_fields s) as (-> & _). done. }
  assert (visibility <$> dom s1 = visibility <$> dom s) as Hvis.
  { rewrite Hs1, Hr. simpl.
    by rewrite visibility_imap_focusAt, visibility_recalculate. }
  assert (windowLayerOrder s1 = windowLayerOrder r) as Ho1
    by (by rewrite Hs1).
  assert (windowLayerOrder (recalculateWindowLayers s1)
          = windowLayerOrder r) as Horder.
  { assert (∀ x, x ∈ visibleIds s1 ↔ x ∈ windowLayerOrder s1) as Hiff.
    { intros x. unfold visibleIds.
      rewrite (shownIds_visibility _ _ Hvis), Ho1, Hr. symmetry.
      by apply recalculate_order_elem_of. }
    rewrite recalculate_order_filter; [|done|by intros x ?%Hiff].
    rewrite <- Ho1.
    apply filter_Forall_id, Forall_forall. intros x Hx. by apply Hiff. }
  destruct (recalculate_fields s1) as (Ef1 & Ef2 & Ef3 & Ef4).
  apply OS_eq; try done.
  - apply list_eq. intros k.
    rewrite recalculate_dom_lookup, Horder by done.
    rewrite (buildWindowMap_visibility (dom s1) (dom s));
      [|by rewrite (ids_visibility _ _ Hvis)|done].
    pose proof (recalculate_dom_lookup s k Hp) as Hdk. rewrite <- Hr in Hdk.
    rewrite Hs1. simpl. rewrite list_lookup_imap, !Hdk.
    destruct (dom s !! k) as [y|]; simpl; [|done]. f_equal.
    destruct (assignedZ _ 0 (windowLayerOrder r) k); simpl; [|done].
    unfold focusAt. case_decide; [done|].
    by destruct y as [? ? [] ? ?].
  - rewrite recalculate_windowZIndex, Horder by done.
    rewrite Hs1. simpl. rewrite Hr.
    by rewrite recalculate_windowZIndex.
  - by rewrite Horder, Ho1.
Qed.

Lemma focusAt_again w (d : list WindowEl) :
  imap (focusAt w) (imap (focusAt w) d) = imap (focusAt w) d.
Proof.
  apply list_eq. intros k. rewrite !list_lookup_imap.
  destruct (d !! k) as [y|]; simpl; [|done]. f_equal.
  unfold focusAt. case_decide; [done|]. by destruct y as [? ? [] ? ?].
Qed.

Lemma alter_addActive_shown w (d : list WindowEl) el :
  d !! w = Some el → cls_active el = true → alter addActive w d = d.
Proof.
  intros Hw Ha. apply list_eq. intros k. rewrite list_lookup_alter.
  case_decide as Hk; [|done]. subst k. rewrite Hw. simpl. f_equal.
  destruct el. simpl in *. by subst.
Qed.

(** [bringWindowToFront] on the window it has just raised returns the
    same state. *)
Lemma bringWindowToFront_again w b b' s el :
  NoDup (getWindowId <$> dom s) → NoDup (windowLayerOrder s) →
  (∀ x, x ∈ visibleIds s → x = getWindowId el ∨ x ∈ windowLayerOrder s) →
  dom s !! w = Some el →
  bringWindowToFront w b' (bringWindowToFront w b s)
  = bringWindowToFront w b s.
Proof.
  intros Hids Hnd Hvis Hw.
  set (s1 := bringWindowToFront w b s).
  destruct (bringWindowToFront_raised w b s el Hw Hvis)
    as (Hact & _ & _ & el1 & Hw1 & Hlast).
  fold s1 in Hact, Hw1, Hlast.
  unfold isActive in Hact. rewrite Hw1 in Hact. simpl in Hact.
  assert (NoDup (windowLayerOrder s1)) as Hnd1.
  { apply (bringWindowToFront_consistent w b s); [done..|].
    intros x Hx. destruct (Hvis x Hx) as [->|?]; [|by right].
    left. by exists el. }
  apply last_Some in Hlast as [front Hfront].
  assert (bringToFrontInput w el1 s1 = s1) as Hin.
  { unfold bringToFrontInput.
    rewrite (alter_addActive_shown w _ el1) by done.
    rewrite Hfront, removeFromLayerOrder_snoc, <- Hfront; [by destruct s1|].
    rewrite Hfront in Hnd1. apply NoDup_app in Hnd1 as (_ & Hd & _).
    intros Hx. apply (Hd _ Hx). apply list_elem_of_here. }
  rewrite (bringWindowToFront_eq w b' s1 el1 Hw1), Hin. simpl.
  unfold s1 at 1 2 3. rewrite (bringWindowToFront_eq w b s el Hw). simpl.
  rewrite recalculate_again.
  - simpl. rewrite focusAt_again. done.
  - simpl. by rewrite ids_alter.
  - by apply raised_order_NoDup.
Qed.

(** ** Opening twice *)

Lemma occurrences_notin windowId order :
  windowId ∉ order → occurrences windowId order = 0.
Proof.
  unfold occurrences. induction order as [|x l IH]; [done|].
  intros [Hne Hl]%not_elem_of_cons.
  rewrite filter_cons_False by congruence. by apply IH.
Qed.

Lemma occurrences_NoDup windowId order :
  NoDup order → windowId ∈ order → occurrences windowId order = 1.
Proof.
  induction 1 as [|x l Hx Hl IH]; [by intros ?%elem_of_nil|].
  intros [->|Hin]%elem_of_cons; unfold occurrences.
  - rewrite filter_cons_True by done. simpl. f_equal.
    by apply occurrences_notin.
  - rewrite filter_cons_False; [by apply IH|]. by intros ->.
Qed.

(** An [openWindow] that is not suppressed ends in
    [bringWindowToFront] of the window it found, from a state in which
    only that window may be shown without being in the layer order. *)
Lemma openWindow_as_raise appName s w el :
  consistent s → queryDataWindow appName (dom s) = Some w →
  dom s !! w = Some el → appName ∉ recentlyClosedWindows s →
  ∃ s0 el0,
    openWindow appName s = bringWindowToFront w false s0
    ∧ dom s0 !! w = Some el0
    ∧ getWindowId el0 = getWindowId el
    ∧ NoDup (getWindowId <$> dom s0) ∧ NoDup (windowLayerOrder s0)
    ∧ (∀ x, x ∈ visibleIds s0 →
            x = getWindowId el0 ∨ x ∈ windowLayerOrder s0).
Proof.
  intros (Hids & Hnd & Hvis) Hq Hw Hs.
  pose proof (queryDataWindow_Some _ _ _ Hq) as (el' & Hw' & Hdw).
  assert (el' = el) as -> by congruence.
  unfold openWindow. rewrite Hq, decide_False by done. case_decide.
  - exists s, el. rewrite (focusWindow_eq w s el) by (done || congruence).
    repeat split; try done. intros x Hx. right. by apply Hvis.
  - match goal with |- context [focusWindow w ?s1] => set (opened := s1) end.
    assert (dom opened !! w = Some (addActive el)) as Hwo
      by (subst opened; simpl; by rewrite list_lookup_alter_eq, Hw).
    exists opened, (addActive el).
    rewrite (focusWindow_eq w opened (addActive el)); [|done|simpl; congruence].
    repeat split; try done.
    + subst opened. simpl. by rewrite ids_alter.
    + intros x Hx. unfold visibleIds in Hx. subst opened. simpl in *.
      apply (shownIds_addActive w (dom s) el _ Hw) in Hx as [->|Hx];
        [by left|].
      right. by apply Hvis.
Qed.

(** C4.  From any reachable state, a second [openWindow(appName)] right
    after the first resolves the same window element and returns the
    state the first one left, so nothing is created or revealed and the
    layer order is as after the first call.  When the key has a window
    and is not suppressed, the second call is nothing but a
    [focusWindow] of that window, whose id stands exactly once in the
    layer order, at its end. *)
Theorem open_twice_is_open_once (s : OS) (appName : string) :
  reachable s →
  let s1 := openWindow appName s in
  let s2 := openWindow appName s1 in
  queryDataWindow appName (dom s1) = queryDataWindow appName (dom s)
  ∧ s2 = s1
  ∧ ∀ w el,
      queryDataWindow appName (dom s) = Some w → dom s !! w = Some el →
      appName ∉ recentlyClosedWindows s →
      s2 = focusWindow w s1
      ∧ raised w s2
      ∧ occurrences (getWindowId el) (windowLayerOrder s1) = 1
      ∧ occurrences (getWindowId el) (windowLayerOrder s2) = 1
      ∧ length (dom s2) = length (dom s).
Proof.
  intros Hr s1 s2.
  pose proof (reachable_consistent s Hr) as Hc.
  assert (reachable s1) as Hr1 by (by apply reachable_step with (e := EOpen appName)).
  pose proof (reachable_consistent s1 Hr1) as Hc1.
  destruct (openWindow_fields appName s) as (Hattr & _ & Hrc & _).
  fold s1 in Hattr, Hrc.
  assert (queryDataWindow appName (dom s1) = queryDataWindow appName (dom s))
    as Hq1 by (by apply queryDataWindow_attributes).
  assert (∀ w el,
            queryDataWindow appName (dom s) = Some w → dom s !! w = Some el →
            appName ∉ recentlyClosedWindows s →
            s2 = s1 ∧ s2 = focusWindow w s1 ∧ raised w s1
            ∧ getWindowId el ∈ windowLayerOrder s1) as Hmain.
  { intros w el Hq Hw Hs.
    destruct (openWindow_as_raise appName s w el Hc Hq Hw Hs)
      as (s0 & el0 & E1 & Hw0 & Hid0 & Hids0 & Hnd0 & Hvis0).
    fold s1 in E1.
    destruct (openWindow_raises appName s w Hc Hq Hs) as [Hraised Hact].
    fold s1 in Hraised, Hact.
    destruct Hraised as (Ha & Hf & Ho & el1 & Hw1 & Hlast).
    assert (data_window el1 = appName) as Hdw1.
    { destruct (attributes_lookup _ _ w el Hattr Hw) as (el1' & Hw1' & Hel1).
      pose proof (queryDataWindow_Some _ _ _ Hq) as (el' & Hw' & Hdw).
      assert (el1' = el1) as -> by congruence.
      assert (el' = el) as -> by congruence.
      injection Hel1 as _ ->. done. }
    assert (s2 = focusWindow w s1) as E2.
    { unfold s2, openWindow. rewrite Hq1, Hq, Hrc.
      rewrite decide_False by done. by rewrite decide_True. }
    assert (focusWindow w s1 = s1) as E3.
    { rewrite (focusWindow_eq w s1 el1); [|done|by rewrite Hdw1, Hrc].
      rewrite E1. by eapply bringWindowToFront_again. }
    split; [by rewrite E2|]. split; [done|]. split.
    - repeat split; [done..|]. by exists el1.
    - assert (getWindowId el1 = getWindowId el) as <-.
      { destruct (attributes_lookup _ _ w el Hattr Hw) as (el1' & Hw1' & Hel1).
        assert (el1' = el1) as -> by congruence.
        unfold getWindowId. injection Hel1 as -> ->. done. }
      apply last_Some in Hlast as [front ->].
      apply elem_of_app. right. apply list_elem_of_here. }
  split; [done|]. split.
  - destruct (queryDataWindow appName (dom s)) as [w|] eqn:Hq.
    + destruct (decide (appName ∈ recentlyClosedWindows s)) as [Hs|Hs].
      * unfold s2. apply openWindow_suppressed. by rewrite Hrc.
      * pose proof (queryDataWindow_Some _ _ _ Hq) as (el & Hw & _).
        by destruct (Hmain w el).
    + unfold s2, openWindow. by rewrite Hq1.
  - intros w el Hq Hw Hs.
    destruct (Hmain w el Hq Hw Hs) as (E & E2 & Hraised & Hin).
    split; [done|]. rewrite E. split; [done|].
    destruct Hc1 as (_ & Hnd1 & _).
    split; [by apply occurrences_NoDup|].
    split; [by apply occurrences_NoDup|].
    rewrite <- (length_fmap attributes (dom s1)), Hattr.
    apply length_fmap.
Qed.

Lemma open_twice_is_open_once_witness :
  let s := run (initial samplePage) [EOpen "about"; EOpen "projects"] in
  let s1 := openWindow "about" s in
  let s2 := openWindow "about" s1 in
  s2 = focusWindow 0 s1 ∧ occurrences "about" (windowLayerOrder s2) = 1.
Proof.
  intros s s1 s2.
  destruct (open_twice_is_open_once s "about") as (_ & _ & H).
  - apply reachable_run, reachable_initial, samplePage_wellFormed.
  - destruct (H 0 (mkEl "" "about" true false (Some 100000%Z)))
      as (E & _ & _ & Hocc & _); [by vm_compute..|].
    split; [exact E|exact Hocc].
Defined.

(** ** A remark on minimizing *)

(** An [openWindow] that arrives while the minimize animation is still
    running finds the key active and only focuses the window; the
    pending callback then hides it all the same. *)
Lemma open_during_minimize_is_undone :
  let s := run (initial samplePage)
             [EOpen "about"; EMinimize 0; EOpen "about"; ETimer 0] in
  isActive s 0 = false.
Proof. by vm_compute. Qed.

End WindowManagerFacts.

(* ===================================================================== *)
(** * More properties of the drag and resize handlers                    *)
(* ===================================================================== *)

Module GestureFacts.
Import Geometry Gestures.
Local Open Scope Z_scope.

(** ** Dragging *)

Lemma jitter_keeps_session start startX startY events : ∀ d,
  isDragging d = false → pendingFrame d = None →
  Forall (withinJitter startX startY) events →
  dragWrites start startX startY d events = []
  ∧ foldl (dragStep start startX startY) d events = d.
Proof.
  induction events as [|e events IH]; intros d Hd Hp Hall; [done|].
  apply Forall_cons in Hall as [He Hall].
  assert (dragStep start startX startY d e = d) as Hstep.
  { destruct e as [x y|]; simpl.
    - destruct He as [Hx Hy]. rewrite Hd. simpl.
      rewrite !bool_decide_eq_false_2 by lia. simpl.
      rewrite orb_false_r. destruct d; simpl in *; by subst.
    - by rewrite Hp. }
  simpl. rewrite Hstep.
  destruct (IH d Hd Hp Hall) as [-> ->].
  split; [|done]. destruct e; [done|]. by rewrite Hp.
Qed.

(** X1.  A click with a shaky hand does not drag.  As long as the pointer
    stays within three pixels of where the header was pressed, in both
    directions, nothing is written to the window's position, no frame is
    requested, and the session still counts as a click ([hasMoved] is
    false), so that releasing the button only raises the window. *)
Theorem jitter_does_not_drag (start : Rect) (startX startY : Z)
    (events : list DragEvent)
    (Hjitter : Forall (withinJitter startX startY) events) :
  dragWrites start startX startY (dragStart start) events = []
  ∧ dragSession start startX startY events = dragStart start
  ∧ hasMoved (dragSession start startX startY events) = false.
Proof.
  destruct (jitter_keeps_session start startX startY events (dragStart start))
    as [Hw Hs]; [done..|].
  unfold dragSession. rewrite Hs. done.
Qed.

Lemma jitter_does_not_drag_witness :
  dragWrites (mkRect 100 100 300 200) 50 60
    (dragStart (mkRect 100 100 300 200))
    [MouseMove 53 57; AnimationFrame; MouseMove 47 63; AnimationFrame] = [].
Proof.
  apply (jitter_does_not_drag (mkRect 100 100 300 200) 50 60).
  repeat constructor; simpl; lia.
Defined.

(** What a pending frame and the geometry of a session come from. *)
Lemma drag_follows_pointer start startX startY events : ∀ d seen,
  r_width (geometry d) = r_width start →
  r_height (geometry d) = r_height start →
  (∀ deltaX deltaY, pendingFrame d = Some (deltaX, deltaY) →
     ∃ x y, MouseMove x y ∈ seen
            ∧ deltaX = x - startX ∧ deltaY = y - startY) →
  ∀ g, g ∈ dragWrites start startX startY d events →
    r_width g = r_width start ∧ r_height g = r_height start
    ∧ ∃ x y, MouseMove x y ∈ seen ++ events
             ∧ r_left g = r_left start + (x - startX)
             ∧ r_top g = Z.max 40 (r_top start + (y - startY)).
Proof.
  induction events as [|e events IH]; intros d seen Hw Hh Hp g Hg.
  { by apply elem_of_nil in Hg. }
  assert (∀ g, g ∈ dragWrites start startX startY
                     (dragStep start startX startY d e) events →
            r_width g = r_width start ∧ r_height g = r_height start
            ∧ ∃ x y, MouseMove x y ∈ (seen ++ [e]) ++ events
                     ∧ r_left g = r_left start + (x - startX)
                     ∧ r_top g = Z.max 40 (r_top start + (y - startY)))
    as Hrest.
  { apply IH.
    - destruct e as [x y|]; simpl; [done|].
      destruct (pendingFrame d) as [[dx dy]|]; simpl; done.
    - destruct e as [x y|]; simpl; [done|].
      destruct (pendingFrame d) as [[dx dy]|]; simpl; done.
    - intros dx dy. destruct e as [x y|]; simpl.
      + destruct (isDragging d || _) eqn:Hdrag.
        * intros [= <- <-]. exists x, y. split; [|done].
          apply elem_of_app. right. apply list_elem_of_here.
        * intros Hpd. destruct (Hp dx dy Hpd) as (x' & y' & Hin & ? & ?).
          exists x', y'. split; [|done]. apply elem_of_app. by left.
      + destruct (pendingFrame d) as [[dx' dy']|] eqn:Hpd; simpl; [done|].
        rewrite Hpd. done. }
  rewrite <- (assoc_L (++)) in Hrest. simpl in Hrest.
  simpl in Hg.
  destruct e as [x y|]; [by apply Hrest|].
  destruct (pendingFrame d) as [[dx dy]|] eqn:Hpd; [|by apply Hrest].
  apply elem_of_cons in Hg as [->|Hg]; [|by apply Hrest].
  simpl. rewrite Hpd. simpl.
  destruct (Hp dx dy eq_refl) as (x & y & Hin & -> & ->).
  split; [done|]. split; [done|]. exists x, y. split; [|done].
  apply elem_of_app. by left.
Qed.

(** X2.  A dragged window follows the pointer without drift.  Every
    position a drag writes is the position the window had when the
    header was pressed plus the displacement of the pointer at one of
    the moves of the gesture, with only the top kept at 40 or more; the
    size is never changed. *)
Theorem drag_follows_pointer_without_drift (start : Rect)
    (startX startY : Z) (events : list DragEvent) (g : Rect) :
  g ∈ dragWrites start startX startY (dragStart start) events →
  r_width g = r_width start ∧ r_height g = r_height start
  ∧ ∃ x y, MouseMove x y ∈ events
           ∧ r_left g = r_left start + (x - startX)
           ∧ r_top g = Z.max 40 (r_top start + (y - startY)).
Proof.
  apply (drag_follows_pointer start startX startY events (dragStart start) []);
    done.
Qed.

Lemma drag_follows_pointer_without_drift_witness :
  r_left (mkRect 160 40 300 200) = 100 + (110 - 50)
  ∧ r_top (mkRect 160 40 300 200) = Z.max 40 (100 + (-15 - 60)).
Proof.
  destruct (drag_follows_pointer_without_drift (mkRect 100 100 300 200) 50 60
              [MouseMove 110 (-15); AnimationFrame] (mkRect 160 40 300 200))
    as (_ & _ & x & y & Hin & Hl & Ht).
  - vm_compute. apply list_elem_of_here.
  - apply elem_of_cons in Hin as [[= <- <-]|Hin]; [done|].
    apply elem_of_cons in Hin as [?|?%elem_of_nil]; done.
Defined.

(** ** Resizing *)

(** X3.  A resize never moves the opposite edge.  Whatever the pointer
    does, a handle on the west side keeps the right edge of the window
    where it was and every other handle keeps the left edge; a handle
    on the north side keeps the bottom edge, provided it was at least
    200 pixels below the taskbar line, and every other handle keeps the
    top edge of a window that was not above the taskbar line. *)
Theorem resize_keeps_opposite_edge (handleClass : HandleClass) (start : Rect)
    (startX startY clientX clientY : Z) :
  let g := resizeMouseMove handleClass start startX startY clientX clientY in
  (if hasWest handleClass then right g = right start
   else r_left g = r_left start)
  ∧ (if hasNorth handleClass
     then 240 ≤ bottom start → bottom g = bottom start
     else 40 ≤ r_top start → r_top g = r_top start).
Proof.
  unfold resizeMouseMove, taskbarAdjust, right, bottom, taskbarHeight.
  destruct handleClass; simpl; destruct (decide _); simpl; lia.
Qed.

End GestureFacts.

(* ===================================================================== *)
(** * More properties of the window manager                              *)
(* ===================================================================== *)

Module WindowCommandFacts.
Import WindowManager WindowCommands WindowManagerFacts.

(** ** Shown windows *)

Lemma shownIds_sublist d : shownIds d `sublist_of` getWindowId <$> d.
Proof.
  rewrite shownIds_omap. induction d as [|x d IH]; [done|].
  rewrite fmap_cons. cbn [omap list_omap]. unfold compose at 1, shownAs at 1.
  unfold visibility at 1. simpl.
  destruct (cls_active x).
  - apply sublist_skip. exact IH.
  - apply sublist_cons. exact IH.
Qed.

Lemma visibleIds_NoDup s : NoDup (getWindowId <$> dom s) → NoDup (visibleIds s).
Proof. intros H. eapply sublist_NoDup; [exact H|apply shownIds_sublist]. Qed.



(** ** After a recalculation *)

Lemma recalculate_exact s :
  existingPopup s = None → exact (recalculateWindowLayers s).
Proof.
  intros Hp. split.
  - intros windowId. rewrite recalculate_order_elem_of by done.
    unfold visibleIds.
    by rewrite (shownIds_visibility _ _ (visibility_recalculate s)).
  - by apply recalculate_windowZIndex.
Qed.

Lemma bringWindowToFront_exact w b s el :
  dom s !! w = Some el → existingPopup s = None →
  exact (bringWindowToFront w b s).
Proof.
  intros Hw Hp. rewrite (bringWindowToFront_eq w b s el Hw). cbv zeta.
  destruct (recalculate_exact (bringToFrontInput w el s) Hp) as [Ho Hz].
  split; [|done]. intros windowId. simpl. rewrite Ho.
  unfold visibleIds. simpl.
  by rewrite (shownIds_visibility _ _ (visibility_imap_focusAt w _)).
Qed.

Lemma closeWindow_exact w s el :
  dom s !! w = Some el → existingPopup s = None → exact (closeWindow w s).
Proof.
  intros Hw Hp. rewrite (closeWindow_eq w s el Hw). cbv zeta.
  destruct (recalculate_exact (closeInput w el s) Hp) as [Ho Hz].
  split; done.
Qed.

Lemma focusWindow_exact w s el :
  dom s !! w = Some el → data_window el ∉ recentlyClosedWindows s →
  existingPopup s = None → exact (focusWindow w s).
Proof.
  intros Hw Hs Hp. rewrite (focusWindow_eq w s el Hw Hs).
  by eapply bringWindowToFront_exact.
Qed.

Lemma queryDataWindow_found appName (d : list WindowEl) w :
  queryDataWindow appName d = Some w →
  ∃ el, d !! w = Some el ∧ data_window el = appName.
Proof.
  unfold queryDataWindow.
  destruct (list_find _ d) as [[i el]|] eqn:Hf; [|done].
  intros [= <-]. apply list_find_Some in Hf as (Hi & Hd & _). by exists el.
Qed.

Lemma openWindow_exact appName s w :
  queryDataWindow appName (dom s) = Some w →
  appName ∉ recentlyClosedWindows s →
  existingPopup s = None → exact (openWindow appName s).
Proof.
  intros Hq Hs Hp. unfold openWindow. rewrite Hq, decide_False by done.
  apply queryDataWindow_found in Hq as (el & Hw & Hel).
  destruct (decide (appName ∈ activeWindows s)).
  - eapply focusWindow_exact; [exact Hw|by rewrite Hel|done].
  - eapply (focusWindow_exact _ _ (addActive el)); simpl.
    + by rewrite list_lookup_alter_eq, Hw.
    + by rewrite Hel.
    + done.
Qed.

Lemma step_exact s e : recalculates s e = true → exact (step s e).
Proof.
  unfold recalculates.
  destruct (existingPopup s) as [c|] eqn:Hp; [done|].
  destruct e as [appName|w|w|w|w b|n|c|n|w]; try done; simpl.
  - intros [Hq Hs]%andb_prop.
    apply bool_decide_eq_true_1 in Hq as [w Hq].
    apply bool_decide_eq_true_1 in Hs. by eapply openWindow_exact.
  - intros [el Hw]%bool_decide_eq_true_1. by eapply closeWindow_exact.
  - destruct (dom s !! w) as [el|] eqn:Hw; [|done].
    intros Hs%bool_decide_eq_true_1. by eapply focusWindow_exact.
  - intros [el Hw]%bool_decide_eq_true_1. by eapply bringWindowToFront_exact.
Qed.

(** X5.  A recalculation makes the layer order exact.  From any state the
    desktop can reach, an event that gets to [recalculateWindowLayers]
    and past its popup guard leaves a layer order that lists exactly
    the windows shown, each once: entries left behind by minimized
    windows are gone; and it leaves the counter [windowZIndex] at
    [100000 + 10 * n] for [n] the number of windows shown. *)
Theorem recalculation_makes_layer_order_exact (page : list WindowEl)
    (events : list Event) (e : Event) (Hpage : wellFormedPage page) :
  let s := run (initial page) events in
  let s' := step s e in
  recalculates s e = true →
  windowLayerOrder s' ≡ₚ visibleIds s'
  ∧ windowZIndex s'
    = (baseZIndex + Z.of_nat (length (visibleIds s')) * zStep)%Z.
Proof.
  intros s s' Hre.
  assert (consistent s') as (Hids & Hnd & _).
  { apply reachable_consistent. exists page, (events ++ [e]).
    split; [done|]. unfold s', s, run. by rewrite foldl_app. }
  destruct (step_exact s e Hre) as [Ho Hz]. fold s' in Ho, Hz.
  assert (windowLayerOrder s' ≡ₚ visibleIds s') as Hperm.
  { apply NoDup_Permutation; [done|by apply visibleIds_NoDup|done]. }
  split; [done|]. by rewrite <- Hperm.
Qed.

Lemma recalculation_makes_layer_order_exact_witness :
  let s := run (initial samplePage)
               [EOpen "about"; EOpen "projects"; EMinimize 0; ETimer 0] in
  windowLayerOrder s = ["about"; "projects"]
  ∧ windowLayerOrder (step s (EOpen "note-editor"))
    ≡ₚ visibleIds (step s (EOpen "note-editor"))
  ∧ windowZIndex (step s (EOpen "note-editor")) = 100020%Z.
Proof.
  intros s.
  destruct (recalculation_makes_layer_order_exact samplePage
              [EOpen "about"; EOpen "projects"; EMinimize 0; ETimer 0]
              (EOpen "note-editor") samplePage_wellFormed)
    as [Hperm Hz]; [by vm_compute|].
  split; [by vm_compute|]. split; [exact Hperm|].
  etransitivity; [exact Hz|by vm_compute].
Defined.

(** ** Focus *)

Lemma singleFocus_shrink s s' :
  (∀ k, isActive s' k = true → isActive s k = true) →
  (∀ k, isFocused s' k = isFocused s k) →
  singleFocus s → singleFocus s'.
Proof.
  intros Ha Hf Hs w1 w2 A1 F1 A2 F2.
  apply Hs; [by apply Ha|by rewrite <- Hf|by apply Ha|by rewrite <- Hf].
Qed.

Lemma classes_lookup (d1 d2 : list WindowEl) k :
  classes <$> d1 = classes <$> d2 →
  (cls_active <$> d1 !! k) = (cls_active <$> d2 !! k)
  ∧ (cls_focused <$> d1 !! k) = (cls_focused <$> d2 !! k).
Proof.
  intros H. pose proof (f_equal (λ l, l !! k) H) as Hk. simpl in Hk.
  rewrite !list_lookup_fmap in Hk.
  destruct (d1 !! k) as [x|], (d2 !! k) as [y|]; simpl in *; try done.
  unfold classes in Hk. by injection Hk as _ _ -> ->.
Qed.

Lemma isActive_alt s k : isActive s k = default false (cls_active <$> dom s !! k).
Proof. unfold isActive. by destruct (dom s !! k). Qed.

Lemma isFocused_alt s k :
  isFocused s k = default false (cls_focused <$> dom s !! k).
Proof. unfold isFocused. by destruct (dom s !! k). Qed.

Lemma removeActive_shrinks (d : list WindowEl) w k :
  default false (cls_active <$> alter removeActive w d !! k) = true →
  default false (cls_active <$> d !! k) = true.
Proof.
  destruct (decide (w = k)) as [->|Hne].
  - rewrite list_lookup_alter_eq. by destruct (d !! k).
  - by rewrite list_lookup_alter_ne.
Qed.

Lemma removeActive_focused (d : list WindowEl) w k :
  (cls_focused <$> alter removeActive w d !! k) = (cls_focused <$> d !! k).
Proof.
  destruct (decide (w = k)) as [->|Hne].
  - rewrite list_lookup_alter_eq. by destruct (d !! k).
  - by rewrite list_lookup_alter_ne.
Qed.

Lemma bringWindowToFront_singleFocus w b s :
  singleFocus s → singleFocus (bringWindowToFront w b s).
Proof.
  intros Hs. destruct (dom s !! w) as [el|] eqn:Hw.
  2:{ by rewrite bringWindowToFront_outside. }
  assert (∀ k, isActive (bringWindowToFront w b s) k = true →
               isFocused (bringWindowToFront w b s) k = true → k = w) as Honly.
  { intros k. unfold isActive, isFocused.
    destruct (bringWindowToFront_lookup w b s el k Hw) as [z ->].
    destruct (decide (k = w)) as [->|Hne]; [done|].
    rewrite list_lookup_alter_ne by done.
    destruct (dom s !! k) as [y|]; simpl; [|done].
    unfold focusAt. rewrite decide_False by done.
    by destruct z, y as [? ? [] ? ?]. }
  intros w1 w2 A1 F1 A2 F2.
  rewrite (Honly w1 A1 F1), (Honly w2 A2 F2). done.
Qed.

Lemma focusWindow_singleFocus w s :
  singleFocus s → singleFocus (focusWindow w s).
Proof.
  intros Hs. destruct (dom s !! w) as [el|] eqn:Hw.
  2:{ by rewrite focusWindow_outside. }
  destruct (decide (data_window el ∈ recentlyClosedWindows s)) as [Hc|Hc].
  - by rewrite (focusWindow_suppressed w s el).
  - rewrite (focusWindow_eq w s el Hw Hc).
    by apply bringWindowToFront_singleFocus.
Qed.

Lemma closeWindow_singleFocus w s :
  singleFocus s → singleFocus (closeWindow w s).
Proof.
  intros Hs. destruct (dom s !! w) as [el|] eqn:Hw.
  2:{ by rewrite closeWindow_outside. }
  rewrite (closeWindow_eq w s el Hw). cbv zeta.
  eapply singleFocus_shrink; [| |exact Hs].
  - intros k. rewrite !isActive_alt. simpl.
    destruct (classes_lookup _ _ k (recalculate_classes (closeInput w el s)))
      as [-> _].
    unfold closeInput. simpl. apply removeActive_shrinks.
  - intros k. rewrite !isFocused_alt. simpl.
    destruct (classes_lookup _ _ k (recalculate_classes (closeInput w el s)))
      as [_ ->].
    unfold closeInput. simpl. by rewrite removeActive_focused.
Qed.

Lemma openWindow_singleFocus appName s :
  singleFocus s → singleFocus (openWindow appName s).
Proof.
  intros Hs. unfold openWindow.
  destruct (queryDataWindow appName (dom s)) as [w|] eqn:Hq; [|done].
  destruct (decide _); [done|]. destruct (decide _).
  { by apply focusWindow_singleFocus. }
  apply queryDataWindow_found in Hq as (el & Hw & Hel).
  rewrite (focusWindow_eq w _ (addActive el)); simpl.
  - assert (∀ k, isActive
              (bringWindowToFront w false
                 (mkOS (alter addActive w (dom s)) (overlays s)
                       ({[appName]} ∪ activeWindows s) (windowZIndex s)
                       (windowLayerOrder s) (recentlyClosedWindows s)
                       (timers s))) k = true →
            isFocused
              (bringWindowToFront w false
                 (mkOS (alter addActive w (dom s)) (overlays s)
                       ({[appName]} ∪ activeWindows s) (windowZIndex s)
                       (windowLayerOrder s) (recentlyClosedWindows s)
                       (timers s))) k = true → k = w) as Honly.
    { intros k. unfold isActive, isFocused.
      edestruct (bringWindowToFront_lookup w false) as [z ->].
      { simpl. by rewrite list_lookup_alter_eq, Hw. }
      simpl. destruct (decide (k = w)) as [->|Hne]; [done|].
      rewrite !list_lookup_alter_ne by done.
      destruct (dom s !! k) as [y|]; simpl; [|done].
      unfold focusAt. rewrite decide_False by done.
      by destruct z, y as [? ? [] ? ?]. }
    intros w1 w2 A1 F1 A2 F2.
    rewrite (Honly w1 A1 F1), (Honly w2 A2 F2). done.
  - by rewrite list_lookup_alter_eq, Hw.
  - by rewrite Hel.
Qed.

Lemma timerFires_singleFocus n s :
  singleFocus s → singleFocus (timerFires n s).
Proof.
  intros Hs. unfold timerFires.
  destruct (timers s !! n) as [[appName|w]|]; [done| |done].
  simpl. destruct (dom s !! w) as [el|] eqn:Hw; [|done].
  eapply singleFocus_shrink; [| |exact Hs].
  - intros k. rewrite !isActive_alt. simpl. apply removeActive_shrinks.
  - intros k. rewrite !isFocused_alt. simpl. by rewrite removeActive_focused.
Qed.

Lemma step_singleFocus s e : singleFocus s → singleFocus (step s e).
Proof.
  intros Hs. destruct e as [appName|w|w|w|w b|n|c|n|w]; simpl.
  - by apply openWindow_singleFocus.
  - by apply closeWindow_singleFocus.
  - unfold minimizeWindow. by destruct (dom s !! w).
  - by apply focusWindow_singleFocus.
  - by apply bringWindowToFront_singleFocus.
  - by apply timerFires_singleFocus.
  - done.
  - done.
  - eapply singleFocus_shrink; [| |exact Hs].
    + intros k. rewrite !isActive_alt. simpl.
      destruct (decide (w = k)) as [->|Hne].
      * rewrite list_lookup_alter_eq. by destruct (dom s !! k).
      * by rewrite list_lookup_alter_ne.
    + intros k. rewrite !isFocused_alt. simpl.
      destruct (decide (w = k)) as [->|Hne].
      * rewrite list_lookup_alter_eq. by destruct (dom s !! k).
      * by rewrite list_lookup_alter_ne.
Qed.

Lemma run_singleFocus events : ∀ s,
  singleFocus s → singleFocus (run s events).
Proof.
  induction events as [|e events IH]; intros s Hs; [done|].
  simpl. by apply IH, step_singleFocus.
Qed.

(** X6.  One focused window at most.  In every state the desktop can
    reach, at most one of the windows shown carries the class
    [focused]; and right after a window has been brought to the front,
    opened or focused without being suppressed, it is that window. *)
Theorem at_most_one_window_focused (page : list WindowEl)
    (events : list Event) (Hpage : wellFormedPage page) :
  let s := run (initial page) events in
  singleFocus s
  ∧ ∀ w b el, dom s !! w = Some el →
      isActive (bringWindowToFront w b s) w = true
      ∧ isFocused (bringWindowToFront w b s) w = true
      ∧ ∀ other, isActive (bringWindowToFront w b s) other = true →
                 isFocused (bringWindowToFront w b s) other = true →
                 other = w.
Proof.
  intros s. split.
  - apply run_singleFocus. intros w1 w2 A1. unfold isActive in A1. simpl in A1.
    destruct Hpage as [_ Hinactive].
    destruct (page !! w1) as [x|] eqn:Hx; [|done]. simpl in A1.
    eapply Forall_lookup_1 in Hinactive; [|exact Hx]. congruence.
  - intros w b el Hw.
    assert (raised w (bringWindowToFront w b s)) as (Ha & Hf & Hothers & _).
    { apply (bringWindowToFront_raised w b s el Hw).
      intros x Hx. right.
      assert (consistent s) as (_ & _ & Hvis);
        [apply reachable_consistent; by exists page, events|].
      by apply Hvis. }
    split; [done|]. split; [done|].
    intros other Hao Hfo. destruct (decide (other = w)) as [|Hne]; [done|].
    rewrite (Hothers other Hne Hao) in Hfo. done.
Qed.

Lemma at_most_one_window_focused_witness :
  let s := run (initial samplePage)
               [EOpen "about"; EOpen "projects"; EOpen "note-editor";
                EFocus 0] in
  singleFocus s ∧ isFocused s 0 = true.
Proof.
  intros s.
  destruct (at_most_one_window_focused samplePage
              [EOpen "about"; EOpen "projects"; EOpen "note-editor"; EFocus 0]
              samplePage_wellFormed) as [Hsingle _].
  split; [exact Hsingle|by vm_compute].
Defined.

(** ** Closing every window *)














End WindowCommandFacts.

(* ===================================================================== *)
(** * Lists                                                              *)
(* ===================================================================== *)

Module ListFacts.

Lemma filter_all {A} (P : A → Prop) `{!∀ x, Decision (P x)} (l : list A) :
  Forall P l → filter P l = l.
Proof.
  induction 1 as [|x l Hx Hl IH]; [done|].
  rewrite filter_cons, decide_True by done. by rewrite IH.
Qed.

Lemma filter_none {A} (P : A → Prop) `{!∀ x, Decision (P x)} (l : list A) :
  Forall (λ x, ¬ P x) l → filter P l = [].
Proof.
  induction 1 as [|x l Hx Hl IH]; [done|].
  by rewrite filter_cons, decide_False.
Qed.

Lemma filter_fmap {A B} (f : A → B) (P : B → Prop)
    `{!∀ y, Decision (P y)} (l : list A) :
  filter P (f <$> l) = f <$> filter (λ x, P (f x)) l.
Proof.
  induction l as [|x l IH]; [done|].
  rewrite fmap_cons, !filter_cons.
  destruct (decide (P (f x))); by rewrite ?fmap_cons, IH.
Qed.

Lemma fmap_fixed {A} (f : A → A) (l : list A) :
  Forall (λ x, f x = x) l → f <$> l = l.
Proof.
  intros H. rewrite <- (list_fmap_id l) at 2. by apply Forall_fmap_ext_1.
Qed.

End ListFacts.

(* ===================================================================== *)
(** * Properties of the notebook storage operations                      *)
(* ===================================================================== *)

Module NotebookFacts.
Import StickyNotes Notebook StickyFacts ListFacts.
Local Open Scope Z_scope.

Lemma ensureTimestamp_unstamped now n :
  unstamped (ensureTimestamp now n) = unstamped n.
Proof. unfold ensureTimestamp. by destruct (hasTimestamp n). Qed.

Lemma ensureTimestamp_has now n :
  truthy now = true → hasTimestamp (ensureTimestamp now n) = true.
Proof.
  intros Hnow. unfold ensureTimestamp.
  destruct (hasTimestamp n) eqn:Hn; [done|].
  unfold hasTimestamp; simpl. by destruct (truthy (note_id n)) eqn:Hid.
Qed.

(** ** Loading *)

Lemma sort_sorted_id l : StronglySorted notOlder l → sort compareNotes l = l.
Proof.
  induction 1 as [|a l Hl IH Ha]; [done|].
  simpl. fold (sort compareNotes l). rewrite IH.
  destruct l as [|b rest]; [done|]. simpl.
  rewrite decide_True; [done|].
  apply compareNotes_le. by apply Forall_inv in Ha.
Qed.

Lemma saved_stamped now notes :
  saved (loadStickyNotes now notes)
  ≡ₚ ensureTimestamp now <$> filter (λ n, ¬ isFolder n) notes.
Proof.
  rewrite saved_perm, filter_fmap.
  erewrite list_filter_iff; [reflexivity|].
  intros n. unfold isFolder. by rewrite ensureTimestamp_type.
Qed.

Lemma saved_not_folder now notes n :
  n ∈ saved (loadStickyNotes now notes) → ¬ isFolder n.
Proof.
  rewrite saved_perm. by intros [? _]%list_elem_of_filter.
Qed.

Lemma saved_from now notes n :
  n ∈ saved (loadStickyNotes now notes) →
  ∃ m, m ∈ notes ∧ n = ensureTimestamp now m.
Proof.
  rewrite saved_perm. intros [_ (m & -> & Hm)%list_elem_of_fmap]%list_elem_of_filter.
  by exists m.
Qed.

(** X8.  Loading keeps every note and drops the folders.  The array
    [loadStickyNotes] writes back is the pinned group followed by the
    regular group; it holds every stored record that is not a folder
    exactly once, unchanged but for a missing timestamp filled in, and
    no folder record: records of type folder are removed from storage
    by the mere display of the notebook. *)
Theorem load_keeps_notes_drops_folders (now : Z) (stickyNotes : list Note) :
  let loaded := loadStickyNotes now stickyNotes in
  saved loaded = pinnedNotes loaded ++ regularNotes loaded
  ∧ saved loaded
    ≡ₚ ensureTimestamp now <$> filter (λ n, ¬ isFolder n) stickyNotes
  ∧ (unstamped <$> saved loaded)
    ≡ₚ unstamped <$> filter (λ n, ¬ isFolder n) stickyNotes
  ∧ Forall (λ n, ¬ isFolder n) (saved loaded)
  ∧ Forall (λ n, isPinned n = true) (pinnedNotes loaded)
  ∧ Forall (λ n, isPinned n = false) (regularNotes loaded).
Proof.
  intros loaded. split; [done|]. split; [apply saved_stamped|]. split_and!.
  - unfold loaded. rewrite saved_stamped, <- list_fmap_compose.
    erewrite list_fmap_ext; [reflexivity|].
    intros i n _. apply ensureTimestamp_unstamped.
  - apply Forall_forall. intros n. apply saved_not_folder.
  - apply Forall_forall. intros n. unfold loaded. simpl. rewrite sort_perm.
    by intros [? _]%list_elem_of_filter.
  - apply Forall_forall. intros n. apply regular_group_unpinned.
Qed.

Lemma loaded_again now now' notes :
  truthy now = true →
  loadStickyNotes now' (saved (loadStickyNotes now notes))
  = loadStickyNotes now notes.
Proof.
  intros Hnow.
  set (loaded := loadStickyNotes now notes).
  assert (Forall (λ n, isPinned n = true) (pinnedNotes loaded)) as Hp.
  { apply Forall_forall. intros n. unfold loaded. simpl. rewrite sort_perm.
    by intros [? _]%list_elem_of_filter. }
  assert (Forall (λ n, isPinned n = false) (regularNotes loaded)) as Hr.
  { apply Forall_forall. intros n. apply regular_group_unpinned. }
  assert (ensureTimestamp now' <$> saved loaded = saved loaded) as Hstamp.
  { apply fmap_fixed, Forall_forall. intros n (m & _ & ->)%saved_from.
    by apply ensureTimestamp_stamped, ensureTimestamp_has. }
  assert (filter (λ item, note_type item ≠ Some "folder") (saved loaded)
          = saved loaded) as Hnotes.
  { apply filter_all, Forall_forall. intros n. apply saved_not_folder. }
  unfold loadStickyNotes at 1. rewrite Hstamp, Hnotes.
  change (saved loaded) with (pinnedNotes loaded ++ regularNotes loaded).
  rewrite !filter_app.
  rewrite (filter_all (λ note, isPinned note = true) (pinnedNotes loaded) Hp).
  rewrite (filter_none (λ note, isPinned note = true) (regularNotes loaded)).
  2:{ eapply Forall_impl; [exact Hr|]. intros n ->. done. }
  rewrite (filter_none (λ note, isPinned note = false) (pinnedNotes loaded)).
  2:{ eapply Forall_impl; [exact Hp|]. intros n ->. done. }
  rewrite (filter_all (λ note, isPinned note = false) (regularNotes loaded) Hr).
  rewrite app_nil_r, app_nil_l.
  rewrite (sort_sorted_id (pinnedNotes loaded)) by apply sort_sorted.
  rewrite (sort_sorted_id (regularNotes loaded)) by apply sort_sorted.
  done.
Qed.

(** X9.  Showing the notebook again changes nothing.  Once
    [loadStickyNotes] has run at a clock reading other than zero,
    running it again on the array it wrote back, at any later reading,
    gives the same two groups in the same order and writes the same
    array. *)
Theorem reload_changes_nothing (now now' : Z) (stickyNotes : list Note)
    (Hnow : truthy now = true) :
  let loaded := loadStickyNotes now stickyNotes in
  let again := loadStickyNotes now' (saved loaded) in
  pinnedNotes again = pinnedNotes loaded
  ∧ regularNotes again = regularNotes loaded
  ∧ saved again = saved loaded.
Proof.
  intros loaded again. unfold again, loaded.
  by rewrite loaded_again.
Qed.

Lemma reload_changes_nothing_witness :
  saved (loadStickyNotes 1700000009999
           (saved (loadStickyNotes 1700000009000
                     [olderNote; folderItem; unpinnedNote; newerNote])))
  = [newerNote; olderNote; unpinnedNote].
Proof.
  destruct (reload_changes_nothing 1700000009000 1700000009999
              [olderNote; folderItem; unpinnedNote; newerNote])
    as (_ & _ & ->); [done|].
  by vm_compute.
Defined.

(** ** Deleting a note *)

Lemma saved_unstamped now notes m :
  m ∈ notes → ¬ isFolder m →
  ∃ n, n ∈ saved (loadStickyNotes now notes) ∧ unstamped n = unstamped m.
Proof.
  intros Hin Hty. exists (ensureTimestamp now m).
  split; [by apply saved_elem_of|apply ensureTimestamp_unstamped].
Qed.

Lemma unstamped_id n m : unstamped n = unstamped m → note_id n = note_id m.
Proof. unfold unstamped. by intros [= -> _]. Qed.

Lemma unstamped_folder n m :
  unstamped n = unstamped m → isFolder n ↔ isFolder m.
Proof. unfold unstamped, isFolder. by intros [= _ -> _]. Qed.

Lemma removeStickyNote_gone noteId now notes n :
  n ∈ removeStickyNote noteId now notes → note_id n ≠ noteId.
Proof.
  unfold removeStickyNote.
  set (remaining := filter _ notes). destruct (decide _) as [Hlt|Hlt].
  - intros (m & Hm & ->)%saved_from. rewrite ensureTimestamp_id.
    by apply list_elem_of_filter in Hm as [? _].
  - intros Hn Hid.
    pose proof (length_filter_lt (λ note, note_id note ≠ noteId) notes n Hn).
    fold remaining in H. apply Hlt, H. by intros ?.
Qed.

Lemma removeStickyNote_others noteId now notes m :
  m ∈ notes → note_id m ≠ noteId → ¬ isFolder m →
  ∃ n, n ∈ removeStickyNote noteId now notes ∧ unstamped n = unstamped m.
Proof.
  intros Hin Hid Hty. unfold removeStickyNote.
  destruct (decide _); [|by exists m].
  apply saved_unstamped; [|done]. by apply list_elem_of_filter.
Qed.

Section Windows.
Variable extractTextContent : string → string.

Lemma closeNoteWindow_absent noteId newContent today p idNow stampNow now notes :
  (∀ n, n ∈ notes → note_id n ≠ noteId) →
  closeNoteWindow extractTextContent (Some noteId) newContent today p
    idNow stampNow now notes
  = saved (loadStickyNotes now notes).
Proof.
  intros Habsent. unfold closeNoteWindow, autoSaveNote.
  destruct (list_find _ notes) as [[i n]|] eqn:Hfind; [|done].
  apply list_find_Some in Hfind as (Hi & Hid & _).
  apply list_elem_of_lookup_2 in Hi. by destruct (Habsent n Hi).
Qed.

(** X10.  A deleted note stays deleted.  [deleteNoteWindow] on the window
    of a stored note removes every record with the id of that note, and
    the auto-save that closing the window performs does not bring it
    back, whatever the editor holds; every other note that is not a
    folder is still stored, unchanged but for a missing timestamp. *)
Theorem deleted_note_stays_deleted (noteId : Z) (newContent today : string)
    (isPinnedNow : bool) (idNow stampNow removeNow closeNow : Z)
    (stickyNotes : list Note) :
  let stored :=
    deleteNoteWindow extractTextContent (Some noteId) newContent today
      isPinnedNow idNow stampNow removeNow closeNow stickyNotes in
  (∀ n, n ∈ stored → note_id n ≠ noteId)
  ∧ (∀ m, m ∈ stickyNotes → note_id m ≠ noteId → ¬ isFolder m →
          ∃ n, n ∈ stored ∧ unstamped n = unstamped m)
  ∧ (∀ n, n ∈ stored →
          ∃ m, m ∈ stickyNotes ∧ unstamped n = unstamped m).
Proof.
  intros stored. unfold stored, deleteNoteWindow.
  rewrite closeNoteWindow_absent by apply removeStickyNote_gone.
  split_and!.
  - intros n (m & Hm & ->)%saved_from. rewrite ensureTimestamp_id.
    by eapply removeStickyNote_gone.
  - intros m Hin Hid Hty.
    destruct (removeStickyNote_others noteId removeNow stickyNotes m Hin Hid Hty)
      as (n & Hn & Hnm).
    destruct (saved_unstamped closeNow _ n Hn) as (n' & Hn' & Hnn').
    { by rewrite (unstamped_folder n m Hnm). }
    exists n'. split; [done|]. congruence.
  - intros n (m & Hm & ->)%saved_from. rewrite ensureTimestamp_unstamped.
    unfold removeStickyNote in Hm. destruct (decide _).
    + apply saved_from in Hm as (m' & Hm' & ->).
      apply list_elem_of_filter in Hm' as [_ Hm'].
      exists m'. split; [done|apply ensureTimestamp_unstamped].
    + by exists m.
Qed.

(** ** A new note *)





End Windows.


(** ** Pinning from the list *)

Lemma pinned_group_pinned now notes n :
  n ∈ pinnedNotes (loadStickyNotes now notes) → isPinned n = true.
Proof.
  simpl. rewrite sort_perm. by intros [? _]%list_elem_of_filter.
Qed.

Lemma regular_group now notes n :
  n ∈ notes → ¬ isFolder n → isPinned n = false →
  ensureTimestamp now n ∈ regularNotes (loadStickyNotes now notes).
Proof.
  intros Hin Hty Hp. simpl. rewrite sort_perm.
  apply list_elem_of_filter. split; [by rewrite ensureTimestamp_pinned|].
  apply list_elem_of_filter. split; [by rewrite ensureTimestamp_type|].
  by apply list_elem_of_fmap_2.
Qed.

Lemma group_of now notes n :
  n ∈ notes → ¬ isFolder n →
  ensureTimestamp now n
  ∈ (if isPinned n then pinnedNotes (loadStickyNotes now notes)
     else regularNotes (loadStickyNotes now notes)).
Proof.
  intros Hin Hty. destruct (isPinned n) eqn:Hp.
  - by apply pinned_group.
  - by apply regular_group.
Qed.

Lemma same_id_same_place (notes : list Note) i j n m :
  NoDup (note_id <$> notes) →
  notes !! i = Some n → notes !! j = Some m → note_id n = note_id m → i = j.
Proof.
  intros Hids Hi Hj Hid.
  apply (NoDup_lookup (note_id <$> notes) i j (note_id n) Hids).
  - by rewrite list_lookup_fmap, Hi.
  - by rewrite list_lookup_fmap, Hj, Hid.
Qed.

Lemma elem_of_insert_inv {A} (l : list A) i y x :
  x ∈ <[i := y]> l →
  x = y ∨ ∃ j, j ≠ i ∧ l !! j = Some x.
Proof.
  intros (j & Hj)%list_elem_of_lookup.
  destruct (decide (j = i)) as [->|Hne].
  - destruct (decide (i < length l)%nat) as [Hlt|Hge].
    + rewrite list_lookup_insert_eq in Hj by done. left. congruence.
    + apply lookup_lt_Some in Hj. rewrite length_insert in Hj. lia.
  - rewrite list_lookup_insert_ne in Hj by done. right. by exists j.
Qed.

(** X12.  Pinning from the list moves that note and no other.  With
    distinct ids in storage, [toggleStickyNotePin] gives the stored note
    with the id of the clicked one the negation of the clicked note's
    [pinned], and the refresh lists it in the pinned group exactly when
    that is [true]; every other note stays in its group, and nothing
    else is stored.  If no stored note has the id, storage is as the
    refresh alone leaves it. *)
Theorem pin_toggle_moves_only_that_note (note : Note) (now : Z)
    (stickyNotes : list Note)
    (Hids : NoDup (note_id <$> stickyNotes)) :
  let r := toggleStickyNotePin note now stickyNotes in
  r.1 = negb (isPinned note)
  ∧ (∀ m, m ∈ stickyNotes → note_id m = note_id note → ¬ isFolder m →
       let moved := ensureTimestamp now (setPinned r.1 m) in
       moved ∈ (if r.1 then pinnedNotes r.2 else regularNotes r.2)
       ∧ (moved ∉ (if r.1 then regularNotes r.2 else pinnedNotes r.2)))
  ∧ (∀ other, other ∈ stickyNotes → note_id other ≠ note_id note →
       ¬ isFolder other →
       ensureTimestamp now other
       ∈ (if isPinned other then pinnedNotes r.2 else regularNotes r.2))
  ∧ (∀ n, n ∈ saved r.2 →
       ∃ m, m ∈ stickyNotes
            ∧ (n = ensureTimestamp now m ∧ note_id m ≠ note_id note
               ∨ n = ensureTimestamp now (setPinned r.1 m)
                 ∧ note_id m = note_id note))
  ∧ ((∀ m, m ∈ stickyNotes → note_id m ≠ note_id note) →
     r.2 = loadStickyNotes now stickyNotes).
Proof.
  intros r. unfold r, toggleStickyNotePin. cbn [fst snd].
  set (b := negb (isPinned note)).
  destruct (list_find _ stickyNotes) as [[i n]|] eqn:Hfind.
  - apply list_find_Some in Hfind as (Hi & Hn & _).
    assert (i < length stickyNotes)%nat as Hlt by by eapply lookup_lt_Some.
    split; [done|]. split_and!.
    + intros m (j & Hj)%list_elem_of_lookup Hid Hty.
      assert (i = j) as <-.
      { eapply same_id_same_place; [done..|congruence]. }
      assert (n = m) as -> by congruence.
      assert (setPinned b m ∈ <[i := setPinned b m]> stickyNotes) as Hin
        by by apply list_elem_of_insert.
      assert (isPinned (setPinned b m) = b) as Hb by done.
      pose proof (group_of now _ _ Hin Hty) as Hgroup.
      rewrite Hb in Hgroup. split; [done|].
      destruct b.
      * intros Hreg%regular_group_unpinned.
        by rewrite ensureTimestamp_pinned in Hreg.
      * intros Hpin%pinned_group_pinned.
        by rewrite ensureTimestamp_pinned in Hpin.
    + intros other (j & Hj)%list_elem_of_lookup Hid Hty.
      apply group_of; [|done].
      apply list_elem_of_lookup. exists j.
      rewrite list_lookup_insert_ne; [done|]. intros <-.
      apply Hid. congruence.
    + intros x (y & Hy & ->)%saved_from.
      apply elem_of_insert_inv in Hy as [->|(j & Hne & Hj)].
      * exists n. split; [by eapply list_elem_of_lookup_2|]. by right.
      * exists y. split; [by eapply list_elem_of_lookup_2|]. left.
        split; [done|]. intros Hid. apply Hne. symmetry.
        eapply same_id_same_place; [done..|congruence].
    + intros Hnone. exfalso. eapply Hnone; [|done].
      by eapply list_elem_of_lookup_2.
  - apply list_find_None in Hfind.
    split; [done|]. split_and!.
    + intros m Hm Hid. exfalso.
      rewrite Forall_forall in Hfind. by apply (Hfind m).
    + intros other Hin _ Hty. by apply group_of.
    + intros x (y & Hy & ->)%saved_from. exists y. split; [done|]. left.
      split; [done|]. rewrite Forall_forall in Hfind. by apply Hfind.
    + done.
Qed.

Lemma pin_toggle_moves_only_that_note_witness :
  ensureTimestamp 1700000009000 (setPinned true unpinnedNote)
  ∈ pinnedNotes
      (toggleStickyNotePin unpinnedNote 1700000009000
         [olderNote; unpinnedNote; newerNote]).2.
Proof.
  destruct (pin_toggle_moves_only_that_note unpinnedNote 1700000009000
              [olderNote; unpinnedNote; newerNote]) as (_ & Hmoved & _).
  - apply (bool_decide_unpack _). by vm_compute.
  - destruct (Hmoved unpinnedNote) as [Hin _].
    + apply list_elem_of_further, list_elem_of_here.
    + done.
    + unfold isFolder. simpl. discriminate.
    + exact Hin.
Defined.

End NotebookFacts.

(* ===================================================================== *)
(** * Properties of the mood tracker readers                             *)
(* ===================================================================== *)

Module MoodReaderFacts.
Import MoodTracker MoodReaders.

Section WithBuiltins.

Variable JSON_parse : string → option JSValue.
Variable JSON_stringify : JSValue → string.
Variable strictMode : bool.

Local Abbreviation getMoodData := (MoodTracker.getMoodData JSON_parse).
Local Abbreviation saveTodaysMood :=
  (MoodTracker.saveTodaysMood JSON_parse JSON_stringify strictMode).
Local Abbreviation loadMoodData := (MoodReaders.loadMoodData JSON_parse).
Local Abbreviation updateStreak := (MoodReaders.updateStreak JSON_parse).

Lemma updateStreak_not_array dateStr st v :
  getMoodData st = Returns v → isArray v = false →
  updateStreak true dateStr st = Throws TypeError.
Proof.
  intros Hget Hv. unfold MoodReaders.updateStreak. rewrite Hget. simpl.
  by destruct v.
Qed.

(** What the storage holds after a mood has been saved over the mapping
    [m]. *)
Lemma saved_mood_read_back today moodIndex st m :
  getMoodData st = Returns (JObject m) →
  let m' := <[dateKey today := JNumber moodIndex]> m in
  let text := JSON_stringify (JObject m') in
  (usage (<["moodTrackerData" := text]> (items st)) ≤ quota st)%nat →
  text ≠ "" → JSON_parse text = Some (JObject m') →
  ∃ st', saveTodaysMood today moodIndex st = Returns st'
         ∧ items st' = <["moodTrackerData" := text]> (items st)
         ∧ quota st' = quota st
         ∧ getMoodData st' = Returns (JObject m').
Proof.
  intros Hget m' text Hroom Htext Hback.
  eexists. split; [by apply MoodFacts.saveTodaysMood_object|].
  split; [done|]. split; [done|].
  eapply MoodFacts.getMoodData_parsed; [|exact Htext|exact Hback].
  unfold getItem; simpl. apply lookup_insert_eq.
Qed.

(** X13.  The streak counter cannot read what the tracker saves.
    [updateStreak] does nothing on a page without a streak counter; on
    a page with one it ends with a [TypeError] unless the stored value
    is a JSON array: so it does on empty storage, on malformed data, and
    on the mapping [saveTodaysMood] has just stored. *)
Theorem streak_counter_needs_an_array (dateStr : nat → string) :
  (∀ st, updateStreak false dateStr st = Returns None)
  ∧ (∀ st shown, updateStreak true dateStr st = Returns shown →
       ∃ elements, getMoodData st = Returns (JArray elements))
  ∧ (∀ st, getItem "moodTrackerData" st = None →
       updateStreak true dateStr st = Throws TypeError)
  ∧ (∀ st data, getItem "moodTrackerData" st = Some data →
       JSON_parse data = None →
       updateStreak true dateStr st = Throws TypeError)
  ∧ (∀ today moodIndex st m,
       getMoodData st = Returns (JObject m) →
       let m' := <[dateKey today := JNumber moodIndex]> m in
       let text := JSON_stringify (JObject m') in
       (usage (<["moodTrackerData" := text]> (items st)) ≤ quota st)%nat →
       text ≠ "" → JSON_parse text = Some (JObject m') →
       ∃ st', saveTodaysMood today moodIndex st = Returns st'
              ∧ updateStreak true dateStr st' = Throws TypeError).
Proof.
  split_and!.
  - done.
  - intros st shown Hshown.
    destruct (MoodFacts.getMoodData_returns JSON_parse st) as [v Hv].
    destruct (isArray v) eqn:Harr.
    + destruct v; try done. by eexists.
    + rewrite (updateStreak_not_array dateStr st v Hv Harr) in Hshown. done.
  - intros st Hnone.
    eapply updateStreak_not_array; [by apply MoodFacts.getMoodData_absent|done].
  - intros st data Hdata Hparse.
    eapply updateStreak_not_array;
      [by eapply MoodFacts.getMoodData_malformed|done].
  - intros today moodIndex st m Hget m' text Hroom Htext Hback.
    destruct (saved_mood_read_back today moodIndex st m Hget Hroom Htext Hback)
      as (st' & Hsave & _ & _ & Hget').
    exists st'. split; [done|].
    eapply updateStreak_not_array; [exact Hget'|done].
Qed.

(** X14.  The mood saved today is the one selected.  When the stored value
    is a mapping, the storage takes the write and the text written
    parses back, [loadMoodData] on the same day marks as selected
    exactly the button with the index that [saveTodaysMood] was given;
    and a second [saveTodaysMood] on that day replaces the first: the
    storage is the one a single call with the later index leaves. *)
Theorem saved_mood_is_selected_and_replaced (today : Date)
    (first second : nat) (buttons : nat) (st : Storage)
    (m : gmap string JSValue)
    (Hget : getMoodData st = Returns (JObject m))
    (Hback : ∀ index, index = first ∨ index = second →
       let text :=
         JSON_stringify
           (JObject (<[dateKey today := JNumber (Z.of_nat index)]> m)) in
       text ≠ ""
       ∧ JSON_parse text
         = Some (JObject (<[dateKey today := JNumber (Z.of_nat index)]> m))
       ∧ (usage (<["moodTrackerData" := text]> (items st)) ≤ quota st)%nat) :
  ∃ st1 st2,
    saveTodaysMood today (Z.of_nat first) st = Returns st1
    ∧ loadMoodData today buttons st1
      = Returns (Some ((λ index, bool_decide (index = first))
                         <$> seq 0 buttons))
    ∧ saveTodaysMood today (Z.of_nat second) st1 = Returns st2
    ∧ saveTodaysMood today (Z.of_nat second) st = Returns st2
    ∧ loadMoodData today buttons st2
      = Returns (Some ((λ index, bool_decide (index = second))
                         <$> seq 0 buttons)).
Proof.
  assert (∀ index st0 m0,
            getMoodData st0
            = Returns (JObject (<[dateKey today := JNumber (Z.of_nat index)]> m0)) →
            loadMoodData today buttons st0
            = Returns (Some ((λ i, bool_decide (i = index)) <$> seq 0 buttons)))
    as Hload.
  { intros index st0 m0 Hst0. unfold MoodReaders.loadMoodData.
    rewrite Hst0. simpl. rewrite lookup_insert_eq. do 2 f_equal.
    apply list_fmap_ext. intros _ i _. simpl.
    apply bool_decide_ext. lia. }
  destruct (Hback first) as (Ht1 & Hp1 & Hr1); [by left|].
  destruct (saved_mood_read_back today (Z.of_nat first) st m Hget Hr1 Ht1 Hp1)
    as (st1 & Hsave1 & Hitems1 & Hquota1 & Hget1).
  destruct (Hback second) as (Ht2 & Hp2 & Hr2); [by right|].
  destruct (saved_mood_read_back today (Z.of_nat second) st m Hget Hr2 Ht2 Hp2)
    as (st2 & Hsave2 & Hitems2 & Hquota2 & Hget2).
  exists st1, st2.
  split; [exact Hsave1|]. split; [by eapply Hload|].
  split; [|split; [exact Hsave2|by eapply Hload]].
  pose proof (MoodFacts.saveTodaysMood_object JSON_parse JSON_stringify
                strictMode today (Z.of_nat second) st m Hget Hr2) as E2.
  rewrite Hsave2 in E2. injection E2 as ->.
  pose proof (MoodFacts.saveTodaysMood_object JSON_parse JSON_stringify
                strictMode today (Z.of_nat second) st1 _ Hget1) as E1.
  simpl in E1. rewrite insert_insert_eq, Hitems1, insert_insert_eq, Hquota1 in E1.
  apply E1. exact Hr2.
Qed.

End WithBuiltins.

Lemma saved_mood_is_selected_and_replaced_witness :
  ∃ st1 st2,
    MoodTracker.saveTodaysMood flatParse flatStringify false
      (mkDate 2025 0 5) 3 sampleStorage = Returns st1
    ∧ MoodReaders.loadMoodData flatParse (mkDate 2025 0 5) 5 st1
      = Returns (Some [false; false; false; true; false])
    ∧ MoodTracker.saveTodaysMood flatParse flatStringify false
        (mkDate 2025 0 5) 1 st1 = Returns st2
    ∧ MoodReaders.loadMoodData flatParse (mkDate 2025 0 5) 5 st2
      = Returns (Some [false; true; false; false; false]).
Proof.
  destruct (saved_mood_is_selected_and_replaced flatParse flatStringify false
              (mkDate 2025 0 5) 3 1 5 sampleStorage yesterdayOnly)
    as (st1 & st2 & H1 & H2 & H3 & _ & H5).
  - by vm_compute.
  - intros index [-> | ->]; simpl; split_and!;
      try (vm_compute; (reflexivity || discriminate || lia)).
  - exists st1, st2. split_and!; done.
Defined.

End MoodReaderFacts.

(* ===================================================================== *)
(** * Properties of the SVG asset cache                                  *)
(* ===================================================================== *)

Module SvgCacheFacts.
Import SvgCache ListFacts.
Local Open Scope Z_scope.

Lemma mapGet_mapSet key value m : mapGet key (mapSet key value m) = Some value.
Proof.
  induction m as [|[k v] m IH]; simpl.
  - by rewrite decide_True.
  - destruct (decide (k = key)) as [->|Hk]; simpl.
    + by rewrite decide_True.
    + by rewrite decide_False.
Qed.

Lemma mapGet_mapDelete key m : mapGet key (mapDelete key m) = None.
Proof.
  induction m as [|[k v] m IH]; [done|].
  unfold mapDelete in *. rewrite filter_cons. simpl.
  destruct (decide (k ≠ key)) as [Hk|Hk]; simpl; [|done].
  by rewrite decide_False.
Qed.

Lemma mapGet_elem_of key m v : mapGet key m = Some v → (key, v) ∈ m.
Proof.
  induction m as [|[k x] m IH]; simpl; [done|].
  destruct (decide (k = key)) as [->|Hk].
  - intros [= ->]. apply list_elem_of_here.
  - intros H. apply list_elem_of_further. by apply IH.
Qed.

Lemma mapSet_keys_present key v m :
  key ∈ m.*1 → (mapSet key v m).*1 = m.*1.
Proof.
  induction m as [|[k x] m IH]; intros Hin; [by apply elem_of_nil in Hin|].
  cbn [mapSet]. destruct (decide (k = key)) as [->|Hk]; [reflexivity|].
  rewrite !fmap_cons. f_equal. apply IH.
  rewrite fmap_cons in Hin. apply elem_of_cons in Hin as [?|?]; [|done].
  simpl in *; congruence.
Qed.

Lemma mapSet_keys_absent key v m :
  key ∉ m.*1 → (mapSet key v m).*1 = m.*1 ++ [key].
Proof.
  induction m as [|[k x] m IH]; intros Hin; [reflexivity|].
  rewrite fmap_cons in Hin. apply not_elem_of_cons in Hin as [Hk Hin].
  cbn [mapSet]. rewrite decide_False by (simpl in Hk; congruence).
  rewrite !fmap_cons. simpl. f_equal. by apply IH.
Qed.

Lemma mapSet_NoDup key v m : NoDup m.*1 → NoDup (mapSet key v m).*1.
Proof.
  intros Hm. destruct (decide (key ∈ m.*1)) as [Hin|Hin].
  - by rewrite mapSet_keys_present.
  - rewrite mapSet_keys_absent by done.
    apply NoDup_app. split_and!; [done| |apply NoDup_singleton].
    intros x Hx ->%list_elem_of_singleton. done.
Qed.

Lemma mapSet_elem_of key v m e :
  e ∈ mapSet key v m → e = (key, v) ∨ e ∈ m.
Proof.
  induction m as [|[k x] m IH]; simpl.
  - intros ->%list_elem_of_singleton. by left.
  - destruct (decide (k = key)) as [->|Hk].
    + intros [->|He]%elem_of_cons; [by left|].
      right. by apply list_elem_of_further.
    + intros [->|He]%elem_of_cons; [right; apply list_elem_of_here|].
      destruct (IH He) as [->|?]; [by left|].
      right. by apply list_elem_of_further.
Qed.

Lemma mapDelete_NoDup key m : NoDup m.*1 → NoDup (mapDelete key m).*1.
Proof.
  intros Hm. unfold mapDelete.
  eapply sublist_NoDup; [done|]. apply fmap_sublist, sublist_filter.
Qed.

Lemma Forall_filter_keep {A} (P Q : A → Prop) `{!∀ x, Decision (Q x)}
    (l : list A) :
  Forall P l → Forall P (filter Q l).
Proof.
  rewrite !Forall_forall. intros HP x [_ Hx]%list_elem_of_filter. by apply HP.
Qed.

(** ** Bytes *)

Lemma cachedBytes_nonneg m : sizesOk m → 0 ≤ cachedBytes m.
Proof. induction 1; simpl; lia. Qed.

Lemma cachedBytes_filter_le (P : string * CacheEntry → Prop)
    `{!∀ e, Decision (P e)} m :
  sizesOk m → cachedBytes (filter P m) ≤ cachedBytes m.
Proof.
  induction 1 as [|e m He Hm IH]; [done|].
  rewrite filter_cons. destruct (decide (P e)); simpl; lia.
Qed.

Lemma cachedBytes_mapSet key v m :
  sizesOk m → cachedBytes (mapSet key v m) ≤ cachedBytes m + size v.
Proof.
  induction 1 as [|[k x] m Hx Hm IH]; simpl; [lia|].
  destruct (decide (k = key)); simpl in *; lia.
Qed.

(** With keys that are not repeated, deleting the key of an entry takes
    exactly its size off the bytes held. *)
Lemma cachedBytes_delete m e :
  NoDup m.*1 → e ∈ m →
  cachedBytes (mapDelete e.1 m) = cachedBytes m - size e.2.
Proof.
  induction m as [|x m IH]; intros Hm He; [by apply elem_of_nil in He|].
  apply NoDup_cons in Hm as [Hx Hm].
  unfold mapDelete in *. rewrite filter_cons.
  apply elem_of_cons in He as [->|He].
  - rewrite decide_False by (intros H; by apply H). simpl.
    rewrite filter_all; [lia|].
    apply Forall_forall. intros y Hy Heq. apply Hx. rewrite <- Heq.
    by apply list_elem_of_fmap_2.
  - rewrite decide_True.
    + simpl. rewrite IH by done. lia.
    + intros Heq. apply Hx. rewrite Heq. by apply list_elem_of_fmap_2.
Qed.

Lemma cachedBytes_app m1 m2 :
  cachedBytes (m1 ++ m2) = cachedBytes m1 + cachedBytes m2.
Proof. induction m1 as [|e m1 IH]; simpl; lia. Qed.

Lemma cachedBytes_perm m1 m2 : m1 ≡ₚ m2 → cachedBytes m1 = cachedBytes m2.
Proof. induction 1; simpl; lia. Qed.

Lemma blobSize_nonneg text : 0 ≤ blobSize text.
Proof. unfold blobSize. lia. Qed.

Lemma accounted_sizesOk c : accounted c → sizesOk (svgCache c).
Proof.
  intros (_ & Hs & _). eapply Forall_impl; [exact Hs|].
  intros e ->. apply blobSize_nonneg.
Qed.

(** ** The deletion loops *)

Lemma dropEntry_accounted c e :
  accounted c → e ∈ svgCache c → accounted (dropEntry c e).
Proof.
  intros (Hk & Hs & Hb) He. unfold accounted, dropEntry; simpl. split_and!.
  - by apply mapDelete_NoDup.
  - by apply Forall_filter_keep.
  - rewrite cachedBytes_delete by done. lia.
Qed.

Lemma dropAll_svgCache es : ∀ c,
  svgCache (foldl dropEntry c es) = filter (λ x, x.1 ∉ es.*1) (svgCache c).
Proof.
  induction es as [|e es IH]; intros c; simpl.
  - symmetry. apply filter_all, Forall_forall. intros x _. apply not_elem_of_nil.
  - rewrite IH. unfold dropEntry at 1; simpl. unfold mapDelete.
    rewrite list_filter_filter. apply list_filter_iff. intros x.
    rewrite not_elem_of_cons. tauto.
Qed.

Lemma dropAll_metrics es : ∀ c,
  cacheMetrics (foldl dropEntry c es)
  = mkMetrics (hits (cacheMetrics c)) (misses (cacheMetrics c))
              (errors (cacheMetrics c))
              (totalSize (cacheMetrics c) - cachedBytes es).
Proof.
  induction es as [|e es IH]; intros c; simpl.
  - destruct (cacheMetrics c); simpl. f_equal. lia.
  - rewrite IH. simpl. f_equal. lia.
Qed.

Lemma dropAll_accounted es : ∀ c,
  accounted c → NoDup es.*1 → (∀ e, e ∈ es → e ∈ svgCache c) →
  accounted (foldl dropEntry c es).
Proof.
  induction es as [|e es IH]; intros c Hc Hes Hin; [done|].
  rewrite fmap_cons in Hes. apply NoDup_cons in Hes as [He Hes].
  simpl. apply IH; [|done|].
  - apply dropEntry_accounted; [done|]. apply Hin, list_elem_of_here.
  - intros e' He'. simpl. apply list_elem_of_filter. split.
    + intros Heq. apply He. rewrite <- Heq. by apply list_elem_of_fmap_2.
    + by apply Hin, list_elem_of_further.
Qed.

(** ** Sorting by age *)

Lemma insertByAge_perm a l : insertByAge a l ≡ₚ a :: l.
Proof.
  induction l as [|b l IH]; simpl; [done|].
  destruct (decide _); [done|]. rewrite IH. apply Permutation_swap.
Qed.

Lemma sortByAge_perm l : sortByAge l ≡ₚ l.
Proof.
  induction l as [|a l IH]; simpl; [done|].
  by rewrite insertByAge_perm, IH.
Qed.

Lemma insertByAge_sorted a l :
  StronglySorted notYounger l → StronglySorted notYounger (insertByAge a l).
Proof.
  induction 1 as [|b l Hl IH Hb]; simpl.
  - by repeat constructor.
  - destruct (decide _) as [Hab|Hab].
    + constructor; [by constructor|].
      constructor; [unfold notYounger; lia|].
      eapply Forall_impl; [exact Hb|]. unfold notYounger. intros; lia.
    + constructor; [done|].
      rewrite insertByAge_perm. constructor; [unfold notYounger; lia|done].
Qed.

Lemma sortByAge_sorted l : StronglySorted notYounger (sortByAge l).
Proof.
  induction l as [|a l IH]; simpl; [constructor|].
  by apply insertByAge_sorted.
Qed.

Lemma toRemove_le n : (toRemove n ≤ n)%nat.
Proof.
  unfold toRemove. destruct n as [|n]; [done|].
  apply Nat.Div0.div_le_upper_bound. lia.
Qed.

(** The entries the eviction deletes are entries of the map, with
    distinct keys when the map has. *)
Lemma evicted_elem_of m e : e ∈ evicted m → e ∈ m.
Proof.
  unfold evicted. intros (i & He & _)%elem_of_take.
  apply list_elem_of_lookup_2 in He. by rewrite sortByAge_perm in He.
Qed.

Lemma evicted_NoDup m : NoDup m.*1 → NoDup (evicted m).*1.
Proof.
  intros Hm. unfold evicted. eapply sublist_NoDup.
  - rewrite <- (sortByAge_perm m) in Hm. exact Hm.
  - apply fmap_sublist, sublist_take.
Qed.

Lemma evict_accounted c : accounted c → accounted (evictOldestCacheEntries c).
Proof.
  intros Hc. apply dropAll_accounted; [done| |].
  - apply evicted_NoDup, Hc.
  - apply evicted_elem_of.
Qed.

Lemma cleanupResources_eq now c :
  cleanupResources now c
  = foldl dropEntry c
      (filter (λ e, now - timestamp e.2 > maxCacheAge) (svgCache c)).
Proof.
  unfold cleanupResources.
  enough (∀ es c',
    foldl (λ c e, if decide (now - timestamp e.2 > maxCacheAge)
                  then dropEntry c e else c) c' es
    = foldl dropEntry c'
        (filter (λ e, now - timestamp e.2 > maxCacheAge) es)) as H by apply H.
  induction es as [|e es IH]; intros c'; [done|].
  simpl. rewrite filter_cons. destruct (decide _); simpl; apply IH.
Qed.

Lemma cleanupResources_accounted now c :
  accounted c → accounted (cleanupResources now c).
Proof.
  intros Hc. rewrite cleanupResources_eq. apply dropAll_accounted; [done| |].
  - eapply sublist_NoDup; [apply Hc|]. apply fmap_sublist, sublist_filter.
  - intros e He. by apply list_elem_of_filter in He as [_ He].
Qed.

Section Keys.
Variable toLowerCase : string → string.

Lemma getCachedSVG_accounted now assetPath c :
  accounted c → accounted (getCachedSVG toLowerCase now assetPath c).2.
Proof.
  intros Hc. pose proof Hc as (Hk & Hs & Hb). unfold getCachedSVG.
  destruct (mapGet _ _) as [cached|]; [|done].
  destruct (decide _); [|done].
  unfold accounted; simpl. split_and!.
  - by apply mapDelete_NoDup.
  - by apply Forall_filter_keep.
  - pose proof (cachedBytes_filter_le (λ e, e.1 ≠ toLowerCase assetPath)
                  (svgCache c) (accounted_sizesOk c Hc)).
    unfold mapDelete. lia.
Qed.

Lemma setCachedSVG_accounted now assetPath text c :
  accounted c → accounted (setCachedSVG toLowerCase now assetPath text c).
Proof.
  intros Hc. unfold setCachedSVG.
  set (c1 := if decide _ then _ else c).
  assert (accounted c1) as Hc1.
  { subst c1. destruct (decide _); [by apply evict_accounted|done]. }
  pose proof Hc1 as (Hk & Hs & Hb).
  unfold accounted; simpl. split_and!.
  - by apply mapSet_NoDup.
  - apply Forall_forall. intros e [->|He]%mapSet_elem_of; [done|].
    by eapply Forall_forall in Hs.
  - pose proof (cachedBytes_mapSet (toLowerCase assetPath)
                  (mkEntry text now (blobSize text) 1) (svgCache c1)
                  (accounted_sizesOk c1 Hc1)).
    simpl in *. lia.
Qed.

Lemma cacheStep_accounted c e :
  accounted c → accounted (cacheStep toLowerCase c e).
Proof.
  intros Hc. destruct e; simpl.
  - by apply getCachedSVG_accounted.
  - by apply setCachedSVG_accounted.
  - unfold checkForMemoryLeaks. destruct (decide _); [|done].
    by apply evict_accounted.
  - by apply cleanupResources_accounted.
  - destruct Hc as (Hk & Hs & Hb).
    pose proof (cachedBytes_nonneg _ (accounted_sizesOk c (conj Hk (conj Hs Hb)))).
    unfold accounted, cleanup; simpl. split_and!; [constructor|constructor|lia].
Qed.

Lemma cacheRun_accounted events : ∀ c,
  accounted c → accounted (cacheRun toLowerCase c events).
Proof.
  induction events as [|e events IH]; intros c Hc; [done|].
  simpl. by apply IH, cacheStep_accounted.
Qed.

Lemma empty_accounted : accounted empty.
Proof. unfold accounted; simpl. split_and!; [constructor|constructor|lia]. Qed.

(** X15.  The accounting invariant.  After any sequence of cache
    operations the bytes actually held (every entry counted with the
    byte size of its content) never exceed [cacheMetrics.totalSize], and
    no key is held twice. *)
Theorem cache_total_covers_bytes_held (events : list CacheEvent) :
  let c := cacheRun toLowerCase empty events in
  NoDup (svgCache c).*1
  ∧ Forall (λ e, size e.2 = blobSize (content e.2)) (svgCache c)
  ∧ 0 ≤ cachedBytes (svgCache c) ≤ totalSize (cacheMetrics c).
Proof.
  pose proof (cacheRun_accounted events empty empty_accounted) as Hc.
  pose proof (cachedBytes_nonneg _ (accounted_sizesOk _ Hc)).
  destruct Hc as (Hk & Hs & Hb). simpl. split_and!; done.
Qed.

(** ** Lookups *)

Lemma dropAll_hits es c :
  hits (cacheMetrics (foldl dropEntry c es)) = hits (cacheMetrics c)
  ∧ misses (cacheMetrics (foldl dropEntry c es)) = misses (cacheMetrics c)
  ∧ errors (cacheMetrics (foldl dropEntry c es)) = errors (cacheMetrics c).
Proof. by rewrite dropAll_metrics. Qed.

Lemma cacheStep_counts c e :
  let c' := cacheStep toLowerCase c e in
  hits (cacheMetrics c') + misses (cacheMetrics c')
  = hits (cacheMetrics c) + misses (cacheMetrics c)
    + (if isLookup e then 1 else 0)
  ∧ hits (cacheMetrics c) ≤ hits (cacheMetrics c')
  ∧ misses (cacheMetrics c) ≤ misses (cacheMetrics c')
  ∧ errors (cacheMetrics c') = errors (cacheMetrics c).
Proof.
  destruct e; simpl.
  - unfold getCachedSVG. destruct (mapGet _ _); [destruct (decide _)|];
      simpl; lia.
  - unfold setCachedSVG. destruct (decide _); simpl; [|lia].
    unfold evictOldestCacheEntries.
    destruct (dropAll_hits (evicted (svgCache c)) c) as (-> & -> & ->). lia.
  - unfold checkForMemoryLeaks. destruct (decide _); [|lia].
    unfold evictOldestCacheEntries.
    destruct (dropAll_hits (evicted (svgCache c)) c) as (-> & -> & ->). lia.
  - rewrite cleanupResources_eq.
    destruct (dropAll_hits
                (filter (λ e, now - timestamp e.2 > maxCacheAge) (svgCache c)) c)
      as (-> & -> & ->). lia.
  - lia.
Qed.

Lemma cacheRun_counts events : ∀ c,
  let c' := cacheRun toLowerCase c events in
  hits (cacheMetrics c') + misses (cacheMetrics c')
  = hits (cacheMetrics c) + misses (cacheMetrics c) + Z.of_nat (lookups events)
  ∧ hits (cacheMetrics c) ≤ hits (cacheMetrics c')
  ∧ misses (cacheMetrics c) ≤ misses (cacheMetrics c')
  ∧ errors (cacheMetrics c') = errors (cacheMetrics c).
Proof.
  induction events as [|e events IH]; intros c; simpl; [unfold lookups; simpl; lia|].
  specialize (IH (cacheStep toLowerCase c e)). simpl in IH.
  pose proof (cacheStep_counts c e) as Hs. simpl in Hs.
  unfold lookups in *. rewrite filter_cons.
  destruct (decide (isLookup e = true)) as [He|He].
  - rewrite He in Hs. simpl length. lia.
  - apply not_true_is_false in He. rewrite He in Hs. lia.
Qed.

(** X16.  Every lookup is counted once.  A call of [getCachedSVG] that
    returns content adds one hit, a call that returns [null] adds one
    miss; after any sequence of cache operations hits plus misses is the
    number of lookups made, and the cache operations never touch the
    error count. *)
Theorem every_lookup_counts_once :
  (∀ now assetPath c,
     let r := getCachedSVG toLowerCase now assetPath c in
     match r.1 with
     | Some _ => hits (cacheMetrics r.2) = hits (cacheMetrics c) + 1
                 ∧ misses (cacheMetrics r.2) = misses (cacheMetrics c)
     | None => hits (cacheMetrics r.2) = hits (cacheMetrics c)
               ∧ misses (cacheMetrics r.2) = misses (cacheMetrics c) + 1
     end)
  ∧ (∀ events,
       let c := cacheRun toLowerCase empty events in
       hits (cacheMetrics c) + misses (cacheMetrics c)
       = Z.of_nat (lookups events)
       ∧ 0 ≤ hits (cacheMetrics c) ∧ 0 ≤ misses (cacheMetrics c)
       ∧ errors (cacheMetrics c) = 0).
Proof.
  split.
  - intros now assetPath c. unfold getCachedSVG.
    destruct (mapGet _ _); [destruct (decide _)|]; simpl; done.
  - intros events. pose proof (cacheRun_counts events empty) as H.
    simpl in *. lia.
Qed.

(** ** Store, then look up *)

Lemma getCachedSVG_fresh now assetPath c cached :
  mapGet (toLowerCase assetPath) (svgCache c) = Some cached →
  now - timestamp cached ≤ maxCacheAge →
  (getCachedSVG toLowerCase now assetPath c).1 = Some (content cached)
  ∧ svgCache (getCachedSVG toLowerCase now assetPath c).2 = svgCache c.
Proof.
  intros Hget Hage. unfold getCachedSVG. rewrite Hget.
  by rewrite decide_False by lia.
Qed.

Lemma getCachedSVG_expired now assetPath c cached :
  mapGet (toLowerCase assetPath) (svgCache c) = Some cached →
  now - timestamp cached > maxCacheAge →
  (getCachedSVG toLowerCase now assetPath c).1 = None
  ∧ svgCache (getCachedSVG toLowerCase now assetPath c).2
    = mapDelete (toLowerCase assetPath) (svgCache c).
Proof.
  intros Hget Hage. unfold getCachedSVG. rewrite Hget.
  by rewrite decide_True by lia.
Qed.

Lemma getCachedSVG_absent now assetPath c :
  mapGet (toLowerCase assetPath) (svgCache c) = None →
  (getCachedSVG toLowerCase now assetPath c).1 = None
  ∧ svgCache (getCachedSVG toLowerCase now assetPath c).2 = svgCache c.
Proof. intros Hget. unfold getCachedSVG. by rewrite Hget. Qed.

Lemma setCachedSVG_get now assetPath text c :
  mapGet (toLowerCase assetPath)
         (svgCache (setCachedSVG toLowerCase now assetPath text c))
  = Some (mkEntry text now (blobSize text) 1).
Proof. unfold setCachedSVG. simpl. apply mapGet_mapSet. Qed.

(** X17.  A stored document is served until it expires.  After
    [setCachedSVG(p, text)], whatever the size of the text and the state
    of the cache, [getCachedSVG(p')] for a path with the same lower-case
    form returns the text as long as no more than [maxCacheAge]
    milliseconds have passed, and leaves the entries as they are; later
    than that it returns [null] and removes the entry. *)
Theorem stored_svg_served_until_expiry (now now' : Z)
    (assetPath assetPath' text : string) (c : Cache)
    (Hkey : toLowerCase assetPath = toLowerCase assetPath') :
  let stored := setCachedSVG toLowerCase now assetPath text c in
  let r := getCachedSVG toLowerCase now' assetPath' stored in
  (now' - now ≤ maxCacheAge →
     r.1 = Some text ∧ svgCache r.2 = svgCache stored)
  ∧ (now' - now > maxCacheAge →
       r.1 = None ∧ mapGet (toLowerCase assetPath) (svgCache r.2) = None).
Proof.
  intros stored r. subst r.
  pose proof (setCachedSVG_get now assetPath text c) as Hget.
  fold stored in Hget. rewrite Hkey in Hget. split; intros Hage.
  - by apply (getCachedSVG_fresh now' assetPath' stored _ Hget).
  - destruct (getCachedSVG_expired now' assetPath' stored _ Hget) as [-> ->];
      [simpl; lia|].
    split; [done|]. rewrite Hkey. apply mapGet_mapDelete.
Qed.

(** ** Eviction *)

Lemma filter_keys_split (es rest : list (string * CacheEntry)) :
  NoDup (es ++ rest).*1 → filter (λ x, x.1 ∉ es.*1) (es ++ rest) = rest.
Proof.
  rewrite fmap_app. intros (_ & Hdis & _)%NoDup_app.
  rewrite filter_app, filter_none, filter_all; [done| |].
  - apply Forall_forall. intros x Hx Hin. eapply Hdis; [exact Hin|].
    by apply list_elem_of_fmap_2.
  - apply Forall_forall. intros x Hx Hin. apply Hin.
    by apply list_elem_of_fmap_2.
Qed.

Lemma evicted_kept m :
  NoDup m.*1 →
  filter (λ x, x.1 ∉ (evicted m).*1) m
  ≡ₚ drop (toRemove (length m)) (sortByAge m).
Proof.
  intros Hm. unfold evicted.
  set (k := toRemove (length m)). set (es := take k (sortByAge m)).
  assert (sortByAge m = es ++ drop k (sortByAge m)) as Heq
    by (symmetry; apply take_drop).
  transitivity (filter (λ x, x.1 ∉ es.*1) (es ++ drop k (sortByAge m))).
  - apply filter_Permutation. rewrite <- Heq. symmetry. apply sortByAge_perm.
  - rewrite filter_keys_split; [done|].
    rewrite <- Heq. by rewrite sortByAge_perm.
Qed.

(** X18.  Eviction drops the oldest quarter.  In any state the cache can
    reach, [evictOldestCacheEntries] removes [ceil(n / 4)] of the [n]
    entries; no entry it removes is younger than one it keeps; the
    entries kept stay as they were and in their order; and the total of
    the metrics goes down by exactly the bytes removed. *)
Theorem eviction_drops_oldest_quarter (events : list CacheEvent) :
  let c := cacheRun toLowerCase empty events in
  let c' := evictOldestCacheEntries c in
  length (svgCache c')
  = (length (svgCache c) - toRemove (length (svgCache c)))%nat
  ∧ svgCache c' `sublist_of` svgCache c
  ∧ (∀ gone kept,
       gone ∈ svgCache c → gone ∉ svgCache c' → kept ∈ svgCache c' →
       timestamp gone.2 ≤ timestamp kept.2)
  ∧ totalSize (cacheMetrics c')
    = totalSize (cacheMetrics c)
      - (cachedBytes (svgCache c) - cachedBytes (svgCache c')).
Proof.
  intros c c'.
  pose proof (cacheRun_accounted events empty empty_accounted) as Hc.
  fold c in Hc. destruct Hc as (Hk & _ & _).
  assert (svgCache c' = filter (λ x, x.1 ∉ (evicted (svgCache c)).*1)
                               (svgCache c)) as Hc'
    by apply dropAll_svgCache.
  pose proof (evicted_kept (svgCache c) Hk) as Hkept. rewrite <- Hc' in Hkept.
  pose proof (sortByAge_sorted (svgCache c)) as Hsorted.
  rewrite <- (take_drop (toRemove (length (svgCache c)))
                        (sortByAge (svgCache c))) in Hsorted.
  split_and!.
  - rewrite Hkept, length_drop.
    by rewrite (Permutation_length (sortByAge_perm (svgCache c))).
  - rewrite Hc'. apply sublist_filter.
  - intros gone kept Hgone Hnot Hin.
    apply (StronglySorted_app_1_elem_of notYounger _ _ gone kept Hsorted).
    + rewrite <- (sortByAge_perm (svgCache c)) in Hgone.
      rewrite <- (take_drop (toRemove (length (svgCache c)))
                            (sortByAge (svgCache c))) in Hgone.
      apply elem_of_app in Hgone as [?|Hd]; [done|].
      rewrite <- Hkept in Hd. done.
    + by rewrite <- Hkept.
  - pose proof (cachedBytes_perm _ _ Hkept) as Hb1.
    pose proof (cachedBytes_perm _ _ (sortByAge_perm (svgCache c))) as Hb2.
    rewrite <- (take_drop (toRemove (length (svgCache c)))
                          (sortByAge (svgCache c))) in Hb2.
    rewrite cachedBytes_app in Hb2.
    unfold c' at 1, evictOldestCacheEntries. rewrite dropAll_metrics. simpl.
    unfold evicted. lia.
Qed.

End Keys.

Lemma stored_svg_served_until_expiry_witness :
  (getCachedSVG lowerCaseAscii 1800000 hairPathLower
     (setCachedSVG lowerCaseAscii 0 hairPath hairSvg empty)).1 = Some hairSvg
  ∧ (getCachedSVG lowerCaseAscii 1800001 hairPathLower
       (setCachedSVG lowerCaseAscii 0 hairPath hairSvg empty)).1 = None.
Proof.
  assert (lowerCaseAscii hairPath = lowerCaseAscii hairPathLower) as Hkey
    by reflexivity.
  split.
  - apply (stored_svg_served_until_expiry lowerCaseAscii 0 1800000
             hairPath hairPathLower hairSvg empty Hkey).
    unfold maxCacheAge. lia.
  - apply (stored_svg_served_until_expiry lowerCaseAscii 0 1800001
             hairPath hairPathLower hairSvg empty Hkey).
    unfold maxCacheAge. lia.
Defined.

End SvgCacheFacts.

(* ===================================================================== *)
(** * Properties of the performance monitoring                           *)
(* ===================================================================== *)

Module PerformanceLogFacts.
Import PerformanceLog.
Local Open Scope Z_scope.

(** Appending to the last [n] and dropping the first when there are more
    than [n] gives the last [n] again. *)
Lemma lastN_push {A} (n : nat) (l : list A) (x : A) :
  (let pushed := lastN n l ++ [x] in
   if decide (n < length pushed)%nat then shift pushed else pushed)
  = lastN n (l ++ [x]).
Proof.
  unfold lastN, shift. simpl. rewrite !length_app, !length_drop. simpl.
  destruct (decide (length l < n)%nat) as [Hs|Hs].
  - rewrite decide_False by lia.
    replace (length l - n)%nat with 0%nat by lia.
    replace (length l + 1 - n)%nat with 0%nat by lia. done.
  - rewrite decide_True by lia.
    rewrite !drop_app, drop_drop, length_drop. f_equal; f_equal; lia.
Qed.

Lemma lastN_length {A} (n : nat) (l : list A) :
  length (lastN n l) = (length l `min` n)%nat.
Proof. unfold lastN. rewrite length_drop. lia. Qed.

Lemma omap_snoc {A B} (f : A → option B) (l : list A) (x : A) :
  omap f (l ++ [x]) = omap f l ++ option_list (f x).
Proof. rewrite omap_app. simpl. by destruct (f x). Qed.

Lemma monitorStep_errorLog m call history :
  errorLog m = lastN 100 history →
  errorLog (monitorStep m call)
  = lastN 100 (history ++ option_list (loggedBy call)).
Proof.
  intros Hm. destruct call as [now type [| |text stack] source line|now memory h cn];
    simpl; rewrite ?app_nil_r; try done.
  - rewrite Hm. apply (lastN_push 100).
  - by destruct memory as [[[??]?]|].
Qed.

Lemma monitorStep_memoryUsage m call history :
  memoryUsage m = lastN 50 history →
  memoryUsage (monitorStep m call)
  = lastN 50 (history ++ option_list (sampledBy call)).
Proof.
  intros Hm. destruct call as [now type [| |text stack] source line|now memory h cn];
    simpl; rewrite ?app_nil_r; try done.
  destruct memory as [[[used total] limit]|]; simpl; rewrite ?app_nil_r; [|done].
  rewrite Hm. apply (lastN_push 50).
Qed.

Lemma monitorStep_errors m call :
  SvgCache.errors (SvgCache.cacheMetrics (cache (monitorStep m call)))
  = SvgCache.errors (SvgCache.cacheMetrics (cache m))
    + Z.of_nat (length (option_list (loggedBy call))).
Proof.
  destruct call as [now type [| |text stack] source line|now memory h cn];
    simpl; try lia.
  destruct memory as [[[used total] limit]|]; simpl; [|lia].
  destruct h; [|lia].
  rewrite SvgCacheFacts.cleanupResources_eq.
  rewrite SvgCacheFacts.dropAll_metrics. simpl. lia.
Qed.

Lemma monitor_history calls : ∀ m errors samples,
  errorLog m = lastN 100 errors →
  memoryUsage m = lastN 50 samples →
  let m' := foldl monitorStep m calls in
  errorLog m' = lastN 100 (errors ++ omap loggedBy calls)
  ∧ memoryUsage m' = lastN 50 (samples ++ omap sampledBy calls)
  ∧ SvgCache.errors (SvgCache.cacheMetrics (cache m'))
    = SvgCache.errors (SvgCache.cacheMetrics (cache m))
      + Z.of_nat (length (omap loggedBy calls)).
Proof.
  induction calls as [|call calls IH]; intros m errors samples He Hs; simpl.
  - rewrite !app_nil_r. split_and!; [done|done|lia].
  - pose proof (monitorStep_errorLog m call errors He) as He'.
    pose proof (monitorStep_memoryUsage m call samples Hs) as Hs'.
    destruct (IH _ _ _ He' Hs') as (IH1 & IH2 & IH3).
    rewrite IH1, IH2, IH3, monitorStep_errors.
    rewrite <- !(assoc_L (++)).
    split_and!.
    + f_equal. f_equal. by destruct (loggedBy call).
    + f_equal. f_equal. by destruct (sampledBy call).
    + destruct (loggedBy call); simpl;
        change (list_omap MonitorCall ErrorEntry loggedBy calls)
          with (omap loggedBy calls); lia.
Qed.

(** X19.  The error log keeps the last hundred.  After any sequence of
    calls, [performanceMetrics.errors] holds, in order, the last 100
    entries logged (all of them while there are fewer), while
    [cacheMetrics.errors] counts every entry ever logged; a call whose
    [error] is [null] or [undefined] logs and counts nothing. *)
Theorem error_log_keeps_last_hundred (calls : list MonitorCall) :
  let m := monitorRun calls in
  let logged := omap loggedBy calls in
  errorLog m = lastN 100 logged
  ∧ (length (errorLog m) ≤ 100)%nat
  ∧ SvgCache.errors (SvgCache.cacheMetrics (cache m))
    = Z.of_nat (length logged).
Proof.
  intros m logged.
  destruct (monitor_history calls freshMonitor [] [] eq_refl eq_refl)
    as (He & _ & Hn).
  fold (monitorRun calls) in He, Hn. fold m in He, Hn.
  simpl in He, Hn. fold logged in He, Hn.
  split_and!; [done| |lia].
  rewrite He, lastN_length. lia.
Qed.

(** X20.  The memory samples keep the last fifty.  After any sequence of
    calls, [performanceMetrics.memoryUsage] holds, in order, the last 50
    samples taken; a call in a browser without [performance.memory]
    takes none, and the clean-up a high reading triggers leaves the
    samples alone. *)
Theorem memory_samples_keep_last_fifty (calls : list MonitorCall) :
  let m := monitorRun calls in
  let sampled := omap sampledBy calls in
  memoryUsage m = lastN 50 sampled
  ∧ (length (memoryUsage m) ≤ 50)%nat.
Proof.
  intros m sampled.
  destruct (monitor_history calls freshMonitor [] [] eq_refl eq_refl)
    as (_ & Hs & _).
  fold (monitorRun calls) in Hs. fold m in Hs.
  simpl in Hs. fold sampled in Hs.
  split; [done|]. rewrite Hs, lastN_length. lia.
Qed.

End PerformanceLogFacts.

(* ===================================================================== *)
(** * Properties of the track navigation                                 *)
(* ===================================================================== *)

Module MusicPlayerFacts.
Import MusicPlayer.
Local Open Scope Z_scope.

Section Seconds.
Context {Seconds : Type}.
Variable zero : Seconds.
Variable geq : Seconds → Seconds → bool.

Local Abbreviation nextTrack := (MusicPlayer.nextTrack zero).
Local Abbreviation previousTrack := (MusicPlayer.previousTrack zero).
Local Abbreviation playerStep := (MusicPlayer.playerStep zero geq).
Local Abbreviation playerRun := (MusicPlayer.playerRun zero geq).
Local Abbreviation initial := (MusicPlayer.initial zero).

Lemma nextTrack_inPlaylist p : inPlaylist p → inPlaylist (nextTrack p).
Proof.
  unfold inPlaylist, MusicPlayer.nextTrack, playlistLength; simpl. intros [Hi Hd].
  split; [|done]. rewrite Z.rem_mod_nonneg by lia.
  pose proof (Z.mod_pos_bound (currentTrackIndex p + 1) 9). lia.
Qed.

Lemma previousTrack_inPlaylist p : inPlaylist p → inPlaylist (previousTrack p).
Proof.
  unfold inPlaylist, MusicPlayer.previousTrack, playlistLength; simpl. intros [Hi Hd].
  split; [|done]. rewrite Z.rem_mod_nonneg by lia.
  pose proof (Z.mod_pos_bound (currentTrackIndex p - 1 + 9) 9). lia.
Qed.

Lemma playerStep_inPlaylist p e : inPlaylist p → inPlaylist (playerStep p e).
Proof.
  intros Hp. destruct e; simpl.
  - by apply nextTrack_inPlaylist.
  - by apply previousTrack_inPlaylist.
  - done.
  - unfold progressTick. destruct (isPlaying p); [|done].
    destruct (currentDuration p); [|done].
    destruct (geq _ _); [apply nextTrack_inPlaylist|]; done.
  - destruct Hp as [Hi Hd]. split; [done|]. simpl. by rewrite length_insert.
  - by apply nextTrack_inPlaylist.
  - done.
  - done.
Qed.

Lemma playerRun_inPlaylist events : inPlaylist (playerRun events).
Proof.
  unfold MusicPlayer.playerRun.
  assert (inPlaylist initial) as H by (split; [unfold playlistLength; simpl; lia|done]).
  revert H. generalize initial. induction events as [|e events IH]; intros p Hp; [done|].
  simpl. by apply IH, playerStep_inPlaylist.
Qed.

(** X21.  Track navigation stays in the playlist and is cyclic.  In every
    state the player can reach, the index of the current track is one of
    the nine of the playlist; "next" and "previous" undo each other on
    it, from the last track "next" goes to the first and from the first
    "previous" goes to the last, and nine times "next" comes back to the
    same track.  Both reset the position in the track to 0. *)
Theorem track_navigation_is_cyclic (events : list PlayerEvent) :
  let p := playerRun events in
  0 ≤ currentTrackIndex p < 9
  ∧ is_Some (currentDuration p)
  ∧ currentTrackIndex (previousTrack (nextTrack p)) = currentTrackIndex p
  ∧ currentTrackIndex (nextTrack (previousTrack p)) = currentTrackIndex p
  ∧ (currentTrackIndex p = 8 → currentTrackIndex (nextTrack p) = 0)
  ∧ (currentTrackIndex p = 0 → currentTrackIndex (previousTrack p) = 8)
  ∧ currentTrackIndex (Nat.iter 9 nextTrack p) = currentTrackIndex p
  ∧ currentTime (nextTrack p) = zero ∧ currentTime (previousTrack p) = zero.
Proof.
  intros p. destruct (playerRun_inPlaylist events) as [Hi Hd]. fold p in Hi, Hd.
  clearbody p. unfold playlistLength in Hi.
  split; [done|]. split.
  { unfold currentDuration. apply lookup_lt_is_Some. lia. }
  unfold MusicPlayer.previousTrack, MusicPlayer.nextTrack, playlistLength.
  simpl.
  assert (currentTrackIndex p ∈ [0; 1; 2; 3; 4; 5; 6; 7; 8]) as Hcases.
  { rewrite !elem_of_cons. lia. }
  rewrite !elem_of_cons in Hcases.
  destruct Hcases as [H|[H|[H|[H|[H|[H|[H|[H|[H|H]]]]]]]]];
    [rewrite H; split_and!; done..|by apply elem_of_nil in H].
Qed.

End Seconds.

End MusicPlayerFacts.

(* ===================================================================== *)
(** * Properties of five in a row                                        *)
(* ===================================================================== *)

Module FiveInARowFacts.
Import FiveInARow.
Local Open Scope Z_scope.

(** ** The board *)

Lemma inBoard_spec r c : inBoard r c = true ↔ 0 ≤ r < 8 ∧ 0 ≤ c < 8.
Proof. unfold inBoard, boardSize. lia. Qed.

Lemma elem_of_indices r : r ∈ indices ↔ 0 ≤ r < 8.
Proof. unfold indices. rewrite !elem_of_cons, elem_of_nil. lia. Qed.

Lemma elem_of_allCells r c : (r, c) ∈ allCells ↔ inBoard r c = true.
Proof.
  rewrite inBoard_spec. unfold allCells. rewrite list_elem_of_bind. split.
  - intros (r' & (c' & Hp & Hc)%list_elem_of_bind & Hr).
    apply list_elem_of_singleton in Hp. injection Hp as -> ->.
    by rewrite <- !elem_of_indices.
  - intros [Hr Hc]. exists r. split; [|by apply elem_of_indices].
    apply list_elem_of_bind. exists c. split; [|by apply elem_of_indices].
    by apply list_elem_of_singleton.
Qed.

Lemma cell_setCell_same b r c v :
  wellFormed b → inBoard r c = true → cell (setCell b r c v) r c = v.
Proof.
  intros [Hlen Hrows] [Hr Hc]%inBoard_spec. unfold cell, setCell.
  rewrite list_lookup_alter_eq.
  destruct (b !! Z.to_nat r) as [cells|] eqn:Hcells; simpl.
  - rewrite list_lookup_insert_eq; [done|].
    eapply Forall_lookup_1 in Hrows as [Hl _]; [|done]. lia.
  - apply lookup_ge_None in Hcells. lia.
Qed.

Lemma cell_setCell_other b r c v r' c' :
  0 ≤ r → 0 ≤ c → 0 ≤ r' → 0 ≤ c' → (r, c) ≠ (r', c') →
  cell (setCell b r c v) r' c' = cell b r' c'.
Proof.
  intros Hr Hc Hr' Hc' Hne. unfold cell, setCell.
  destruct (decide (r = r')) as [->|Hrr].
  - rewrite list_lookup_alter_eq.
    destruct (b !! Z.to_nat r') as [cells|]; simpl; [|done].
    rewrite list_lookup_insert_ne; [done|]. intros Heq.
    apply Hne. f_equal. lia.
  - rewrite list_lookup_alter_ne; [done|]. lia.
Qed.

Lemma setCell_wellFormed b r c v :
  v = 0 ∨ v = 1 ∨ v = 2 → wellFormed b → wellFormed (setCell b r c v).
Proof.
  intros Hv [Hlen Hrows]. unfold setCell. split.
  - by rewrite length_alter.
  - apply Forall_alter; [done|]. intros cells Hcells [Hl Hvs]. split.
    + by rewrite length_insert.
    + by apply Forall_insert.
Qed.

Lemma emptyBoard_wellFormed : wellFormed emptyBoard.
Proof.
  split; [done|]. unfold emptyBoard. apply Forall_replicate.
  split; [done|]. apply Forall_replicate. by left.
Qed.

(** ** Scanning a line *)

Lemma scan_four test :
  ∃ n, (n ≤ 4)%nat
       ∧ scan test [1; 2; 3; 4] = take n [1; 2; 3; 4]
       ∧ (∀ i, 1 ≤ i ≤ Z.of_nat n → test i = true)
       ∧ (∀ m, (m ≤ 4)%nat → (∀ i, 1 ≤ i ≤ Z.of_nat m → test i = true) →
               (m ≤ n)%nat).
Proof.
  assert (∀ i, 1 ≤ i ≤ 4 → i = 1 ∨ i = 2 ∨ i = 3 ∨ i = 4) as H4 by lia.
  simpl.
  destruct (test 1) eqn:H1; [destruct (test 2) eqn:H2;
    [destruct (test 3) eqn:H3; [destruct (test 4) eqn:H4'|]|]|].
  - exists 4%nat. split_and!; [lia|done| |lia].
    intros i Hi. destruct (H4 i) as [->|[->|[->| ->]]]; [lia|done..].
  - exists 3%nat. split_and!; [lia|done| |].
    + intros i Hi. assert (i = 1 ∨ i = 2 ∨ i = 3) as [->|[->| ->]] by lia; done.
    + intros m Hm Hall. destruct (decide (m ≤ 3)%nat); [done|].
      rewrite Hall in H4' by lia. done.
  - exists 2%nat. split_and!; [lia|done| |].
    + intros i Hi. assert (i = 1 ∨ i = 2) as [->| ->] by lia; done.
    + intros m Hm Hall. destruct (decide (m ≤ 2)%nat); [done|].
      rewrite Hall in H3 by lia. done.
  - exists 1%nat. split_and!; [lia|done| |].
    + intros i Hi. assert (i = 1) as -> by lia; done.
    + intros m Hm Hall. destruct (decide (m ≤ 1)%nat); [done|].
      rewrite Hall in H2 by lia. done.
  - exists 0%nat. split_and!; [lia|done| |].
    + intros i Hi. lia.
    + intros m Hm Hall. destruct (decide (m ≤ 0)%nat); [done|].
      rewrite Hall in H1 by lia. done.
Qed.

Lemma elem_of_take_four n i :
  (n ≤ 4)%nat → i ∈ take n [1; 2; 3; 4] ↔ 1 ≤ i ≤ Z.of_nat n.
Proof.
  intros Hn.
  assert (n = 0 ∨ n = 1 ∨ n = 2 ∨ n = 3 ∨ n = 4)%nat
    as [->|[->|[->|[->| ->]]]] by lia;
    simpl; rewrite ?elem_of_cons, elem_of_nil; lia.
Qed.

Lemma NoDup_take_four n : NoDup (take n [1; 2; 3; 4]).
Proof.
  eapply sublist_NoDup; [|apply sublist_take].
  repeat (apply NoDup_cons; split;
          [rewrite ?elem_of_cons, elem_of_nil; lia|]).
  constructor.
Qed.

(** The steps, counted in direction [d], at which [checkWin] collects
    cells: none, those ahead, those behind. *)
Lemma lineCells_steps b player row col d :
  lineCells b player row col d
  = stepFrom row col d
      <$> 0 :: ahead b player row col d.1 d.2
             ++ (Z.opp <$> behind b player row col d.1 d.2).
Proof.
  unfold lineCells, stepFrom. rewrite fmap_cons, fmap_app. f_equal.
  - f_equal; lia.
  - f_equal. rewrite <- list_fmap_compose. apply list_fmap_ext.
    intros _ i _. simpl. f_equal; lia.
Qed.

Lemma stepFrom_inj row col d i j :
  d ∈ directions → stepFrom row col d i = stepFrom row col d j → i = j.
Proof.
  unfold directions, stepFrom. rewrite !elem_of_cons, elem_of_nil.
  intros [->|[->|[->|[->|[]]]]] Heq;
    pose proof (f_equal fst Heq) as H1; pose proof (f_equal snd Heq) as H2;
    simpl in *; lia.
Qed.

(** What [checkWin] finds along one direction. *)
Lemma line_scanned b player row col d :
  ∃ a c, (a ≤ 4)%nat ∧ (c ≤ 4)%nat
    ∧ lineCells b player row col d
      = stepFrom row col d
          <$> 0 :: take a [1; 2; 3; 4] ++ (Z.opp <$> take c [1; 2; 3; 4])
    ∧ (∀ i, 1 ≤ i ≤ Z.of_nat a →
            holds b player (row + d.1 * i) (col + d.2 * i) = true)
    ∧ (∀ i, 1 ≤ i ≤ Z.of_nat c →
            holds b player (row - d.1 * i) (col - d.2 * i) = true)
    ∧ (∀ m, (m ≤ 4)%nat →
            (∀ i, 1 ≤ i ≤ Z.of_nat m →
                  holds b player (row + d.1 * i) (col + d.2 * i) = true) →
            (m ≤ a)%nat)
    ∧ (∀ m, (m ≤ 4)%nat →
            (∀ i, 1 ≤ i ≤ Z.of_nat m →
                  holds b player (row - d.1 * i) (col - d.2 * i) = true) →
            (m ≤ c)%nat).
Proof.
  rewrite lineCells_steps. unfold ahead, behind.
  destruct (scan_four (λ i, holds b player (row + d.1 * i) (col + d.2 * i)))
    as (a & Ha & -> & Ha1 & Ha2).
  destruct (scan_four (λ i, holds b player (row - d.1 * i) (col - d.2 * i)))
    as (c & Hc & -> & Hc1 & Hc2).
  exists a, c. split_and!; done.
Qed.

Lemma line_length a c :
  (a ≤ 4)%nat → (c ≤ 4)%nat →
  length (0 :: take a [1; 2; 3; 4] ++ (Z.opp <$> take c [1; 2; 3; 4]))
  = (1 + a + c)%nat.
Proof.
  intros Ha Hc. simpl. rewrite length_app, length_fmap, !length_take. simpl. lia.
Qed.

(** Along one direction, [count >= 5] is a run of five through the
    cell. *)
Lemma line_five b player row col d :
  holds b player row col = true →
  (5 ≤ length (lineCells b player row col d))%nat
  ↔ ∃ k, 0 ≤ k ≤ 4 ∧
      ∀ j, 0 ≤ j ≤ 4 →
        holds b player (row + d.1 * (j - k)) (col + d.2 * (j - k)) = true.
Proof.
  intros Hcell.
  destruct (line_scanned b player row col d)
    as (a & c & Ha & Hc & -> & Ha1 & Hc1 & Ha2 & Hc2).
  rewrite length_fmap, line_length by done. split.
  - intros Hlen. exists (Z.of_nat c). split; [lia|]. intros j Hj.
    destruct (Z.lt_trichotomy (j - Z.of_nat c) 0) as [Hneg|[Hzero|Hpos]].
    + replace (row + d.1 * (j - Z.of_nat c))
        with (row - d.1 * (Z.of_nat c - j)) by lia.
      replace (col + d.2 * (j - Z.of_nat c))
        with (col - d.2 * (Z.of_nat c - j)) by lia.
      apply Hc1. lia.
    + rewrite Hzero, !Z.mul_0_r, !Z.add_0_r. done.
    + apply Ha1. lia.
  - intros (k & Hk & Hrun).
    assert (Z.to_nat (4 - k) ≤ a)%nat as Hahead.
    { apply Ha2; [lia|]. intros i Hi.
      replace i with ((k + i) - k) by lia. apply Hrun. lia. }
    assert (Z.to_nat k ≤ c)%nat as Hbehind.
    { apply Hc2; [lia|]. intros i Hi.
      replace (row - d.1 * i) with (row + d.1 * ((k - i) - k)) by lia.
      replace (col - d.2 * i) with (col + d.2 * ((k - i) - k)) by lia.
      apply Hrun. lia. }
    lia.
Qed.

Lemma line_cells b player row col d :
  d ∈ directions → holds b player row col = true →
  let cells := lineCells b player row col d in
  head cells = Some (row, col)
  ∧ NoDup cells
  ∧ onLine row col d cells
  ∧ Forall (λ p, holds b player p.1 p.2 = true) cells.
Proof.
  intros Hd Hcell.
  destruct (line_scanned b player row col d)
    as (a & c & Ha & Hc & -> & Ha1 & Hc1 & _ & _).
  cbv zeta. split_and!.
  - rewrite fmap_cons. unfold stepFrom. simpl. do 2 f_equal; lia.
  - apply (NoDup_fmap_2_strong (stepFrom row col d)
             (0 :: take a [1; 2; 3; 4] ++ (Z.opp <$> take c [1; 2; 3; 4]))).
    + intros i j _ _. by apply stepFrom_inj.
    + apply NoDup_cons. split.
      * rewrite elem_of_app, list_elem_of_fmap.
        intros [Hi|(i & Hi1 & Hi2)].
        -- apply elem_of_take_four in Hi; lia.
        -- apply elem_of_take_four in Hi2; lia.
      * apply NoDup_app. split_and!.
        -- apply NoDup_take_four.
        -- intros i Hi (i' & Hi1 & Hi2)%list_elem_of_fmap.
           apply elem_of_take_four in Hi; [|done].
           apply elem_of_take_four in Hi2; [|done]. lia.
        -- apply NoDup_fmap; [|apply NoDup_take_four]. intros ???; lia.
  - unfold onLine. apply Forall_forall.
    intros p (i & -> & Hi)%(list_elem_of_fmap (stepFrom row col d) _ p).
    exists i. split; [|done].
    apply elem_of_cons in Hi as [->|Hi]; [lia|].
    apply elem_of_app in Hi as [Hi|(i' & -> & Hi)%list_elem_of_fmap];
      apply elem_of_take_four in Hi; lia.
  - apply Forall_forall.
    intros p (i & -> & Hi)%(list_elem_of_fmap (stepFrom row col d) _ p).
    unfold stepFrom; simpl.
    apply elem_of_cons in Hi as [->|Hi].
    { by rewrite !Z.mul_0_r, !Z.add_0_r. }
    apply elem_of_app in Hi as [Hi|(i' & -> & Hi)%list_elem_of_fmap];
      apply elem_of_take_four in Hi; try done.
    + by apply Ha1.
    + replace (row + d.1 * - i') with (row - d.1 * i') by lia.
      replace (col + d.2 * - i') with (col - d.2 * i') by lia.
      by apply Hc1.
Qed.

Lemma checkWin_Some b row col player cells :
  checkWin b row col player = Some cells →
  ∃ d, d ∈ directions ∧ cells = lineCells b player row col d
       ∧ (5 ≤ length cells)%nat.
Proof.
  unfold checkWin. intros H.
  destruct (list_find _ _) as [[i found]|] eqn:Hfind; simpl in H; [|done].
  injection H as <-. simpl.
  apply list_find_Some in Hfind as (Hi & Hlen & _).
  apply list_lookup_fmap_Some in Hi as (d & -> & Hd).
  exists d. split_and!; [|done..]. by eapply list_elem_of_lookup_2.
Qed.

Lemma checkWin_is_Some b row col player :
  is_Some (checkWin b row col player)
  ↔ ∃ d, d ∈ directions ∧ (5 ≤ length (lineCells b player row col d))%nat.
Proof.
  split.
  - intros [cells (d & Hd & -> & Hlen)%checkWin_Some]. by exists d.
  - intros (d & Hd & Hlen). unfold checkWin.
    destruct (list_find _ _) as [[i found]|] eqn:Hfind; [done|].
    apply list_find_None in Hfind.
    rewrite Forall_fmap, Forall_forall in Hfind.
    destruct (Hfind d Hd). done.
Qed.

(** X22.  [checkWin] detects exactly five in a row.  For a cell that holds
    [player], [checkWin(row, col, player)] returns [true] exactly when
    five cells in a row, column or diagonal, all of [player], run
    through that cell; and the [winningCells] it stores are then at
    least five distinct cells of [player] on one line, the first of them
    the cell itself. *)
Theorem check_win_detects_five_in_a_row (b : Board) (row col player : Z)
    (Hcell : holds b player row col = true) :
  (is_Some (checkWin b row col player) ↔ fiveThrough b player row col)
  ∧ ∀ cells, checkWin b row col player = Some cells →
      (5 ≤ length cells)%nat
      ∧ head cells = Some (row, col)
      ∧ NoDup cells
      ∧ Forall (λ p, holds b player p.1 p.2 = true) cells
      ∧ ∃ d, d ∈ directions ∧ onLine row col d cells.
Proof.
  split.
  - rewrite checkWin_is_Some. unfold fiveThrough. split.
    + intros (d & Hd & Hlen). apply line_five in Hlen as (k & Hk & Hrun); [|done].
      by exists d, k.
    + intros (d & k & Hd & Hk & Hrun). exists d. split; [done|].
      apply line_five; [done|]. by exists k.
  - intros cells (d & Hd & -> & Hlen)%checkWin_Some.
    destruct (line_cells b player row col d Hd Hcell) as (Hh & Hn & Hl & Hf).
    split_and!; try done. by exists d.
Qed.

Lemma check_win_detects_five_in_a_row_witness :
  is_Some (checkWin fiveBoard 3 3 1) ∧ fiveThrough fiveBoard 1 3 3.
Proof.
  destruct (check_win_detects_five_in_a_row fiveBoard 3 3 1) as [Hiff _].
  - by vm_compute.
  - assert (is_Some (checkWin fiveBoard 3 3 1)) as Hwin
      by (vm_compute; eauto).
    split; [exact Hwin|]. by apply Hiff.
Defined.

(** ** Searching for a winning cell *)

Lemma holds_setCell b r c player :
  wellFormed b → inBoard r c = true →
  holds (setCell b r c player) player r c = true.
Proof.
  intros Hwf Hin. unfold holds. rewrite Hin, cell_setCell_same by done.
  simpl. lia.
Qed.

Lemma wins_iff_five b r c player :
  wellFormed b → inBoard r c = true →
  is_Some (checkWin (setCell b r c player) r c player)
  ↔ fiveThrough (setCell b r c player) player r c.
Proof.
  intros Hwf Hin. rewrite checkWin_is_Some. unfold fiveThrough.
  pose proof (holds_setCell b r c player Hwf Hin) as Hcell. split.
  - intros (d & Hd & Hlen). apply line_five in Hlen as (k & Hk & Hrun); [|done].
    by exists d, k.
  - intros (d & k & Hd & Hk & Hrun). exists d. split; [done|].
    apply line_five; [done|]. by exists k.
Qed.

Lemma findWinningMove_Some b player r c :
  wellFormed b → findWinningMove b player = Some (r, c) →
  inBoard r c = true ∧ cell b r c = 0
  ∧ fiveThrough (setCell b r c player) player r c.
Proof.
  intros Hwf. unfold findWinningMove.
  destruct (list_find _ _) as [[i p]|] eqn:Hfind; [|done].
  intros [= ->]. apply list_find_Some in Hfind as (Hi & [Hempty Hwin] & _).
  apply list_elem_of_lookup_2, elem_of_allCells in Hi. simpl in *.
  split_and!; [done..|]. by apply wins_iff_five.
Qed.

Lemma findWinningMove_None b player r c :
  wellFormed b → findWinningMove b player = None →
  inBoard r c = true → cell b r c = 0 →
  ¬ fiveThrough (setCell b r c player) player r c.
Proof.
  intros Hwf. unfold findWinningMove.
  destruct (list_find _ _) as [[i p]|] eqn:Hfind; [done|].
  intros _ Hin Hempty Hfive. apply list_find_None in Hfind.
  rewrite Forall_forall in Hfind.
  apply (Hfind (r, c)); [by apply elem_of_allCells|].
  split; [done|]. by apply wins_iff_five.
Qed.

(** X23.  [findWinningMove] finds a winning cell when there is one.  On a
    board of eight rows of eight cells, the cell it returns is an empty
    cell of the board on which a stone of [player] completes five in a
    row; it returns [null] only if no empty cell does; and the board is
    as before. *)
Theorem winning_move_found_iff_exists (b : Board) (player : Z)
    (Hwf : wellFormed b) :
  match findWinningMove b player with
  | Some (r, c) =>
      inBoard r c = true ∧ cell b r c = 0
      ∧ fiveThrough (setCell b r c player) player r c
  | None =>
      ∀ r c, inBoard r c = true → cell b r c = 0 →
             ¬ fiveThrough (setCell b r c player) player r c
  end.
Proof.
  destruct (findWinningMove b player) as [[r c]|] eqn:Hfind.
  - by apply findWinningMove_Some.
  - intros r c. by apply findWinningMove_None.
Qed.

Lemma fourBoard_wellFormed : wellFormed fourBoard.
Proof. unfold wellFormed. apply (bool_decide_unpack _). by vm_compute. Qed.

Lemma winning_move_found_iff_exists_witness :
  findWinningMove fourBoard 1 = Some (3, 5)
  ∧ fiveThrough (setCell fourBoard 3 5 1) 1 3 5.
Proof.
  pose proof (winning_move_found_iff_exists fourBoard 1 fourBoard_wellFormed)
    as H.
  assert (findWinningMove fourBoard 1 = Some (3, 5)) as Hfound by (by vm_compute).
  rewrite Hfound in H. split; [done|]. apply H.
Defined.

(** ** The move of the AI *)

(** An empty cell of the board. *)
Lemma findThreatMove_free b player p :
  findThreatMove b player = Some p →
  inBoard p.1 p.2 = true ∧ cell b p.1 p.2 = 0.
Proof.
  unfold findThreatMove.
  set (body := λ (best : option (Z * Z) * Z) (p : Z * Z), _).
  assert (∀ cells best,
            (∀ q, q ∈ cells → inBoard q.1 q.2 = true) →
            (∀ q, best.1 = Some q → inBoard q.1 q.2 = true ∧ cell b q.1 q.2 = 0) →
            ∀ q, (foldl body best cells).1 = Some q →
                 inBoard q.1 q.2 = true ∧ cell b q.1 q.2 = 0) as Hfold.
  { induction cells as [|x cells IH]; intros best Hcells Hbest; [done|].
    simpl. apply IH.
    - intros q Hq. apply Hcells. by apply list_elem_of_further.
    - unfold body. destruct (cell b x.1 x.2 =? 0) eqn:Hx; [|done].
      destruct (best.2 <? _); [|done]. simpl. intros q [= <-].
      split; [apply Hcells, list_elem_of_here|lia]. }
  destruct (foldl body (None, 0) allCells) as [bestMove bestScore] eqn:Hbest.
  destruct (10 <? bestScore); [|done]. intros ->.
  apply (Hfold allCells (None, 0)).
  - intros [r c]. apply elem_of_allCells.
  - done.
  - by rewrite Hbest.
Qed.

Lemma findStrategicMove_free b p :
  findStrategicMove b = Some p →
  inBoard p.1 p.2 = true ∧ cell b p.1 p.2 = 0.
Proof.
  unfold findStrategicMove. intros [Hin Hp]%find_some.
  apply list_elem_of_In in Hin. destruct p as [r c].
  apply elem_of_allCells in Hin. simpl in *. split; [done|]. lia.
Qed.

Lemma findRandomMove_free b choice p :
  findRandomMove b choice = Some p →
  inBoard p.1 p.2 = true ∧ cell b p.1 p.2 = 0.
Proof.
  unfold findRandomMove. intros Hp%list_elem_of_lookup_2.
  apply list_elem_of_filter in Hp as [Hempty Hin]. destruct p as [r c].
  by apply elem_of_allCells in Hin.
Qed.

Lemma findRandomMove_is_Some b choice r c :
  inBoard r c = true → cell b r c = 0 → is_Some (findRandomMove b choice).
Proof.
  intros Hin Hempty. unfold findRandomMove. apply lookup_lt_is_Some.
  apply Nat.mod_upper_bound.
  assert ((r, c) ∈ filter (λ p, cell b p.1 p.2 = 0) allCells) as Hrc.
  { apply list_elem_of_filter. split; [done|]. by apply elem_of_allCells. }
  destruct (filter _ _); [by apply elem_of_nil in Hrc|done].
Qed.

Lemma findCenterMove_free b choice p :
  findCenterMove b choice = Some p →
  inBoard p.1 p.2 = true ∧ cell b p.1 p.2 = 0.
Proof.
  unfold findCenterMove. destruct (cell b 4 4 =? 0) eqn:Hcenter.
  - intros [= <-]. simpl. split; [done|lia].
  - destruct (find _ _) as [q|] eqn:Hfind.
    + intros [= <-]. apply find_some in Hfind as [_ Hq].
      apply andb_prop in Hq as [Hq1 Hq2]. split; [done|lia].
    + apply findRandomMove_free.
Qed.

Lemma findCenterMove_is_Some b choice r c :
  inBoard r c = true → cell b r c = 0 → is_Some (findCenterMove b choice).
Proof.
  intros Hin Hempty. unfold findCenterMove.
  destruct (cell b 4 4 =? 0); [done|].
  destruct (find _ _); [done|]. by eapply findRandomMove_is_Some.
Qed.

Lemma getBestMove_free b choice p :
  wellFormed b → getBestMove b choice = Some p →
  inBoard p.1 p.2 = true ∧ cell b p.1 p.2 = 0.
Proof.
  intros Hwf. unfold getBestMove.
  destruct (findWinningMove b 2) as [[r c]|] eqn:H1.
  { intros [= <-]. by apply findWinningMove_Some in H1 as (? & ? & _). }
  destruct (findWinningMove b 1) as [[r c]|] eqn:H2.
  { intros [= <-]. by apply findWinningMove_Some in H2 as (? & ? & _). }
  destruct (findThreatMove b 1) as [q|] eqn:H3.
  { intros [= <-]. by apply findThreatMove_free in H3. }
  destruct (findThreatMove b 2) as [q|] eqn:H4.
  { intros [= <-]. by apply findThreatMove_free in H4. }
  destruct (findStrategicMove b) as [q|] eqn:H5.
  { intros [= <-]. by apply findStrategicMove_free in H5. }
  apply findCenterMove_free.
Qed.

Lemma getBestMove_is_Some b choice r c :
  inBoard r c = true → cell b r c = 0 → is_Some (getBestMove b choice).
Proof.
  intros Hin Hempty. unfold getBestMove.
  repeat (match goal with |- is_Some (match ?x with _ => _ end) =>
            destruct x; [done|] end).
  by eapply findCenterMove_is_Some.
Qed.

(** X24.  The move of the AI.  On a board of eight rows of eight cells
    [getBestMove] returns an empty cell of the board, and it returns one
    whenever the board has an empty cell, whatever [Math.random] gives.
    If some empty cell completes five in a row for the AI, the move
    returned is such a cell; if none does but some empty cell completes
    five in a row for the player, the move returned is a cell that does
    (the AI blocks it). *)
Theorem ai_move_is_legal_wins_then_blocks (b : Board) (choice : nat)
    (Hwf : wellFormed b) :
  (∀ r c, getBestMove b choice = Some (r, c) →
          inBoard r c = true ∧ cell b r c = 0)
  ∧ ((∃ r c, inBoard r c = true ∧ cell b r c = 0) →
     is_Some (getBestMove b choice))
  ∧ ((∃ r c, inBoard r c = true ∧ cell b r c = 0
             ∧ fiveThrough (setCell b r c 2) 2 r c) →
     ∃ r c, getBestMove b choice = Some (r, c)
            ∧ fiveThrough (setCell b r c 2) 2 r c)
  ∧ ((∀ r c, inBoard r c = true → cell b r c = 0 →
             ¬ fiveThrough (setCell b r c 2) 2 r c) →
     (∃ r c, inBoard r c = true ∧ cell b r c = 0
             ∧ fiveThrough (setCell b r c 1) 1 r c) →
     ∃ r c, getBestMove b choice = Some (r, c)
            ∧ fiveThrough (setCell b r c 1) 1 r c).
Proof.
  split_and!.
  - intros r c Hmove. by apply (getBestMove_free b choice (r, c)).
  - intros (r & c & Hin & Hempty). by eapply getBestMove_is_Some.
  - intros (r & c & Hin & Hempty & Hfive). unfold getBestMove.
    destruct (findWinningMove b 2) as [[r' c']|] eqn:H1.
    + exists r', c'. split; [done|].
      by apply findWinningMove_Some in H1 as (_ & _ & ?).
    + by destruct (findWinningMove_None b 2 r c Hwf H1 Hin Hempty).
  - intros Hnone (r & c & Hin & Hempty & Hfive). unfold getBestMove.
    destruct (findWinningMove b 2) as [[r' c']|] eqn:H1.
    { apply findWinningMove_Some in H1 as (Hin' & Hempty' & Hfive'); [|done].
      by destruct (Hnone r' c'). }
    destruct (findWinningMove b 1) as [[r' c']|] eqn:H2.
    + exists r', c'. split; [done|].
      by apply findWinningMove_Some in H2 as (_ & _ & ?).
    + by destruct (findWinningMove_None b 1 r c Hwf H2 Hin Hempty).
Qed.

Lemma ai_move_is_legal_wins_then_blocks_witness :
  getBestMove fourBoard 0 = Some (3, 5)
  ∧ cell fourBoard 3 5 = 0
  ∧ fiveThrough (setCell fourBoard 3 5 1) 1 3 5.
Proof.
  destruct (ai_move_is_legal_wins_then_blocks fourBoard 0 fourBoard_wellFormed)
    as (Hfree & _ & _ & _).
  assert (getBestMove fourBoard 0 = Some (3, 5)) as Hmove by (by vm_compute).
  split; [done|]. split; [by apply Hfree|].
  by apply (findWinningMove_Some fourBoard 1 3 5 fourBoard_wellFormed).
Defined.

(** ** The course of a game *)

Lemma handlePlayerMove_board row col g :
  board (handlePlayerMove row col g) = board g
  ∨ (cell (board g) row col = 0
     ∧ board (handlePlayerMove row col g) = setCell (board g) row col 1).
Proof.
  unfold handlePlayerMove.
  destruct (gameOver g); [by left|]. destruct (isPlayerTurn g); [|by left].
  destruct (cell (board g) row col =? 0) eqn:Hempty; [|by left].
  destruct (isThinking g); [by left|]. simpl. right. split; [lia|].
  destruct (checkWin _ _ _ _); [done|]. by destruct (checkDraw _).
Qed.

Lemma aiMoves_board choice g :
  wellFormed (board g) →
  board (aiMoves choice g) = board g
  ∨ ∃ row col, inBoard row col = true ∧ cell (board g) row col = 0
               ∧ board (aiMoves choice g) = setCell (board g) row col 2.
Proof.
  intros Hwf. unfold aiMoves.
  destruct (getBestMove (board g) choice) as [[row col]|] eqn:Hmove; [|by left].
  apply getBestMove_free in Hmove as [Hin Hempty]; [|done].
  right. exists row, col. split_and!; [done..|].
  destruct (checkWin _ _ _ _); [done|]. by destruct (checkDraw _).
Qed.

(** What an event does to the board: nothing, a reset, or one stone on
    an empty cell. *)
Lemma gameStep_board g e :
  wellFormed (board g) →
  board (gameStep g e) = board g
  ∨ (restarts g e = true ∧ board (gameStep g e) = emptyBoard)
  ∨ ∃ row col v, (v = 1 ∨ v = 2) ∧ inBoard row col = true
                 ∧ cell (board g) row col = 0
                 ∧ board (gameStep g e) = setCell (board g) row col v.
Proof.
  intros Hwf. destruct e as [row col| |n choice]; simpl.
  - destruct (inBoard row col) eqn:Hin; [|by left].
    destruct (handlePlayerMove_board row col g) as [->|[Hempty ->]]; [by left|].
    right; right. exists row, col, 1. split_and!; auto.
  - right; left. done.
  - destruct (pending g !! n) as [[|]|] eqn:Hn; [| |by left].
    + destruct (aiMoves_board choice
                  (mkGame (board g) (isPlayerTurn g) (gameOver g)
                          (isThinking g) (winningCells g)
                          (delete n (pending g))) Hwf)
        as [->|(row & col & Hin & Hempty & ->)]; [by left|].
      right; right. exists row, col, 2. split_and!; auto.
    + right; left. done.
Qed.

Lemma gameStep_wellFormed g e :
  wellFormed (board g) → wellFormed (board (gameStep g e)).
Proof.
  intros Hwf.
  destruct (gameStep_board g e Hwf)
    as [->|[[_ ->]|(row & col & v & Hv & _ & _ & ->)]].
  - done.
  - apply emptyBoard_wellFormed.
  - apply setCell_wellFormed; [|done]. destruct Hv; auto.
Qed.

Lemma play_wellFormed events : wellFormed (board (play events)).
Proof.
  unfold play. assert (wellFormed (board newGame)) as H
    by apply emptyBoard_wellFormed.
  revert H. generalize newGame.
  induction events as [|e events IH]; intros g Hg; [done|].
  simpl. by apply IH, gameStep_wellFormed.
Qed.

(** X25.  Stones stay where they are put.  In every state a game can
    reach, the board has eight rows of eight cells holding 0, 1 or 2,
    and an event either leaves the board as it is, or resets it, or
    puts one stone on a cell that was empty: unless [resetGame] runs, a
    cell that holds a stone holds the same stone afterwards. *)
Theorem stones_stay_until_reset (events : list GameEvent) (e : GameEvent) :
  let g := play events in
  let g' := gameStep g e in
  wellFormed (board g) ∧ wellFormed (board g')
  ∧ (restarts g e = false →
     ∀ r c, inBoard r c = true → cell (board g) r c ≠ 0 →
            cell (board g') r c = cell (board g) r c).
Proof.
  intros g g'. pose proof (play_wellFormed events) as Hwf. fold g in Hwf.
  split; [done|]. split; [by apply gameStep_wellFormed|].
  intros Hrestart r c [Hr Hc]%inBoard_spec Hstone. unfold g'.
  destruct (gameStep_board g e Hwf)
    as [->|[[Hre _]|(row & col & v & _ & [Hrow Hcol]%inBoard_spec & Hempty & ->)]].
  - done.
  - congruence.
  - apply cell_setCell_other; [lia..|]. intros [= -> ->]. done.
Qed.

(** X26.  A move of the player that completes five ends the game.  When
    the player may move and clicks an empty cell, the stone is placed;
    if it completes five in a row the game is over at once, the line is
    stored for highlighting and only the restart is scheduled, no move
    of the AI; if it does not and the board is not full, the AI is set
    thinking and its move is scheduled. *)
Theorem player_five_ends_game (g : Game) (row col : Z)
    (Hwf : wellFormed (board g))
    (Hover : gameOver g = false) (Hturn : isPlayerTurn g = true)
    (Hthinking : isThinking g = false)
    (Hin : inBoard row col = true) (Hempty : cell (board g) row col = 0) :
  let g' := gameStep g (Click row col) in
  board g' = setCell (board g) row col 1
  ∧ (fiveThrough (board g') 1 row col →
     gameOver g' = true ∧ isThinking g' = false
     ∧ pending g' = pending g ++ [Restart]
     ∧ (5 ≤ length (winningCells g'))%nat
     ∧ (row, col) ∈ winningCells g'
     ∧ Forall (λ p, cell (board g') p.1 p.2 = 1) (winningCells g'))
  ∧ (¬ fiveThrough (board g') 1 row col → checkDraw (board g') = false →
     gameOver g' = false ∧ isThinking g' = true ∧ isPlayerTurn g' = false
     ∧ pending g' = pending g ++ [AIMove]).
Proof.
  simpl. rewrite Hin. unfold handlePlayerMove.
  rewrite Hover, Hturn, Hthinking, Hempty. simpl.
  pose proof (holds_setCell (board g) row col 1 Hwf Hin) as Hcell.
  pose proof (wins_iff_five (board g) row col 1 Hwf Hin) as Hwins.
  destruct (checkWin (setCell (board g) row col 1) row col 1) as [cells|] eqn:Hcheck.
  - simpl. split; [done|]. split.
    + intros _. apply checkWin_Some in Hcheck as (d & Hd & -> & Hlen).
      destruct (line_cells (setCell (board g) row col 1) 1 row col d Hd Hcell)
        as (Hhead & _ & _ & Hall).
      split_and!; try done.
      * apply head_Some_elem_of. exact Hhead.
      * eapply Forall_impl; [exact Hall|]. intros p Hp. unfold holds in Hp.
        apply andb_prop in Hp as [_ Hp]. lia.
    + intros Hno. destruct Hno. apply Hwins. eauto.
  - destruct (checkDraw (setCell (board g) row col 1)) eqn:Hdraw; simpl;
      (split; [done|]); (split; [intros Hfive; by apply Hwins in Hfive as [? ?]|]).
    + intros _ Hd. congruence.
    + done.
Qed.

Lemma player_five_ends_game_witness :
  let g := mkGame fourBoard true false false [] [AIMove] in
  gameOver (gameStep g (Click 3 5)) = true
  ∧ pending (gameStep g (Click 3 5)) = [AIMove; Restart].
Proof.
  intros g.
  destruct (player_five_ends_game g 3 5) as (Hboard & Hfive & _);
    [apply fourBoard_wellFormed|done..|].
  destruct Hfive as (Hover & _ & Hpending & _).
  - rewrite Hboard.
    by apply (findWinningMove_Some fourBoard 1 3 5 fourBoard_wellFormed).
  - split; [exact Hover|exact Hpending].
Defined.

End FiveInARowFacts.
